(** * What-Reqs-Scanner: the requirements scanner and its reports

    A shallow embedding of [requirements_scanner.py] and of the parts of
    [ai_analyzer.py] that [main] drives, with the properties of the
    parser, of the aggregation and of the report generators.

    Python's [str] is a sequence of Unicode code points: a string is a
    [list N].  Dictionaries are [gmap]s, the per-file [set]s are [gset]s;
    the code only ever iterates a dictionary through [sorted], so the
    insertion order of its keys is not observable. *)

From Stdlib Require Import Ascii String DecimalString.
From stdpp Require Import gmap list sorting lexico.

Abbreviation char := N (only parsing).
Abbreviation str := (list N) (only parsing).

(** ** Strings *)

(** [u "abc"] is the Python literal ['abc'] (ASCII literals only). *)
Definition u (s : string) : str := N_of_ascii <$> list_ascii_of_string s.

Definition in_range (lo hi c : char) : bool := (lo <=? c)%N && (c <=? hi)%N.

(** [str.isspace] for one character, which is also the class [\s] of
    [re] on [str] patterns and the set that [str.strip] removes:
    TAB..CR, FS..US, SPACE, NEL, NBSP and the Unicode space separators. *)
Definition isspace (c : char) : bool :=
  in_range 9 13 c || in_range 28 32 c || (c =? 133)%N || (c =? 160)%N
  || (c =? 5760)%N || in_range 8192 8202 c || (c =? 8232)%N || (c =? 8233)%N
  || (c =? 8239)%N || (c =? 8287)%N || (c =? 12288)%N.

Fixpoint lstrip (s : str) : str :=
  match s with
  | c :: s' => if isspace c then lstrip s' else s
  | [] => []
  end.

Definition rstrip (s : str) : str := reverse (lstrip (reverse s)).

(** [s.strip()] *)
Definition strip (s : str) : str := rstrip (lstrip s).

(** [s.split(sep)[0]] for a one-character separator: the text before the
    first [sep], the whole of [s] when there is none. *)
Fixpoint split_head (sep : char) (s : str) : str :=
  match s with
  | [] => []
  | c :: s' => if (c =? sep)%N then [] else c :: split_head sep s'
  end.

(** [s.startswith(p)] *)
Definition startswith (s p : str) : bool := bool_decide (p `prefix_of` s).

(** [s.lower()] on one character.  The scanner lowers only the text
    matched by the name pattern, which is ASCII (see [match_name_ascii]),
    where lowering moves [A-Z] onto [a-z] and nothing else. *)
Definition lower_char (c : char) : char :=
  if in_range 65 90 c then (c + 32)%N else c.

Definition lower (s : str) : str := lower_char <$> s.

(** [s.replace(a, b)] for one-character [a] and [b]. *)
Definition replace (a b : char) (s : str) : str :=
  (λ c, if (c =? a)%N then b else c) <$> s.

(** ** The fragment of [re] the scanner uses

    A backtracking matcher in continuation style.  The continuation of a
    sub-pattern receives the text it matched and the rest of the input;
    a failing continuation makes the matcher try its next alternative,
    in the order in which [re] tries them (greedy: longest first; lazy:
    shortest first; [|]: left first). *)

Inductive regex :=
  | Eps
  | Class (p : char → bool)       (* one character of a class *)
  | Seq (r1 r2 : regex)
  | Alt (r1 r2 : regex)           (* r1|r2 *)
  | Opt (r : regex)               (* (r)? *)
  | Star (p : char → bool)        (* [p]* *)
  | Plus (p : char → bool)        (* [p]+ *)
  | LazyStar (p : char → bool)    (* [p]*? *)
  | Eos.                          (* $ *)

Section exec.
Context {A : Type}.

Fixpoint star_greedy (p : char → bool) (s : str)
    (k : str → str → option A) : option A :=
  match s with
  | c :: s' =>
      if p c then
        match star_greedy p s' (λ m rest, k (c :: m) rest) with
        | Some a => Some a
        | None => k [] s
        end
      else k [] s
  | [] => k [] []
  end.

Fixpoint star_lazy (p : char → bool) (s : str)
    (k : str → str → option A) : option A :=
  match k [] s with
  | Some a => Some a
  | None =>
      match s with
      | c :: s' => if p c then star_lazy p s' (λ m rest, k (c :: m) rest)
                   else None
      | [] => None
      end
  end.

Fixpoint exec (r : regex) (s : str) (k : str → str → option A) : option A :=
  match r with
  | Eps => k [] s
  | Class p =>
      match s with
      | c :: s' => if p c then k [c] s' else None
      | [] => None
      end
  | Seq r1 r2 =>
      exec r1 s (λ m1 s1, exec r2 s1 (λ m2 s2, k (m1 ++ m2) s2))
  | Alt r1 r2 =>
      match exec r1 s k with
      | Some a => Some a
      | None => exec r2 s k
      end
  | Opt r1 =>
      match exec r1 s k with
      | Some a => Some a
      | None => k [] s
      end
  | Star p => star_greedy p s k
  | Plus p =>
      match s with
      | c :: s' => if p c then star_greedy p s' (λ m rest, k (c :: m) rest)
                   else None
      | [] => None
      end
  | LazyStar p => star_lazy p s k
  | Eos =>
      (* the end of the string, or just before a newline that ends it *)
      match s with
      | [] => k [] []
      | [10%N] => k [] s
      | _ => None
      end
  end.
End exec.

(** [m = re.match(r, s)]: the pair [(m.group(0), s[m.end():])]. *)
Definition re_match (r : regex) (s : str) : option (str * str) :=
  exec r s (λ m rest, Some (m, rest)).

(** [m = re.search('(g)t', s)]: [m.group(1)] for the leftmost start at
    which the pattern matches. *)
Fixpoint re_search_group1 (g t : regex) (s : str) : option str :=
  match exec g s (λ m1 s1, exec t s1 (λ _ _, Some m1)) with
  | Some m1 => Some m1
  | None =>
      match s with
      | [] => None
      | _ :: s' => re_search_group1 g t s'
      end
  end.

(** ** PackageNormalizer *)

(** [[a-zA-Z0-9]] *)
Definition is_alnum (c : char) : bool :=
  in_range 97 122 c || in_range 65 90 c || in_range 48 57 c.

(** [[a-zA-Z0-9._-]] *)
Definition is_namechar (c : char) : bool :=
  in_range 97 122 c || in_range 65 90 c || in_range 48 57 c
  || (c =? 46)%N || (c =? 95)%N || (c =? 45)%N.

(** [[=<>!]] *)
Definition is_op (c : char) : bool :=
  (c =? 61)%N || (c =? 60)%N || (c =? 62)%N || (c =? 33)%N.

(** [.] without DOTALL: any character but the newline. *)
Definition is_dot (c : char) : bool := negb (c =? 10)%N.

(** [^([a-zA-Z0-9]([a-zA-Z0-9._-]*[a-zA-Z0-9])?)], used with [re.match],
    which anchors at the start; group 1 is the whole match. *)
Definition name_re : regex :=
  Seq (Class is_alnum) (Opt (Seq (Star is_namechar) (Class is_alnum))).

(** [([=<>!]+.*?)(?:\s|$)]: the group, and what follows it. *)
Definition version_group_re : regex := Seq (Plus is_op) (LazyStar is_dot).
Definition version_tail_re : regex := Alt (Class isspace) Eos.

(** [package_name.lower().replace('_', '-')] *)
Definition normalize (package_name : str) : str :=
  replace 95 45 (lower package_name).

(** The URL, VCS and editable prefixes that [parse_requirement] skips. *)
Definition skipped_prefixes : list str :=
  [u "http://"; u "https://"; u "git+"; u "-e "].

(** [PackageNormalizer.parse_requirement]; the pair [(None, None)] is
    [(None, None)] here too. *)
Definition parse_requirement (line : str) : option str * option str :=
  let line := strip (split_head 35 line) in
  if bool_decide (line = []) then (None, None)
  else if existsb (startswith line) skipped_prefixes then (None, None)
  else
    match re_match name_re line with
    | None => (None, None)
    | Some (package_name, rest) =>
        let normalized_name := normalize package_name in
        let version_spec :=
          match re_search_group1 version_group_re version_tail_re rest with
          | Some g => strip g
          | None => []
          end in
        (Some normalized_name, Some version_spec)
    end.


(** *** What the two patterns compute

    Direct recursive readings of the two patterns, proved equal to the
    backtracking matcher below ([re_match_name_re],
    [re_search_version_re]). *)

(** The optional group of the name pattern, [[a-zA-Z0-9._-]*[a-zA-Z0-9]]:
    the longest run of name characters that ends in an alphanumeric. *)
Fixpoint name_tail (s : str) : option (str * str) :=
  match s with
  | c :: s' =>
      if is_namechar c then
        match name_tail s' with
        | Some (m, rest) => Some (c :: m, rest)
        | None => if is_alnum c then Some ([c], s') else None
        end
      else None
  | [] => None
  end.

Definition match_name (s : str) : option (str * str) :=
  match s with
  | c :: s' =>
      if is_alnum c then
        match name_tail s' with
        | Some (m, rest) => Some (c :: m, rest)
        | None => Some ([c], s')
        end
      else None
  | [] => None
  end.

Fixpoint take_nonspace (s : str) : str :=
  match s with
  | c :: s' => if isspace c then [] else c :: take_nonspace s'
  | [] => []
  end.

Fixpoint find_version (s : str) : option str :=
  match s with
  | c :: s' => if is_op c then Some (c :: take_nonspace s') else find_version s'
  | [] => None
  end.

(** ** Effects

    [print], the writes to the report files and the exceptions that the
    code raises and catches.  The state is the content of the files the
    run has written (and of those that were there before), with the
    trace of the calls. *)

Inductive exn :=
  | ImportError (msg : str)
  | ValueError (msg : str)
  | KeyError (key : str)
  | EOFError
  | OSError (msg : str)
  | Exception (msg : str).

Inductive event :=
  | EvPrint (text : str)                  (* print(text) *)
  | EvInput (prompt : str)                (* input(prompt) *)
  | EvMkdir (path : str)                  (* path.mkdir(parents=True, exist_ok=True) *)
  | EvOpen (path : str)                   (* open(path, 'w', encoding='utf-8') *)
  | EvWrite (path : str) (chunk : str)    (* f.write(chunk) *)
  | EvClose (path : str).                 (* leaving the with block *)

(** [fs] is what the files hold on the disk.  The files are regular
    files, each known under one path (no links), on a POSIX system. *)
Record state := State { fs : gmap str (list N); trace : list event }.

(** [io.DEFAULT_BUFFER_SIZE] *)
Definition buffer_size : N := 8192.

(** A file opened for writing is a buffered text file: [write] adds to
    the buffer of the file, and the buffer goes to the disk when it has
    filled up and when the file is closed.  (CPython counts the encoded
    bytes, which for ASCII text are the characters, and the layer below
    may hold what it is handed a little longer; what is stated below of
    a file that is open does not depend on where its buffer fills up.)
    [fills_buffer text chunk]: [write(chunk)] fills a buffer that holds
    [text]. *)
Definition fills_buffer (text chunk : str) : bool :=
  (buffer_size <=? N.of_nat (length (text ++ chunk)))%N.

(** The buffers of the files that are open are read off the trace: for
    each, the text written since it was opened and not yet on the
    disk. *)
Definition buffer_event (ev : event) (pending : gmap str (list N)) :
    gmap str (list N) :=
  match ev with
  | EvOpen path => <[path := []]> pending
  | EvWrite path chunk =>
      alter (λ text, if fills_buffer text chunk then [] else text ++ chunk)
        path pending
  | EvClose path => delete path pending
  | EvPrint _ | EvInput _ | EvMkdir _ => pending
  end.

Definition buffers (t : list event) : gmap str (list N) :=
  foldl (λ pending ev, buffer_event ev pending) ∅ t.

(** The effect of an event on the disk: [open(path, 'w')] empties the
    file, [write] appends the buffer and the chunk to it when they fill
    the buffer and leaves the disk as it is otherwise, and closing the
    file appends what is left in its buffer. *)
Definition apply_event (ev : event) (st : state) : state :=
  State
    match ev with
    | EvOpen path => <[path := []]> (fs st)
    | EvWrite path chunk =>
        match buffers (trace st) !! path with
        | Some text =>
            if fills_buffer text chunk
            then alter (λ on_disk, on_disk ++ text ++ chunk) path (fs st)
            else fs st
        | None => fs st
        end
    | EvClose path =>
        match buffers (trace st) !! path with
        | Some text => alter (λ on_disk, on_disk ++ text) path (fs st)
        | None => fs st
        end
    | EvPrint _ | EvInput _ | EvMkdir _ => fs st
    end
    (trace st ++ [ev]).

Definition IO (A : Type) : Type := state → state * (exn + A).

Global Instance IO_ret : MRet IO := λ A a st, (st, inr a).
Global Instance IO_bind : MBind IO := λ A B f m st,
  match m st with
  | (st', inl e) => (st', inl e)
  | (st', inr a) => f a st'
  end.

Definition raise {A} (e : exn) : IO A := λ st, (st, inl e).
Definition emit (ev : event) : IO unit := λ st, (apply_event ev st, inr ()).
Definition print (text : str) : IO unit := emit (EvPrint text).

(** [try: body  except Exception as e: handler e] *)
Definition try_except {A} (body : IO A) (handler : exn → IO A) : IO A :=
  λ st,
  match body st with
  | (st', inl e) => handler e st'
  | (st', inr a) => (st', inr a)
  end.

(** [with open(path, 'w', encoding='utf-8') as f: body f.write]; the file
    is closed on the way out, also when [body] raises. *)
Definition with_open (path : str) (body : (str → IO unit) → IO unit) : IO unit :=
  λ st,
  let '(st', r) := body (λ chunk, emit (EvWrite path chunk))
                        (apply_event (EvOpen path) st) in
  (apply_event (EvClose path) st', r).

Fixpoint for_each {A} (body : A → IO unit) (l : list A) : IO unit :=
  match l with
  | [] => mret ()
  | x :: l' => body x ;; for_each body l'
  end.

(** ** Text formatting *)

Definition nl : str := [10%N].

(** [str(n)] for a non-negative [int]. *)
Definition str_of_nat (n : nat) : str :=
  u (DecimalString.NilEmpty.string_of_uint (Nat.to_uint n)).

(** [f"{s:<w}"] *)
Definition ljust (w : nat) (s : str) : str := s ++ replicate (w - length s) 32%N.

(** [sep.join(l)] *)
Fixpoint join (sep : str) (l : list str) : str :=
  match l with
  | [] => []
  | [s] => s
  | s :: l' => s ++ sep ++ join sep l'
  end.

(** ** [sorted]

    [<] on [str] compares code points lexicographically; on the tuples
    [(-count, name)] it compares the first components, then the second.
    [sorted] is stable: an insertion sort that puts an element in front of
    the later elements that are not smaller. *)

Fixpoint str_ltb (a b : str) : bool :=
  match a, b with
  | [], _ :: _ => true
  | x :: a', y :: b' => (x <? y)%N || (x =? y)%N && str_ltb a' b'
  | _, _ => false
  end.

Definition tuple_ltb (a b : Z * str) : bool :=
  (a.1 <? b.1)%Z || (a.1 =? b.1)%Z && str_ltb a.2 b.2.

Section sorted.
Context {A K : Type} (ltb : K → K → bool) (key : A → K).

Fixpoint insort (x : A) (l : list A) : list A :=
  match l with
  | [] => [x]
  | y :: l' => if ltb (key y) (key x) then y :: insort x l' else x :: l
  end.

(** [sorted(l, key=key)] *)
Definition sorted (l : list A) : list A := foldr insort [] l.
End sorted.

(** ** RequirementsScanner *)

(** A [requirements.txt] found by the scan: its path, the lines that
    iterating over it yields and, when reading it fails (on [open] or
    after those lines), the text of the exception.  Its content does not
    change during the run. *)
Record ManifestFile := Manifest {
  path : str;
  lines : list str;
  read_error : option str
}.

(** The three loops over the files have one shape:
    [for req_file in requirements_files:
       try: with open(req_file) as f: (for line in f: ...)
       except Exception as e: print(f"Warning: Could not read {req_file}: {e}")]
    where [read s file_lines] is the effect on the aggregate [s] of the
    lines that were read before the file ended or failed. *)
Fixpoint for_files {S} (read : S → list str → S)
    (requirements_files : list ManifestFile) (s : S) : IO S :=
  match requirements_files with
  | [] => mret s
  | req_file :: rest =>
      let s := read s (lines req_file) in
      match read_error req_file with
      | Some e =>
          print (u "Warning: Could not read " ++ path req_file ++ u ": " ++ e)
      | None => mret ()
      end ;;
      for_files read rest s
  end.

(** [if x:] for an optional string. *)
Definition truthy (x : option str) : bool :=
  match x with
  | Some (_ :: _) => true
  | _ => false
  end.

(** The body of the loop of [extract_packages]. *)
Definition add_package (packages : gmap str (list str)) (line : str) :
    gmap str (list str) :=
  match parse_requirement line with
  | (Some package_name, Some version_spec) =>
      if truthy (Some package_name) then
        let packages :=
          if bool_decide (package_name ∈ dom packages) then packages
          else <[package_name := []]> packages in
        if truthy (Some version_spec)
           && bool_decide (version_spec ∉ packages !!! package_name)
        then alter (λ l, l ++ [version_spec]) package_name packages
        else packages
      else packages
  | _ => packages
  end.

Definition extract_packages (requirements_files : list ManifestFile) :
    IO (gmap str (list str)) :=
  for_files (foldl add_package) requirements_files ∅.

(** The body of the inner loop of [extract_packages_with_versions]; the
    state is [(package_versions, seen_in_file)]. *)
Definition add_full_spec (acc : gmap str nat * gset str) (line : str) :
    gmap str nat * gset str :=
  let '(package_versions, seen_in_file) := acc in
  match parse_requirement line with
  | (Some package_name, Some version_spec) =>
      if truthy (Some package_name) then
        let full_spec :=
          if truthy (Some version_spec) then package_name ++ version_spec
          else package_name in
        if bool_decide (full_spec ∉ seen_in_file) then
          (<[full_spec := default 0 (package_versions !! full_spec) + 1]>
             package_versions,
           {[full_spec]} ∪ seen_in_file)
        else acc
      else acc
  | _ => acc
  end.

(** [seen_in_file = set()] at the start of each file. *)
Definition per_file {V} (body : gmap str V * gset str → str → gmap str V * gset str)
    (counts : gmap str V) (file_lines : list str) : gmap str V :=
  (foldl body (counts, ∅) file_lines).1.

Definition extract_packages_with_versions (requirements_files : list ManifestFile) :
    IO (gmap str nat) :=
  for_files (per_file add_full_spec) requirements_files ∅.

(** The body of the inner loop of [generate_frequency_report]; the state
    is [(package_counts, seen_in_file)]. *)
Definition count_package (acc : gmap str nat * gset str) (line : str) :
    gmap str nat * gset str :=
  let '(package_counts, seen_in_file) := acc in
  match parse_requirement line with
  | (Some package_name, _) =>
      if truthy (Some package_name) && bool_decide (package_name ∉ seen_in_file)
      then
        (<[package_name := default 0 (package_counts !! package_name) + 1]>
           package_counts,
         {[package_name]} ∪ seen_in_file)
      else acc
  | _ => acc
  end.

(** The first loop of [generate_frequency_report]: the number of files
    that declare each name. *)
Definition count_packages (requirements_files : list ManifestFile) :
    IO (gmap str nat) :=
  for_files (per_file count_package) requirements_files ∅.

(** *** The four reports *)

Definition check_mark : str := [10003%N].

Definition generate_unique_packages_report (packages : gmap str (list str))
    (output_file : str) : IO unit :=
  let sorted_packages := sorted str_ltb id (map_to_list packages).*1 in
  with_open output_file (λ write,
    write (u "# Unique Packages (Alphabetically Sorted)" ++ nl) ;;
    write (u "# Total unique packages: "
           ++ str_of_nat (length sorted_packages) ++ nl ++ nl) ;;
    for_each (λ package, write (package ++ nl)) sorted_packages) ;;
  print (check_mark ++ u " Unique packages report saved to: " ++ output_file).

(** [key=lambda x: (-x[1], x[0])] *)
Definition frequency_key (x : str * nat) : Z * str := (- Z.of_nat x.2, x.1)%Z.

Definition generate_frequency_report (packages : gmap str (list str))
    (requirements_files : list ManifestFile) (output_file : str) : IO unit :=
  package_counts ← count_packages requirements_files;
  let sorted_by_freq :=
    sorted tuple_ltb frequency_key (map_to_list package_counts) in
  with_open output_file (λ write,
    write (u "# Packages by Frequency" ++ nl) ;;
    write (u "# Total requirements.txt files scanned: "
           ++ str_of_nat (length requirements_files) ++ nl) ;;
    write (u "# Total unique packages: "
           ++ str_of_nat (size package_counts) ++ nl ++ nl) ;;
    write (ljust 40 (u "Package") ++ u " " ++ ljust 10 (u "Count") ++ u " "
           ++ u "Versions Found" ++ nl) ;;
    write (replicate 40 45%N ++ u " " ++ replicate 10 45%N ++ u " "
           ++ replicate 40 45%N ++ nl) ;;
    for_each (λ '(package, count),
      match packages !! package with
      | None => raise (KeyError package)
      | Some l =>
          let versions := match l with [] => u "any" | _ => join (u ", ") l end in
          write (ljust 40 package ++ u " " ++ ljust 10 (str_of_nat count)
                 ++ u " " ++ versions ++ nl)
      end) sorted_by_freq) ;;
  print (check_mark ++ u " Frequency report saved to: " ++ output_file).

Definition generate_unique_packages_with_versions_report
    (package_versions : gmap str nat) (output_file : str) : IO unit :=
  let sorted_packages := sorted str_ltb id (map_to_list package_versions).*1 in
  with_open output_file (λ write,
    write (u "# Unique Packages with Versions (Alphabetically Sorted)" ++ nl) ;;
    write (u "# Total unique package+version combinations: "
           ++ str_of_nat (length sorted_packages) ++ nl ++ nl) ;;
    for_each (λ package_spec, write (package_spec ++ nl)) sorted_packages) ;;
  print (check_mark ++ u " Unique packages with versions report saved to: "
         ++ output_file).

Definition generate_frequency_with_versions_report
    (package_versions : gmap str nat) (requirements_files : list ManifestFile)
    (output_file : str) : IO unit :=
  let sorted_by_freq :=
    sorted tuple_ltb frequency_key (map_to_list package_versions) in
  with_open output_file (λ write,
    write (u "# Packages with Versions by Frequency" ++ nl) ;;
    write (u "# Total requirements.txt files scanned: "
           ++ str_of_nat (length requirements_files) ++ nl) ;;
    write (u "# Total unique package+version combinations: "
           ++ str_of_nat (size package_versions) ++ nl ++ nl) ;;
    write (ljust 60 (u "Package Specification") ++ u " "
           ++ ljust 10 (u "Count") ++ nl) ;;
    write (replicate 60 45%N ++ u " " ++ replicate 10 45%N ++ nl) ;;
    for_each (λ '(package_spec, count),
      write (ljust 60 package_spec ++ u " " ++ ljust 10 (str_of_nat count) ++ nl))
      sorted_by_freq) ;;
  print (check_mark ++ u " Frequency with versions report saved to: "
         ++ output_file).

(** *** The scan *)

(** A directory as [os.walk] lists it: its entries that are not
    directories (name, lines, read error), then its sub-directories. *)
Inductive dirtree :=
  | Dir (files : list (str * (list str * option str)))
        (dirs : list (str * dirtree)).

(** [s.split(sep)] for a one-character separator. *)
Fixpoint split (sep : char) (s : str) : list str :=
  match s with
  | [] => [[]]
  | c :: s' =>
      if (c =? sep)%N then [] :: split sep s'
      else
        match split sep s' with
        | part :: parts => (c :: part) :: parts
        | [] => [[c]]
        end
  end.

(** POSIX paths as [pathlib] has them.  The root of a path given as a
    string is "/", or "//" when the string begins with exactly two
    slashes; its parts are what lies between the slashes, without the
    empty parts and the parts "."; ".." is kept. *)
Definition path_root (s : str) : str :=
  if startswith s (u "//") && negb (startswith s (u "///")) then u "//"
  else if startswith s (u "/") then u "/"
  else [].

Definition path_parts (s : str) : list str :=
  filter (λ part, part ≠ [] ∧ part ≠ u ".") (split 47 s).

(** [str] of the path with this root and these parts. *)
Definition path_str (root : str) (parts : list str) : str :=
  if bool_decide (root = [] ∧ parts = []) then u "."
  else root ++ join (u "/") parts.

(** [str(Path(s))] *)
Definition path_of (s : str) : str := path_str (path_root s) (path_parts s).

(** [str(Path(dir) / name)]: an absolute [name] replaces [dir]. *)
Definition path_join (dir name : str) : str :=
  if bool_decide (path_root name = []) then
    path_str (path_root dir) (path_parts dir ++ path_parts name)
  else path_of name.

(** [Path(p).name]: the last part, the empty string when there is none. *)
Definition path_name (p : str) : str := default [] (last (path_parts p)).

(** [os.path.join(top, name)], which [os.walk] uses for the directories
    below [top], for a name of a directory listing (which holds no [/]). *)
Definition walk_join (top name : str) : str :=
  if bool_decide (top = [] ∨ last top = Some 47%N) then top ++ name
  else top ++ u "/" ++ name.

Definition skipped_dirs : list str :=
  [u ".git"; u "__pycache__"; u "node_modules"; u ".venv"; u "venv"; u "env"].

(** [for file in files: if file == 'requirements.txt': ...append(Path(root) / file)] *)
Fixpoint manifests_in (root : str) (files : list (str * (list str * option str))) :
    list ManifestFile :=
  match files with
  | [] => []
  | (file, (file_lines, err)) :: files' =>
      if bool_decide (file = u "requirements.txt")
      then Manifest (path_join root file) file_lines err :: manifests_in root files'
      else manifests_in root files'
  end.

(** [scan_requirements_files]: [os.walk] top-down, the sub-directories
    with a skipped name pruned. *)
Fixpoint scan_requirements_files (root : str) (tree : dirtree) : list ManifestFile :=
  match tree with
  | Dir files dirs =>
      manifests_in root files ++
      (fix walk_dirs (dirs : list (str * dirtree)) : list ManifestFile :=
         match dirs with
         | [] => []
         | (d, sub) :: dirs' =>
             (if bool_decide (d ∈ skipped_dirs) then []
              else scan_requirements_files (walk_join root d) sub)
             ++ walk_dirs dirs'
         end) dirs
  end.

(** ** The summarization step ([ai_analyzer.py]) *)

Inductive Provider := anthropic | openai.

Definition provider_name (p : Provider) : str :=
  match p with anthropic => u "anthropic" | openai => u "openai" end.

(** [provider.upper()] *)
Definition provider_upper (p : Provider) : str :=
  match p with anthropic => u "ANTHROPIC" | openai => u "OPENAI" end.

(** What the run finds around it. *)
Record World := {
  (* the parsed arguments; repo_base defaults to REPO_BASE of the .env file *)
  repo_base : option str;
  output_dir : str;
  unique_output : str;
  frequency_output : str;
  ai_analysis : bool;
  ai_provider : Provider;
  skip_ai : bool;
  (* what is at the resolved base path: nothing, something that is not a
     directory, or a directory *)
  base_path : option (option dirtree);
  (* os.environ *)
  environ : gmap str (list N);
  (* the line that input() reads, None at the end of the input *)
  stdin : option str;
  (* the text of the ImportError of [from ai_analyzer import AIAnalyzer] *)
  analyzer_import_error : option str;
  (* whether [import anthropic] / [import openai] succeeds *)
  sdk_installed : Provider → bool;
  (* the remote call on (api_key, prompt): the text of its exception, or the reply *)
  remote_call : Provider → str → str → str + str;
  (* the files that exist before the run *)
  files_before : gmap str (list N);
  (* str(Path(p).expanduser().resolve()) for a path given as a string *)
  resolve : str → str;
  (* the text of the exception of output_dir.mkdir(parents=True, exist_ok=True),
     when it raises (the path or one of its parents is a file, or may not be
     written) *)
  mkdir_error : option str;
  (* the text of the exception of opening the file of the recommendations for
     writing, when it raises *)
  save_error : option str;
  (* the text of the exception of opening and reading the report at a path,
     when it raises *)
  report_read_error : str → option str
}.

Definition quote : str := [34%N].

(** [AIAnalyzer.generate_prompt] *)
Definition generate_prompt (analysis_data : gmap str (list N)) : str :=
  u "I have analyzed Python package usage across multiple repositories. Based on the frequency analysis below, please suggest a small number of discrete, reusable Python virtual environments (typically 2-5 environments) that would cover most use cases." ++ nl
  ++ nl
  ++ u "For each suggested environment, provide:" ++ nl
  ++ u "1. A descriptive name (e.g., " ++ quote ++ u "python-base" ++ quote
     ++ u ", " ++ quote ++ u "data-science" ++ quote ++ u ", " ++ quote
     ++ u "web-dev" ++ quote ++ u ")" ++ nl
  ++ u "2. The core packages to include (focus on the most frequently used packages)" ++ nl
  ++ u "3. A brief description of what types of projects would use this environment" ++ nl
  ++ u "4. Suggested Python version" ++ nl
  ++ nl
  ++ u "Guidelines:" ++ nl
  ++ u "- Focus on packages that appear in 30%+ of projects" ++ nl
  ++ u "- Group related packages together (e.g., web frameworks, data analysis, testing)" ++ nl
  ++ u "- Start with a " ++ quote ++ u "base" ++ quote
     ++ u " environment containing the most universal packages" ++ nl
  ++ u "- Keep specialized environments lean - only add what's truly needed" ++ nl
  ++ u "- Consider version compatibility when grouping packages" ++ nl
  ++ nl
  ++ u "FREQUENCY ANALYSIS:" ++ nl
  ++ default (u "Not available") (analysis_data !! u "frequency") ++ nl
  ++ nl
  ++ u "UNIQUE PACKAGES (for reference):" ++ nl
  ++ default (u "Not available") (analysis_data !! u "unique_packages") ++ nl
  ++ nl
  ++ u "Please provide your recommendations in a clear, structured format.".

(** [AIAnalyzer.__init__]: the analyzer is its provider and its key. *)
Definition AIAnalyzer_init (w : World) (provider : Provider) : IO (Provider * str) :=
  if bool_decide (provider_name provider ∉ [u "anthropic"; u "openai"]) then
    raise (ValueError (u "Unsupported AI provider: " ++ provider_name provider
                       ++ u ". Use 'anthropic' or 'openai'."))
  else
    let api_key := environ w !! (provider_upper provider ++ u "_API_KEY") in
    if truthy api_key then mret (provider, default [] api_key)
    else
      raise (ValueError (u "No API key provided for " ++ provider_name provider
                         ++ u ". Set " ++ provider_upper provider
                         ++ u "_API_KEY environment variable or pass api_key parameter.")).

(** What [f.read()] returns for a file opened in text mode that holds
    [s]: the line ends "\r\n" and "\r" are read as "\n". *)
Fixpoint universal_newlines (s : str) : str :=
  match s with
  | [] => []
  | c :: s' =>
      if (c =? 13)%N then
        match s' with
        | 10%N :: s'' => 10%N :: universal_newlines s''
        | _ => 10%N :: universal_newlines s'
        end
      else c :: universal_newlines s'
  end.

(** The body of the loop of [AIAnalyzer.read_analysis_files]: a report
    that is not there reads as the empty string, and so does, after a
    warning, one that cannot be read. *)
Definition read_report (w : World) (analysis_dir filename : str) : IO str :=
  λ st,
  let file_path := path_join analysis_dir filename in
  match fs st !! file_path with
  | Some text =>
      match report_read_error w file_path with
      | Some e =>
          (print (u "Warning: Could not read " ++ filename ++ u ": " ++ e) ;;
           mret []) st
      | None => (st, inr (universal_newlines text))
      end
  | None => (st, inr [])
  end.

(** [AIAnalyzer.read_analysis_files] *)
Definition read_analysis_files (w : World) (analysis_dir : str) :
    IO (gmap str (list N)) :=
  unique_packages ← read_report w analysis_dir (u "unique_packages.txt");
  frequency ← read_report w analysis_dir (u "packages_by_frequency.txt");
  unique_with_versions ←
    read_report w analysis_dir (u "unique_packages_with_versions.txt");
  frequency_with_versions ←
    read_report w analysis_dir (u "packages_by_frequency_with_versions.txt");
  mret (list_to_map
    [(u "unique_packages", unique_packages);
     (u "frequency", frequency);
     (u "unique_with_versions", unique_with_versions);
     (u "frequency_with_versions", frequency_with_versions)]).

(** [analyze_with_anthropic] and [analyze_with_openai] *)
Definition analyze_with (w : World) (provider : Provider) (api_key prompt : str) :
    IO str :=
  if sdk_installed w provider then
    match remote_call w provider api_key prompt with
    | inr text => mret text
    | inl e =>
        raise (Exception
          (match provider with
           | anthropic => u "Error calling Anthropic API: "
           | openai => u "Error calling OpenAI API: "
           end ++ e))
    end
  else
    raise (ImportError
      match provider with
      | anthropic => u "anthropic package not installed. Install with: pip install anthropic"
      | openai => u "openai package not installed. Install with: pip install openai"
      end).

(** [open(output_file, 'w', encoding='utf-8')] for the file of the
    recommendations, which may raise. *)
Definition open_to_save (w : World) (output_file : str)
    (body : (str → IO unit) → IO unit) : IO unit :=
  match save_error w with
  | Some e => raise (OSError e)
  | None => with_open output_file body
  end.

(** The text of an exception, [f"{e}"]. *)
Definition exn_text (e : exn) : str :=
  match e with
  | ImportError msg | ValueError msg | OSError msg | Exception msg => msg
  | KeyError key => u "'" ++ key ++ u "'"
  | EOFError => []
  end.

(** [AIAnalyzer.analyze]; [output_file] is [None] or a path. *)
Definition analyze (w : World) (self : Provider * str) (analysis_dir : str)
    (output_file : option str) : IO str :=
  let '(provider, api_key) := self in
  print (nl ++ [240; 376; 164; 8211]%N ++ u " Analyzing package usage with "
         ++ provider_upper provider ++ u " AI...") ;;
  analysis_data ← read_analysis_files w analysis_dir;
  if negb (truthy (analysis_data !! u "frequency")) then
    raise (ValueError (u "Could not read frequency analysis file"))
  else
    let prompt := generate_prompt analysis_data in
    recommendations ← analyze_with w provider api_key prompt;
    match output_file with
    | Some output_file =>
        try_except
          (open_to_save w output_file (λ write,
             write (u "# AI-Generated Environment Recommendations" ++ nl ++ nl) ;;
             write (u "Generated using: " ++ provider_upper provider ++ nl ++ nl) ;;
             write (replicate 80 61%N ++ nl ++ nl) ;;
             write recommendations) ;;
           print (nl ++ [226; 339; 8220]%N ++ u " AI recommendations saved to: "
                  ++ output_file))
          (λ e, print (u "Warning: Could not save recommendations to file: "
                       ++ exn_text e))
    | None => mret ()
    end ;;
    mret recommendations.

(** ** [main] *)

Definition warning_sign : str := [9888; 65039]%N.

(** [input(prompt)]: [EOFError] at the end of the input. *)
Definition input (w : World) (prompt : str) : IO str :=
  emit (EvInput prompt) ;;
  match stdin w with
  | Some line => mret line
  | None => raise EOFError
  end.

(** [repo_base = Path(args.repo_base).expanduser().resolve()] and
    [output_dir = Path(args.output_dir).expanduser().resolve()] *)
Definition resolved_repo_base (w : World) : str :=
  resolve w (default [] (repo_base w)).
Definition resolved_output_dir (w : World) : str := resolve w (output_dir w).

(** The four output paths of a run, in the order in which [main] writes
    them. *)
Definition unique_path (w : World) : str :=
  path_join (resolved_output_dir w) (unique_output w).
Definition frequency_path (w : World) : str :=
  path_join (resolved_output_dir w) (frequency_output w).
Definition unique_with_versions_path (w : World) : str :=
  path_join (resolved_output_dir w) (u "unique_packages_with_versions.txt").
Definition frequency_with_versions_path (w : World) : str :=
  path_join (resolved_output_dir w) (u "packages_by_frequency_with_versions.txt").

(** [output_dir.mkdir(parents=True, exist_ok=True)] *)
Definition mkdir (w : World) (dir : str) : IO unit :=
  match mkdir_error w with
  | Some e => raise (OSError e)
  | None => emit (EvMkdir dir)
  end.

(** [RequirementsScanner.__init__]: the base path of the scanner. *)
Definition scanner_base_path (w : World) (base_path : str) : str :=
  resolve w base_path.

(** The scan and the four reports: [main] from "Found ... file(s)" to the
    list of the saved reports. *)
Definition write_reports (w : World) (requirements_files : list ManifestFile) :
    IO unit :=
  print (u "Found " ++ str_of_nat (length requirements_files)
         ++ u " requirements.txt file(s)") ;;
  print (nl ++ u "Extracting packages (normalized)...") ;;
  packages ← extract_packages requirements_files;
  print (u "Extracted " ++ str_of_nat (size packages) ++ u " unique package(s)") ;;
  print (nl ++ u "Extracting packages with versions...") ;;
  package_versions ← extract_packages_with_versions requirements_files;
  print (u "Extracted " ++ str_of_nat (size package_versions)
         ++ u " unique package+version combination(s)") ;;
  print (nl ++ u "Generating reports...") ;;
  generate_unique_packages_report packages (unique_path w) ;;
  generate_frequency_report packages requirements_files (frequency_path w) ;;
  generate_unique_packages_with_versions_report package_versions
    (unique_with_versions_path w) ;;
  generate_frequency_with_versions_report package_versions requirements_files
    (frequency_with_versions_path w) ;;
  print (nl ++ check_mark ++ u " Scan complete!") ;;
  print (nl ++ u "Reports saved to: " ++ resolved_output_dir w) ;;
  print (u "  Normalized (package names only):") ;;
  print (u "    - " ++ path_name (unique_path w)) ;;
  print (u "    - " ++ path_name (frequency_path w)) ;;
  print (u "  Version-aware (package+version):") ;;
  print (u "    - " ++ path_name (unique_with_versions_path w)) ;;
  print (u "    - " ++ path_name (frequency_with_versions_path w)).

(** Whether the summarization step runs: [--skip-ai], [--ai-analysis], or
    the answer to the prompt when the key is in the environment.  (No
    character outside ASCII lowers to [y], [e] or [s], so [lower] decides
    the answer as [str.lower] does.) *)
Definition decide_ai_analysis (w : World) : IO bool :=
  if skip_ai w then
    print (nl ++ warning_sign ++ u "  AI analysis skipped (not recommended)") ;;
    mret false
  else if ai_analysis w then mret true
  else
    print (nl ++ replicate 80 61%N) ;;
    print ([129302%N] ++ u " AI-POWERED ENVIRONMENT RECOMMENDATIONS") ;;
    print (replicate 80 61%N) ;;
    print (nl ++ u "Would you like AI to analyze your package usage and suggest") ;;
    print (u "optimal reusable environments? (Recommended)") ;;
    print (nl ++ u "This will use " ++ provider_upper (ai_provider w)
           ++ u " to generate intelligent recommendations") ;;
    print (u "based on your package frequency patterns.") ;;
    let api_key_var := provider_upper (ai_provider w) ++ u "_API_KEY" in
    if truthy (environ w !! api_key_var) then
      print (nl ++ check_mark ++ u " " ++ api_key_var ++ u " detected") ;;
      response ← input w (nl ++ u "Run AI analysis? [Y/n]: ");
      let response := lower (strip response) in
      mret (bool_decide (response ∈ [u ""; u "y"; u "yes"]))
    else
      print (nl ++ warning_sign ++ u "  " ++ api_key_var
             ++ u " not found in environment") ;;
      print (u "Set " ++ api_key_var
             ++ u " to enable AI analysis, or use --skip-ai to suppress this prompt") ;;
      mret false.

(** The body of the [try] of the summarization step. *)
Definition ai_step (w : World) : IO unit :=
  match analyzer_import_error w with
  | Some e => raise (ImportError e)
  | None =>
      analyzer ← AIAnalyzer_init w (ai_provider w);
      let ai_output :=
        path_join (resolved_output_dir w) (u "ai_recommendations.txt") in
      recommendations ← analyze w analyzer (resolved_output_dir w) (Some ai_output);
      print (nl ++ replicate 80 61%N) ;;
      print (u "AI RECOMMENDATIONS") ;;
      print (replicate 80 61%N ++ nl) ;;
      print recommendations ;;
      print (nl ++ replicate 80 61%N)
  end.

(** [except ImportError as e: ...  except Exception as e: ...] *)
Definition ai_handler (e : exn) : IO unit :=
  match e with
  | ImportError _ =>
      print (nl ++ warning_sign ++ u "  Could not import AI analyzer: " ++ exn_text e) ;;
      print (u "Make sure you've installed the package with AI dependencies:") ;;
      print (u "  uv pip install -e .")
  | _ =>
      print (nl ++ warning_sign ++ u "  AI analysis failed: " ++ exn_text e) ;;
      print (u "Continuing with basic reports only...")
  end.

Definition main (w : World) : IO Z :=
  if negb (truthy (repo_base w)) then
    print (u "Error: No repository base path provided.") ;;
    print (u "Either provide a path as an argument or set REPO_BASE in .env file.") ;;
    mret 1%Z
  else
    let repo_base := resolved_repo_base w in
    match base_path w with
    | None =>
        print (u "Error: Repository base path does not exist: " ++ repo_base) ;;
        mret 1%Z
    | Some None =>
        print (u "Error: Repository base path is not a directory: " ++ repo_base) ;;
        mret 1%Z
    | Some (Some tree) =>
        mkdir w (resolved_output_dir w) ;;
        print (u "Scanning repository base: " ++ repo_base) ;;
        print (nl ++ u "Searching for requirements.txt files...") ;;
        let requirements_files :=
          scan_requirements_files (scanner_base_path w repo_base) tree in
        if bool_decide (requirements_files = []) then
          print (u "No requirements.txt files found.") ;;
          mret 0%Z
        else
          write_reports w requirements_files ;;
          run_ai_analysis ← decide_ai_analysis w;
          (if run_ai_analysis : bool then try_except (ai_step w) ai_handler
           else mret ()) ;;
          mret 0%Z
    end.

(** A run: [exit(main())] from the files that were there before.  An
    exception that leaves [main] ends the process with status 1. *)
Definition run (w : World) : state * (exn + Z) := main w (State (files_before w) []).

Definition exit_code (r : state * (exn + Z)) : Z :=
  match r.2 with
  | inr code => code
  | inl _ => 1%Z
  end.

(** The calls of [f.write] on a path, in order. *)
Definition writes_to (target : str) (t : list event) : list str :=
  omap (λ ev, match ev with
              | EvWrite p chunk => if bool_decide (p = target) then Some chunk else None
              | _ => None
              end) t.

Definition prints (t : list event) : list str :=
  omap (λ ev, match ev with EvPrint text => Some text | _ => None end) t.

(** ** [load_env_file] and the arguments of [main] *)

(** [key, value = line.split('=', 1)] when [sep] is in the line: the text
    before the first [sep] and the text after it. *)
Fixpoint split_once (sep : char) (s : str) : option (str * str) :=
  match s with
  | [] => None
  | c :: s' =>
      if (c =? sep)%N then Some ([], s')
      else
        match split_once sep s' with
        | Some (key, value) => Some (c :: key, value)
        | None => None
        end
  end.

(** The body of the loop of [load_env_file]. *)
Definition add_env_line (env_vars : gmap str (list N)) (line : str) :
    gmap str (list N) :=
  let line := strip line in
  if bool_decide (line = []) || startswith line (u "#") then env_vars
  else
    match split_once 61 line with
    | Some (key, value) => <[strip key := strip value]> env_vars
    | None => env_vars
    end.

(** [load_env_file]; [env_file] is the .env file in the directory of the
    script, [None] when there is none: the lines that iterating over it
    yields and, when reading it fails (on [open] or after those lines),
    the text of the exception. *)
Definition load_env_file (env_file : option (list str * option str)) :
    IO (gmap str (list N)) :=
  match env_file with
  | None => mret ∅
  | Some (file_lines, err) =>
      let env_vars := foldl add_env_line ∅ file_lines in
      match err with
      | Some e => print (u "Warning: Could not load .env file: " ++ e)
      | None => mret ()
      end ;;
      mret env_vars
  end.

(** The world [w] with another value of the [repo_base] argument. *)
Definition with_repo_base (w : World) (base : option str) : World := {|
  repo_base := base;
  output_dir := output_dir w;
  unique_output := unique_output w;
  frequency_output := frequency_output w;
  ai_analysis := ai_analysis w;
  ai_provider := ai_provider w;
  skip_ai := skip_ai w;
  base_path := base_path w;
  environ := environ w;
  stdin := stdin w;
  analyzer_import_error := analyzer_import_error w;
  sdk_installed := sdk_installed w;
  remote_call := remote_call w;
  files_before := files_before w;
  resolve := resolve w;
  mkdir_error := mkdir_error w;
  save_error := save_error w;
  report_read_error := report_read_error w
|}.

(** [main] from its first line: the .env file is loaded, and [repo_base]
    is the positional argument or, without one, REPO_BASE of the .env
    file ([default=env_vars.get('REPO_BASE')]).  [w] holds the other
    arguments, as [argparse] returns them, and what the run finds around
    it. *)
Definition main_with_env_file (env_file : option (list str * option str))
    (argument : option str) (w : World) : IO Z :=
  env_vars ← load_env_file env_file;
  main (with_repo_base w
          match argument with
          | Some base => Some base
          | None => env_vars !! u "REPO_BASE"
          end).

(** * The vocabulary of the properties

    Predicates in the words of the specification, and the closed forms
    of what the loops and the report generators compute, which the
    lemmas below relate to the code. *)

(** The version clause in the words of the specification: the first run
    of [rest] that starts with one of [= < > !] and stops before the next
    whitespace or at the end; the empty string when [rest] has no such
    character. *)
Definition first_version_run (rest ver : str) : Prop :=
  (Forall (λ c, is_op c = false) rest ∧ ver = [])
  ∨ (∃ pre post,
        rest = pre ++ ver ++ post
        ∧ Forall (λ c, is_op c = false) pre
        ∧ (∃ c v, ver = c :: v ∧ is_op c = true)
        ∧ Forall (λ c, isspace c = false) ver
        ∧ match post with c :: _ => isspace c = true | [] => True end).

(** A spelling is a package name when the name pattern matches all of it. *)
Definition is_package_name (n : str) : Prop := re_match name_re n = Some (n, []).

(** The first character of a string that cannot be part of a name. *)
Fixpoint skip_name (s : str) : option char :=
  match s with
  | c :: s' => if is_namechar c then skip_name s' else Some c
  | [] => None
  end.

(** What may follow the name on a requirement line for the line to be
    read as it stands: no comment, no [:] or [+] right after the name
    (which could complete a skipped prefix), no trailing whitespace. *)
Definition requirement_tail (rest : str) : Prop :=
  (35%N ∉ rest)
  ∧ (match rest with
     | c :: _ => is_namechar c = false ∧ c ≠ 58%N ∧ c ≠ 43%N
     | [] => True
     end)
  ∧ (match last rest with Some c => isspace c = false | None => True end).

(** [normalize] on one character. *)
Definition norm_char (c : char) : char :=
  if (lower_char c =? 95)%N then 45%N else lower_char c.

(** Two characters that differ in case only, or are both separators
    among [_] and [-]. *)
Inductive spelling_variant : char → char → Prop :=
  | variant_same c : spelling_variant c c
  | variant_lower c : in_range 65 90 c = true → spelling_variant c (c + 32)%N
  | variant_upper c : in_range 65 90 c = true → spelling_variant (c + 32)%N c
  | variant_separator a b :
      a ∈ [95%N; 45%N] → b ∈ [95%N; 45%N] → spelling_variant a b.

(** The state after a list of events. *)
Definition apply_events (evs : list event) (st : state) : state :=
  foldl (λ st ev, apply_event ev st) st evs.

(** The program [m] performs the events [evs] and ends with [r], from
    any state. *)
Definition performs {A} (m : IO A) (evs : list event) (r : exn + A) : Prop :=
  ∀ st, m st = (apply_events evs st, r).

(** The warning that the loops print for a file that cannot be read. *)
Definition warning (req_file : ManifestFile) : option event :=
  (λ e, EvPrint (u "Warning: Could not read " ++ path req_file ++ u ": " ++ e))
    <$> read_error req_file.

(** The aggregate after the files: each file acts through the lines that
    could be read. *)
Definition aggregate {S} (read : S → list str → S)
    (requirements_files : list ManifestFile) (s : S) : S :=
  foldl (λ s req_file, read s (lines req_file)) s requirements_files.

(** The step of the two counting loops, for a line that declares the key
    [key_of line]: the key is counted unless the file has shown it. *)
Definition count_once (key_of : str → option str)
    (acc : gmap str nat * gset str) (line : str) : gmap str nat * gset str :=
  match key_of line with
  | Some k =>
      if bool_decide (k ∉ acc.2)
      then (<[k := default 0 (acc.1 !! k) + 1]> acc.1, {[k]} ∪ acc.2)
      else acc
  | None => acc
  end.

(** The full spec that a line declares, and the name that it declares. *)
Definition full_spec_of (line : str) : option str :=
  match parse_requirement line with
  | (Some ((_ :: _) as name), Some ver) =>
      Some (match ver with _ :: _ => name ++ ver | [] => name end)
  | _ => None
  end.

Definition name_of (line : str) : option str :=
  match parse_requirement line with
  | (Some ((_ :: _) as name), _) => Some name
  | _ => None
  end.

(** The number of files that declare a key. *)
Definition file_count (key_of : str → option str) (files : list ManifestFile)
    (k : str) : nat :=
  length (filter (λ f, k ∈ omap key_of (lines f)) files).

(** A version clause as it is written after a name: it starts with one
    of [= < > !] and has no whitespace and no comment. *)
Definition version_clause (v : str) : Prop :=
  (∃ c v', v = c :: v' ∧ is_op c = true)
  ∧ Forall (λ c, isspace c = false ∧ c ≠ 35%N) v.

(** Bracketed extras: no comment and none of [= < > !] inside. *)
Definition extras_text (e : str) : Prop :=
  Forall (λ c, is_op c = false ∧ c ≠ 35%N) e.

Section sorted_order.
Context {A K : Type} (ltb : K → K → bool) (key : A → K).

(** [x] may stand before [y]: the key of [y] is not smaller. *)
Definition key_le (x y : A) : Prop := ltb (key y) (key x) = false.

(** [x] stands before [y] whenever both are there: its key is smaller. *)
Definition key_lt (x y : A) : Prop := ltb (key x) (key y) = true.

End sorted_order.

(** [sorted(d.keys())] *)
Definition sorted_keys {V} (d : gmap str V) : list str :=
  sorted str_ltb id (map_to_list d).*1.

(** [sorted(d.items(), key=lambda x: (-x[1], x[0]))] *)
Definition sorted_by_frequency (d : gmap str nat) : list (str * nat) :=
  sorted tuple_ltb frequency_key (map_to_list d).

(** Descending count, then ascending key. *)
Definition frequency_before (x y : str * nat) : Prop :=
  y.2 < x.2 ∨ x.2 = y.2 ∧ str_ltb x.1 y.1 = true.

(** The events of a report that is written to the end: the file is
    opened, the chunks are written one by one, the file is closed, the
    confirmation is printed. *)
Definition report_events (output_file : str) (chunks : list str) (saved : str) :
    list event :=
  EvOpen output_file :: (EvWrite output_file <$> chunks)
  ++ [EvClose output_file; EvPrint saved].

(** The chunks that [generate_unique_packages_report] writes. *)
Definition unique_packages_chunks (packages : gmap str (list str)) : list str :=
  [u "# Unique Packages (Alphabetically Sorted)" ++ nl;
   u "# Total unique packages: " ++ str_of_nat (size packages) ++ nl ++ nl]
  ++ ((λ package, package ++ nl) <$> sorted_keys packages).

(** The chunks that [generate_unique_packages_with_versions_report]
    writes. *)
Definition unique_packages_with_versions_chunks (package_versions : gmap str nat) :
    list str :=
  [u "# Unique Packages with Versions (Alphabetically Sorted)" ++ nl;
   u "# Total unique package+version combinations: "
     ++ str_of_nat (size package_versions) ++ nl ++ nl]
  ++ ((λ package_spec, package_spec ++ nl) <$> sorted_keys package_versions).

(** A row and the chunks of [generate_frequency_with_versions_report]. *)
Definition frequency_with_versions_line (row : str * nat) : str :=
  ljust 60 row.1 ++ u " " ++ ljust 10 (str_of_nat row.2) ++ nl.

Definition frequency_with_versions_chunks (package_versions : gmap str nat)
    (number_of_files : nat) : list str :=
  [u "# Packages with Versions by Frequency" ++ nl;
   u "# Total requirements.txt files scanned: " ++ str_of_nat number_of_files ++ nl;
   u "# Total unique package+version combinations: "
     ++ str_of_nat (size package_versions) ++ nl ++ nl;
   ljust 60 (u "Package Specification") ++ u " " ++ ljust 10 (u "Count") ++ nl;
   replicate 60 45%N ++ u " " ++ replicate 10 45%N ++ nl]
  ++ (frequency_with_versions_line <$> sorted_by_frequency package_versions).

(** The versions column: the specs of the name in the order of the list,
    or "any". *)
Definition versions_column (versions : list str) : str :=
  match versions with [] => u "any" | _ => join (u ", ") versions end.

(** A row and the chunks of [generate_frequency_report], for the counts
    [package_counts] of its first loop. *)
Definition frequency_line (packages : gmap str (list str)) (row : str * nat) : str :=
  ljust 40 row.1 ++ u " " ++ ljust 10 (str_of_nat row.2) ++ u " "
  ++ versions_column (packages !!! row.1) ++ nl.

Definition frequency_chunks (packages : gmap str (list str))
    (package_counts : gmap str nat) (number_of_files : nat) : list str :=
  [u "# Packages by Frequency" ++ nl;
   u "# Total requirements.txt files scanned: " ++ str_of_nat number_of_files ++ nl;
   u "# Total unique packages: " ++ str_of_nat (size package_counts) ++ nl ++ nl;
   ljust 40 (u "Package") ++ u " " ++ ljust 10 (u "Count") ++ u " "
     ++ u "Versions Found" ++ nl;
   replicate 40 45%N ++ u " " ++ replicate 10 45%N ++ u " "
     ++ replicate 40 45%N ++ nl]
  ++ (frequency_line packages <$> sorted_by_frequency package_counts).

(** The declaration of a line: its name and its version_spec. *)
Definition decl_of (line : str) : option (str * str) :=
  match parse_requirement line with
  | (Some ((_ :: _) as name), Some ver) => Some (name, ver)
  | _ => None
  end.

(** All the lines that the scan reads, file after file. *)
Definition all_lines (files : list ManifestFile) : list str :=
  concat (lines <$> files).

(** One declaration added to the dictionary of [extract_packages]. *)
Definition add_decl (n v : str) (packages : gmap str (list str)) :
    gmap str (list str) :=
  let vs := default [] (packages !! n) in
  <[n := if bool_decide (v ≠ [] ∧ v ∉ vs) then vs ++ [v] else vs]> packages.

(** The dictionary of [extract_packages] after the declarations [decls]:
    its keys are the declared names, and the list of a name holds, once
    each, the non-empty version specs declared for it. *)
Definition packages_of (packages : gmap str (list str)) (decls : list (str * str)) :
    Prop :=
  ∀ k, match packages !! k with
       | Some vs => k ∈ decls.*1 ∧ NoDup vs
                    ∧ ∀ v, v ∈ vs ↔ v ≠ [] ∧ (k, v) ∈ decls
       | None => k ∉ decls.*1
       end.

(** The declarations of a scan, in the order of the lines. *)
Definition declarations (files : list ManifestFile) : list (str * str) :=
  omap decl_of (all_lines files).

(** The trace [t] writes the file at [p] through [n] calls of [write]:
    after what comes before, the file is opened, which empties it on the
    disk whatever it held; the [n] chunks are written one by one, the
    disk holding after each a prefix of what has been written; the file
    is closed, and from then on the disk holds the text of the chunks. *)
Definition written_in_chunks (p : str) (fs0 : gmap str (list N)) (t : list event)
    (n : nat) : Prop :=
  ∃ before chunks after,
    t = before ++ [EvOpen p] ++ (EvWrite p <$> chunks) ++ [EvClose p] ++ after
    ∧ length chunks = n
    ∧ writes_to p t = chunks
    ∧ fs (apply_events (before ++ [EvOpen p]) (State fs0 [])) !! p = Some []
    ∧ (∀ k, k ≤ n →
         ∃ text,
           fs (apply_events (before ++ [EvOpen p] ++ (EvWrite p <$> take k chunks))
                 (State fs0 [])) !! p = Some text
           ∧ text `prefix_of` concat (take k chunks))
    ∧ fs (apply_events t (State fs0 [])) !! p = Some (concat chunks).

(** What [read_analysis_files] returns from the files [files] when the
    reports that are there can be read. *)
Definition reports_read (analysis_dir : str) (files : gmap str (list N)) :
    gmap str (list N) :=
  let read filename :=
    universal_newlines (default [] (files !! path_join analysis_dir filename)) in
  list_to_map
    [(u "unique_packages", read (u "unique_packages.txt"));
     (u "frequency", read (u "packages_by_frequency.txt"));
     (u "unique_with_versions", read (u "unique_packages_with_versions.txt"));
     (u "frequency_with_versions",
      read (u "packages_by_frequency_with_versions.txt"))].


(** The manifests that a run finds below its base directory [tree]. *)
Definition scanned_files (w : World) (tree : dirtree) : list ManifestFile :=
  scan_requirements_files (scanner_base_path w (resolved_repo_base w)) tree.




(** Whether a file named requirements.txt lies anywhere in a tree. *)
Fixpoint contains_manifest (tree : dirtree) : bool :=
  match tree with
  | Dir files dirs =>
      existsb (λ f, bool_decide (f.1 = u "requirements.txt")) files
      || (fix any_dir (dirs : list (str * dirtree)) : bool :=
            match dirs with
            | [] => false
            | (_, sub) :: dirs' => contains_manifest sub || any_dir dirs'
            end) dirs
  end.

(** Paths in the examples are resolved from the directory /home/user. *)
Definition example_resolve (p : str) : str := path_join (u "/home/user") p.

(** A world for the examples: the default arguments with
    [--ai-analysis], a base directory [tree], the environment [env], and
    a provider that cannot be reached. *)
Definition example_world (tree : dirtree) (env : gmap str (list N)) : World := {|
  repo_base := Some (u "/repos");
  output_dir := u "./analysis";
  unique_output := u "unique_packages.txt";
  frequency_output := u "packages_by_frequency.txt";
  ai_analysis := true;
  ai_provider := anthropic;
  skip_ai := false;
  base_path := Some (Some tree);
  environ := env;
  stdin := None;
  analyzer_import_error := None;
  sdk_installed := λ _, true;
  remote_call := λ _ _ _, inl (u "connection refused");
  files_before := ∅;
  resolve := example_resolve;
  mkdir_error := None;
  save_error := None;
  report_read_error := λ _, None
|}.

(** A run with one manifest and no key in the environment: the step is
    asked for with [--ai-analysis] and fails for the missing credential. *)
Definition example_tree : dirtree :=
  Dir [] [(u "proj1", Dir [(u "requirements.txt",
                            ([u "Flask==2.0" ++ nl; u "requests" ++ nl], None))] [])].

(** A manifest that the walk can reach: a file named requirements.txt
    in the directory itself, or one reachable in a sub-directory whose
    name is not skipped; its path is built from the names on the way. *)
Inductive reachable : str → dirtree → ManifestFile → Prop :=
  | reachable_here root files dirs file_lines err :
      (u "requirements.txt", (file_lines, err)) ∈ files →
      reachable root (Dir files dirs)
        (Manifest (path_join root (u "requirements.txt")) file_lines err)
  | reachable_below root files dirs d sub f :
      (d, sub) ∈ dirs → d ∉ skipped_dirs →
      reachable (walk_join root d) sub f →
      reachable root (Dir files dirs) f.

(** What the walk collects below the sub-directories [dirs] of [root]. *)
Definition scan_dirs (root : str) (dirs : list (str * dirtree)) : list ManifestFile :=
  concat ((λ d, if bool_decide (d.1 ∈ skipped_dirs) then []
                else scan_requirements_files (walk_join root d.1) d.2) <$> dirs).

(** The header of the file of recommendations. *)
Definition recommendations_header (provider : Provider) : str :=
  u "# AI-Generated Environment Recommendations" ++ nl ++ nl
  ++ u "Generated using: " ++ provider_upper provider ++ nl ++ nl
  ++ replicate 80 61%N ++ nl ++ nl.

(** What a run prints when the summarization step starts. *)
Definition analyzing_message (provider : Provider) : str :=
  nl ++ [240; 376; 164; 8211]%N ++ u " Analyzing package usage with "
  ++ provider_upper provider ++ u " AI...".

(** A world for the examples of the summarization step: the arguments
    [--ai-analysis --frequency-output frequency_name], the key of the
    default provider in the environment, and a provider whose call ends
    as [reply] says. *)
Definition example_world_with (frequency_name : str) (reply : str + str)
    (tree : dirtree) : World := {|
  repo_base := Some (u "/repos");
  output_dir := u "./analysis";
  unique_output := u "unique_packages.txt";
  frequency_output := frequency_name;
  ai_analysis := true;
  ai_provider := anthropic;
  skip_ai := false;
  base_path := Some (Some tree);
  environ := {[u "ANTHROPIC_API_KEY" := u "sk-test"]};
  stdin := None;
  analyzer_import_error := None;
  sdk_installed := λ _, true;
  remote_call := λ _ _ _, reply;
  files_before := ∅;
  resolve := example_resolve;
  mkdir_error := None;
  save_error := None;
  report_read_error := λ _, None
|}.

(** The assignment that a line of the .env file makes, if it makes one:
    the key and the value as they are stored. *)
Definition env_assignment (line : str) : option (str * str) :=
  let line := strip line in
  if bool_decide (line = []) || startswith line (u "#") then None
  else (λ kv, (strip kv.1, strip kv.2)) <$> split_once 61 line.

(** The value that the lines of a .env file give a key: that of the
    last line that assigns it. *)
Definition env_value (file_lines : list str) (key : str) : option str :=
  snd <$> last (filter (λ kv, kv.1 = key) (omap env_assignment file_lines)).

(** A list without its repetitions, every element at its first place. *)
Definition first_seen (l : list str) : list str :=
  reverse (remove_dups (reverse l)).

(** The non-empty version specs that the declarations give a name, in
    the order of the declarations. *)
Definition specs_declared (decls : list (str * str)) (name : str) : list str :=
  filter (λ v, v ≠ []) (snd <$> filter (λ d, d.1 = name) decls).

(** The name at the start of a full spec: its name characters up to the
    first character that is not one. *)
Fixpoint name_part (spec : str) : str :=
  match spec with
  | c :: spec' => if is_namechar c then c :: name_part spec' else []
  | [] => []
  end.

(** * Properties *)

(** ** Character classes *)

Ltac classes :=
  unfold is_alnum, is_namechar, is_op, is_dot, isspace, lower_char, in_range in *.

Ltac class_solve :=
  classes;
  repeat match goal with
         | H : context [if ?b then _ else _] |- _ => destruct b eqn:?
         | |- context [if ?b then _ else _] => destruct b eqn:?
         end;
  rewrite ?orb_true_iff, ?orb_false_iff, ?andb_true_iff, ?andb_false_iff,
    ?negb_true_iff, ?negb_false_iff,
    ?N.leb_le, ?N.leb_gt, ?N.eqb_eq, ?N.eqb_neq in *;
  try lia.

Lemma alnum_namechar c : is_alnum c = true → is_namechar c = true.
Proof. classes. intros ->. done. Qed.

Lemma op_not_space c : is_op c = true → isspace c = false.
Proof.
  classes. rewrite !orb_true_iff, !orb_false_iff, !andb_false_iff, !N.eqb_eq,
    !N.leb_gt, !N.eqb_neq. lia.
Qed.

Lemma not_space_dot c : isspace c = false → is_dot c = true.
Proof.
  classes. rewrite !orb_false_iff, !andb_false_iff, negb_true_iff, !N.leb_gt,
    !N.eqb_neq. lia.
Qed.

Lemma alnum_not_space c : is_alnum c = true → isspace c = false.
Proof.
  classes. rewrite !orb_true_iff, !orb_false_iff, !andb_true_iff,
    !andb_false_iff, !N.eqb_neq, !N.leb_le, !N.leb_gt. lia.
Qed.

Lemma namechar_not_op c : is_namechar c = true → is_op c = false.
Proof.
  classes. rewrite !orb_true_iff, !orb_false_iff, !andb_true_iff, !N.eqb_eq,
    !N.eqb_neq, !N.leb_le. lia.
Qed.

(** ** The matcher on the two patterns *)

Lemma exec_Eos {A} (s : str) (k : str → str → option A) :
  exec Eos s k =
    if bool_decide (s = []) then k [] []
    else if bool_decide (s = [10%N]) then k [] s else None.
Proof.
  destruct s as [|c [|c' s']]; simpl; [done| |].
  - repeat (case_match; try done).
  - repeat (case_match; try done).
Qed.

Lemma star_name_tail {A} (f : str → str → A) (s : str) :
  star_greedy is_namechar s
    (λ m1 s1, match s1 with
              | c' :: s2 => if is_alnum c' then Some (f (m1 ++ [c']) s2) else None
              | [] => None
              end)
  = (λ mr, f mr.1 mr.2) <$> name_tail s.
Proof.
  revert f. induction s as [|c s IH]; intros f; simpl; [done|].
  destruct (is_namechar c) eqn:Hc.
  - rewrite (IH (λ m r, f (c :: m) r)).
    destruct (name_tail s) as [[m r]|]; simpl; [done|].
    by destruct (is_alnum c).
  - destruct (is_alnum c) eqn:Ha; [|done].
    apply alnum_namechar in Ha. congruence.
Qed.

Lemma re_match_name_re (s : str) : re_match name_re s = match_name s.
Proof.
  unfold re_match, name_re, match_name. simpl.
  destruct s as [|c s]; [done|].
  destruct (is_alnum c); [|done].
  rewrite (star_name_tail (λ m r, (c :: m, r))).
  by destruct (name_tail s) as [[m r]|].
Qed.

Lemma version_tail_at {A} (a : A) (s : str) :
  exec version_tail_re s (λ _ _, Some a) =
    match s with
    | c :: _ => if isspace c then Some a else None
    | [] => Some a
    end.
Proof.
  unfold version_tail_re.
  change (exec (Alt (Class isspace) Eos) s (λ _ _, Some a))
    with (match exec (Class isspace) s (λ _ _, Some a) with
          | Some x => Some x
          | None => exec Eos s (λ _ _, Some a)
          end).
  rewrite exec_Eos. destruct s as [|c s]; simpl; [done|].
  destruct (isspace c) eqn:Hc; [done|].
  case_bool_decide as Hs; [|done].
  injection Hs as -> ->. done.
Qed.

Lemma star_lazy_version {A} (g : str → A) (s : str) :
  star_lazy is_dot s (λ m2 s2, exec version_tail_re s2 (λ _ _, Some (g m2)))
  = Some (g (take_nonspace s)).
Proof.
  revert g. induction s as [|c s IH]; intros g.
  - cbn [star_lazy take_nonspace]. by rewrite version_tail_at.
  - cbn [star_lazy take_nonspace]. rewrite version_tail_at.
    destruct (isspace c) eqn:Hc; [done|].
    rewrite (not_space_dot _ Hc). apply (IH (λ m, g (c :: m))).
Qed.

Lemma star_greedy_version {A} (g : str → A) (s : str) :
  star_greedy is_op s
    (λ m1 s1, star_lazy is_dot s1
       (λ m2 s2, exec version_tail_re s2 (λ _ _, Some (g (m1 ++ m2)))))
  = Some (g (take_nonspace s)).
Proof.
  revert g. induction s as [|c s IH]; intros g.
  - cbn [star_greedy]. apply (star_lazy_version (λ m, g m)).
  - cbn [star_greedy]. destruct (is_op c) eqn:Hc.
    + pose proof (IH (λ m, g (c :: m))) as IH'. cbv beta in IH'.
      cbn [app take_nonspace]. by rewrite IH', (op_not_space _ Hc).
    + apply (star_lazy_version (λ m, g m)).
Qed.

Lemma exec_version_group (s : str) :
  exec version_group_re s (λ m1 s1, exec version_tail_re s1 (λ _ _, Some m1))
  = match s with
    | c :: s' => if is_op c then Some (c :: take_nonspace s') else None
    | [] => None
    end.
Proof.
  unfold version_group_re. destruct s as [|c s]; [done|].
  cbn [exec]. destruct (is_op c); [|done].
  apply (star_greedy_version (λ m, c :: m)).
Qed.

Lemma re_search_version_re (s : str) :
  re_search_group1 version_group_re version_tail_re s = find_version s.
Proof.
  induction s as [|c s IH]; cbn [re_search_group1 find_version];
    rewrite exec_version_group; [done|].
  by destruct (is_op c).
Qed.

(** ** Facts on strings *)

Lemma lstrip_id (s : str) :
  match s with c :: _ => isspace c = false | [] => True end → lstrip s = s.
Proof. destruct s as [|c s]; simpl; [done|]. by intros ->. Qed.

Lemma strip_id (s : str) : Forall (λ c, isspace c = false) s → strip s = s.
Proof.
  intros Hs. unfold strip, rstrip.
  rewrite (lstrip_id s) by (by destruct Hs).
  rewrite lstrip_id; [apply reverse_involutive|].
  apply Forall_reverse in Hs. by destruct Hs.
Qed.

Lemma take_nonspace_nonspace (s : str) :
  Forall (λ c, isspace c = false) (take_nonspace s).
Proof.
  induction s as [|c s IH]; simpl; [constructor|].
  destruct (isspace c) eqn:Hc; by constructor.
Qed.

Lemma take_nonspace_split (s : str) :
  ∃ post, s = take_nonspace s ++ post ∧
          match post with c :: _ => isspace c = true | [] => True end.
Proof.
  induction s as [|c s (post & IH & Hpost)]; simpl; [by exists []|].
  destruct (isspace c) eqn:Hc.
  - by exists (c :: s).
  - exists post. simpl. by rewrite <-IH.
Qed.

Lemma take_nonspace_app (v post : str) :
  Forall (λ c, isspace c = false) v →
  match post with c :: _ => isspace c = true | [] => True end →
  take_nonspace (v ++ post) = v.
Proof.
  induction 1 as [|c v Hc _ IH]; intros Hpost; simpl.
  - destruct post as [|c post]; simpl; [done|]. by rewrite Hpost.
  - rewrite Hc. f_equal. by apply IH.
Qed.

Lemma find_version_None (s : str) :
  find_version s = None ↔ Forall (λ c, is_op c = false) s.
Proof.
  induction s as [|c s IH]; simpl; [by split; [constructor|]|].
  destruct (is_op c) eqn:Hc.
  - split; [done|]. inv 1. congruence.
  - rewrite IH. split; [by constructor|by inv 1].
Qed.

Lemma find_version_app (pre s : str) :
  Forall (λ c, is_op c = false) pre → find_version (pre ++ s) = find_version s.
Proof. induction 1 as [|c pre Hc _ IH]; simpl; [done|]. by rewrite Hc. Qed.

Lemma find_version_Some (s v : str) :
  find_version s = Some v →
  ∃ pre c s', s = pre ++ c :: s' ∧ Forall (λ c, is_op c = false) pre ∧
              is_op c = true ∧ v = c :: take_nonspace s'.
Proof.
  induction s as [|c s IH]; simpl; [done|].
  destruct (is_op c) eqn:Hc.
  - intros [= <-]. by exists [], c, s.
  - intros (pre & c' & s' & -> & Hpre & Hc' & ->)%IH.
    exists (c :: pre), c', s'. split_and!; [done|by constructor|done..].
Qed.

Lemma first_version_run_find (rest ver : str) :
  first_version_run rest ver ↔ ver = default [] (find_version rest).
Proof.
  split.
  - intros [[Hrest ->]|(pre & post & -> & Hpre & (c & v & -> & Hc) & Hver & Hpost)].
    + apply find_version_None in Hrest. by rewrite Hrest.
    + rewrite find_version_app by done. simpl. rewrite Hc. simpl.
      f_equal. symmetry. apply take_nonspace_app; [by inv Hver|done].
  - intros ->. destruct (find_version rest) as [v|] eqn:Hv; simpl.
    + right. apply find_version_Some in Hv as (pre & c & s' & -> & Hpre & Hc & ->).
      destruct (take_nonspace_split s') as (post & Hs' & Hpost).
      exists pre, post. split_and!; [|done|by eauto| |done].
      * simpl. by rewrite <-Hs'.
      * constructor; [by apply op_not_space|apply take_nonspace_nonspace].
    + left. by apply find_version_None in Hv.
Qed.

Lemma find_version_nonspace (s : str) :
  Forall (λ c, isspace c = false) (default [] (find_version s)).
Proof.
  destruct (find_version s) as [v|] eqn:Hv; simpl; [|constructor].
  apply find_version_Some in Hv as (pre & c & s' & -> & Hpre & Hc & ->).
  constructor; [by apply op_not_space|apply take_nonspace_nonspace].
Qed.

(** ** [parse_requirement] through the direct readings *)

Lemma parse_requirement_eq (line : str) :
  parse_requirement line =
    let line := strip (split_head 35 line) in
    if bool_decide (line = []) then (None, None)
    else if existsb (startswith line) skipped_prefixes then (None, None)
    else
      match match_name line with
      | None => (None, None)
      | Some (m, rest) =>
          (Some (normalize m), Some (default [] (find_version rest)))
      end.
Proof.
  unfold parse_requirement. cbv zeta.
  rewrite re_match_name_re.
  destruct (bool_decide _); [done|]. destruct (existsb _ _); [done|].
  destruct (match_name _) as [[m rest]|]; [|done].
  rewrite re_search_version_re. do 2 f_equal.
  pose proof (find_version_nonspace rest) as Hv.
  destruct (find_version rest) as [v|]; simpl in *; [by apply strip_id|done].
Qed.

(** [parse_requirement] returns a name and a version_spec, or neither. *)
Lemma parse_requirement_cases (line : str) :
  parse_requirement line = (None, None)
  ∨ ∃ name ver, parse_requirement line = (Some name, Some ver).
Proof.
  rewrite parse_requirement_eq. cbv zeta.
  destruct (bool_decide _); [by left|]. destruct (existsb _ _); [by left|].
  destruct (match_name _) as [[m rest]|]; [|by left].
  right. by eexists _, _.
Qed.

(** ** The matched name *)

Lemma name_tail_Some (s m r : str) :
  name_tail s = Some (m, r) →
  s = m ++ r ∧ Forall (λ c, is_namechar c = true) m
  ∧ ∃ c, last m = Some c ∧ is_alnum c = true.
Proof.
  revert m r. induction s as [|c s IH]; intros m r; simpl; [done|].
  destruct (is_namechar c) eqn:Hc; [|done].
  destruct (name_tail s) as [[m' r']|].
  - intros [= <- <-]. destruct (IH m' r' eq_refl) as (-> & Hm & c' & Hl & Hc').
    split_and!; [done|by constructor|].
    exists c'. split; [|done]. destruct m'; [done|]. by rewrite last_cons, Hl.
  - destruct (is_alnum c) eqn:Ha; [|done]. intros [= <- <-].
    split_and!; [done|by repeat constructor|by exists c].
Qed.

Lemma match_name_Some (s m r : str) :
  match_name s = Some (m, r) →
  s = m ++ r ∧ Forall (λ c, is_namechar c = true) m
  ∧ (∃ c, head m = Some c ∧ is_alnum c = true)
  ∧ (∃ c, last m = Some c ∧ is_alnum c = true).
Proof.
  destruct s as [|c s]; simpl; [done|].
  destruct (is_alnum c) eqn:Hc; [|done].
  destruct (name_tail s) as [[m' r']|] eqn:Ht.
  - intros [= <- <-].
    apply name_tail_Some in Ht as (-> & Hm & c' & Hl & Hc').
    split_and!; [done|constructor; [by apply alnum_namechar|done]|by exists c|].
    exists c'. split; [|done]. destruct m'; [done|]. by rewrite last_cons, Hl.
  - intros [= <- <-].
    split_and!; [done|repeat constructor; by apply alnum_namechar
                |by exists c|by exists c].
Qed.

(** The text matched by the name pattern is ASCII: [lower] on it is
    Python's [str.lower]. *)
Lemma match_name_ascii (s m r : str) :
  match_name s = Some (m, r) → Forall (λ c, (c < 128)%N) m.
Proof.
  intros (_ & Hm & _)%match_name_Some. eapply Forall_impl; [done|].
  intros c. class_solve.
Qed.

Lemma name_tail_None_head (rest : str) :
  match rest with c :: _ => is_namechar c = false | [] => True end →
  name_tail rest = None.
Proof. destruct rest as [|c rest]; simpl; [done|]. by intros ->. Qed.

Lemma name_tail_app (s rest : str) :
  name_tail s = Some (s, []) →
  match rest with c :: _ => is_namechar c = false | [] => True end →
  name_tail (s ++ rest) = Some (s, rest).
Proof.
  intros Hs Hrest. induction s as [|c s IH]; simpl in *; [done|].
  destruct (is_namechar c); [|done].
  destruct (name_tail s) as [[m r]|] eqn:Ht.
  - injection Hs as <- ->. by rewrite IH.
  - destruct (is_alnum c); [|done]. injection Hs as <-. simpl.
    by rewrite name_tail_None_head.
Qed.

Lemma match_name_app (n rest : str) :
  is_package_name n →
  match rest with c :: _ => is_namechar c = false | [] => True end →
  match_name (n ++ rest) = Some (n, rest).
Proof.
  unfold is_package_name. rewrite re_match_name_re.
  intros Hn Hrest. destruct n as [|c n]; simpl in *; [done|].
  destruct (is_alnum c); [|done].
  destruct (name_tail n) as [[m r]|] eqn:Ht.
  - simplify_eq. by rewrite (name_tail_app n rest).
  - simplify_eq. simpl. by rewrite name_tail_None_head.
Qed.

Lemma strip_ends (s : str) :
  match s with c :: _ => isspace c = false | [] => True end →
  match last s with Some c => isspace c = false | None => True end →
  strip s = s.
Proof.
  intros Hh Hl. unfold strip, rstrip. rewrite (lstrip_id s) by done.
  rewrite lstrip_id; [apply reverse_involutive|].
  destruct (reverse s) as [|c s'] eqn:Hr; [done|].
  apply (f_equal reverse) in Hr. rewrite reverse_involutive, reverse_cons in Hr.
  subst s. by rewrite last_snoc in Hl.
Qed.

Lemma split_head_id (sep : char) (s : str) : sep ∉ s → split_head sep s = s.
Proof.
  induction s as [|c s IH]; simpl; [done|].
  intros Hs. apply not_elem_of_cons in Hs as [Hc Hs].
  destruct (N.eqb_spec c sep); [congruence|]. by rewrite IH.
Qed.

Lemma skip_name_app (n rest : str) :
  Forall (λ c, is_namechar c = true) n → skip_name (n ++ rest) = skip_name rest.
Proof. induction 1 as [|c n Hc _ IH]; simpl; [done|]. by rewrite Hc. Qed.

Lemma skip_name_prefix (p s : str) (x : char) :
  skip_name p = Some x → p `prefix_of` s → skip_name s = Some x.
Proof.
  intros Hp [k ->]. induction p as [|c p IH]; simpl in *; [done|].
  destruct (is_namechar c); [by apply IH|done].
Qed.

Lemma not_skipped (n rest : str) :
  is_package_name n → requirement_tail rest →
  existsb (startswith (n ++ rest)) skipped_prefixes = false.
Proof.
  intros Hn (_ & Hrest & _).
  pose proof Hn as Hm. unfold is_package_name in Hm.
  rewrite re_match_name_re in Hm.
  apply match_name_Some in Hm as (_ & Hchars & (c0 & Hhd & Hc0) & _).
  assert (skip_name (n ++ rest) = head rest ∨ skip_name (n ++ rest) = None) as Hskip.
  { rewrite skip_name_app by done. destruct rest as [|c rest]; simpl; [by left|].
    destruct Hrest as (-> & _). by left. }
  assert (∀ p x, skip_name p = Some x → x = 58%N ∨ x = 43%N →
                 startswith (n ++ rest) p = false) as Hno.
  { intros p x Hp Hx. unfold startswith. apply bool_decide_eq_false. intros Hpre.
    rewrite (skip_name_prefix _ _ _ Hp Hpre) in Hskip.
    destruct Hskip as [Hskip|]; [|done].
    destruct rest as [|c rest]; simplify_eq/=.
    destruct Hrest as (_ & ? & ?). by destruct Hx. }
  unfold skipped_prefixes. cbn [existsb].
  rewrite (Hno (u "http://") 58%N), (Hno (u "https://") 58%N),
    (Hno (u "git+") 43%N) by (by auto). cbn [orb].
  rewrite orb_false_r. unfold startswith. apply bool_decide_eq_false.
  intros [k Hk]. destruct n as [|c n]; simplify_eq/=.
Qed.

Lemma parse_requirement_name_tail (n rest : str) :
  is_package_name n → requirement_tail rest →
  parse_requirement (n ++ rest)
  = (Some (normalize n), Some (default [] (find_version rest))).
Proof.
  intros Hn Hrest. rewrite parse_requirement_eq. cbv zeta.
  pose proof Hn as Hm. unfold is_package_name in Hm.
  rewrite re_match_name_re in Hm.
  apply match_name_Some in Hm as (_ & Hchars & (c0 & Hhd & Hc0) & (c1 & Hl & Hc1)).
  destruct Hrest as (Hhash & Hrest & Hlast).
  assert (strip (split_head 35 (n ++ rest)) = n ++ rest) as ->.
  { rewrite split_head_id.
    - apply strip_ends.
      + destruct n as [|c n]; simplify_eq/=. by apply alnum_not_space.
      + destruct rest as [|c rest _] using rev_ind.
        * rewrite app_nil_r, Hl. by apply alnum_not_space.
        * rewrite app_assoc, last_snoc. by rewrite last_snoc in Hlast.
    - rewrite elem_of_app. intros [Hin|Hin]; [|done].
      rewrite Forall_forall in Hchars. by apply Hchars in Hin. }
  rewrite bool_decide_eq_false_2 by (by destruct n).
  rewrite (not_skipped n rest) by done.
  rewrite match_name_app; [done..|].
  destruct rest as [|c rest]; [done|]. by destruct Hrest.
Qed.

(** ** Normalization *)

Lemma normalize_fmap (s : str) : normalize s = norm_char <$> s.
Proof. unfold normalize, replace, lower. by rewrite <-list_fmap_compose. Qed.

Lemma norm_char_idem c : norm_char (norm_char c) = norm_char c.
Proof. unfold norm_char. class_solve. Qed.

Lemma norm_char_not_upper c : in_range 65 90 (norm_char c) = false.
Proof. unfold norm_char. class_solve. Qed.

Lemma norm_char_not_underscore c : norm_char c ≠ 95%N.
Proof. unfold norm_char. class_solve. Qed.

Lemma norm_char_alnum c : is_alnum c = true → is_alnum (norm_char c) = true.
Proof. unfold norm_char. class_solve. Qed.

Lemma norm_char_namechar c : is_namechar c = true → is_namechar (norm_char c) = true.
Proof. unfold norm_char. class_solve. Qed.

Lemma normalize_idem (x : str) : normalize (normalize x) = normalize x.
Proof.
  rewrite !normalize_fmap, <-list_fmap_compose. apply list_fmap_ext.
  intros _ c _. apply norm_char_idem.
Qed.

Lemma variant_norm_char a b : spelling_variant a b → norm_char a = norm_char b.
Proof.
  destruct 1 as [c|c Hc|c Hc|a b Ha Hb]; [done| | |].
  - unfold norm_char. class_solve.
  - unfold norm_char. class_solve.
  - assert (norm_char a = 45%N ∧ norm_char b = 45%N) as [-> ->]; [|done].
    rewrite !elem_of_cons, !elem_of_nil in Ha, Hb.
    split; [destruct Ha as [->|[->|[]]]|destruct Hb as [->|[->|[]]]]; done.
Qed.

Lemma variant_normalize (n1 n2 : str) :
  Forall2 spelling_variant n1 n2 → normalize n1 = normalize n2.
Proof.
  rewrite !normalize_fmap. induction 1 as [|a b n1 n2 Hab _ IH]; [done|].
  rewrite !fmap_cons. f_equal; [by apply variant_norm_char|done].
Qed.

(** ** The parser: claims on one requirement line *)

(** C4.  After the comment is stripped, the version_spec that
    [parse_requirement] returns is the first run of the text after the
    matched name that starts with one of [= < > !] and extends up to the
    next whitespace or the end of the string, and the empty string when
    there is no such run; no other string is.  The line
    "requests>=2.28,<3.0  # pinned" parses to "requests" with
    ">=2.28,<3.0". *)
Theorem parse_requirement_version_spec :
  (∀ line name ver,
     parse_requirement line = (Some name, Some ver) →
     ∃ m rest,
       re_match name_re (strip (split_head 35 line)) = Some (m, rest)
       ∧ strip (split_head 35 line) = m ++ rest
       ∧ name = normalize m
       ∧ first_version_run rest ver
       ∧ strip ver = ver
       ∧ ∀ ver', first_version_run rest ver' → ver' = ver)
  ∧ parse_requirement (u "requests>=2.28,<3.0  # pinned")
    = (Some (u "requests"), Some (u ">=2.28,<3.0")).
Proof.
  split; [|by vm_compute].
  intros line name ver. rewrite parse_requirement_eq. cbv zeta.
  rewrite re_match_name_re.
  destruct (bool_decide _); [done|]. destruct (existsb _ _); [done|].
  destruct (match_name _) as [[m rest]|] eqn:Hm; [|done].
  intros [= <- <-]. exists m, rest.
  split_and!; [done|by apply match_name_Some in Hm as [? _]|done| | |].
  - by apply first_version_run_find.
  - apply strip_id, find_version_nonspace.
  - intros ver'. by rewrite first_version_run_find.
Qed.

Lemma parse_requirement_version_spec_witness :
  ∃ m rest,
    re_match name_re (strip (split_head 35 (u "requests>=2.28,<3.0  # pinned")))
    = Some (m, rest)
    ∧ strip (split_head 35 (u "requests>=2.28,<3.0  # pinned")) = m ++ rest
    ∧ u "requests" = normalize m
    ∧ first_version_run rest (u ">=2.28,<3.0")
    ∧ strip (u ">=2.28,<3.0") = u ">=2.28,<3.0"
    ∧ ∀ ver', first_version_run rest ver' → ver' = u ">=2.28,<3.0".
Proof.
  apply (proj1 parse_requirement_version_spec
           (u "requests>=2.28,<3.0  # pinned")).
  vm_compute. reflexivity.
Defined.

(** C9.  [parse_requirement] is total.  It returns [(None, None)], or a
    name that is non-empty, made of name characters none of which is an
    uppercase letter or an underscore, that begins and ends with an
    alphanumeric character, with a version_spec that has no whitespace
    and, when it is not empty, begins with one of [= < > !]. *)
Theorem parse_requirement_shape (line : str) :
  parse_requirement line = (None, None)
  ∨ ∃ name ver,
      parse_requirement line = (Some name, Some ver)
      ∧ name ≠ []
      ∧ Forall (λ c, is_namechar c = true ∧ in_range 65 90 c = false
                     ∧ c ≠ 95%N) name
      ∧ lower name = name
      ∧ (∃ c, head name = Some c ∧ is_alnum c = true)
      ∧ (∃ c, last name = Some c ∧ is_alnum c = true)
      ∧ Forall (λ c, isspace c = false) ver
      ∧ (ver = [] ∨ ∃ c v, ver = c :: v ∧ is_op c = true).
Proof.
  rewrite parse_requirement_eq. cbv zeta.
  destruct (bool_decide _); [by left|]. destruct (existsb _ _); [by left|].
  destruct (match_name _) as [[m rest]|] eqn:Hm; [|by left].
  right. eexists _, _. split; [done|].
  apply match_name_Some in Hm as (_ & Hchars & (c0 & Hhd & Hc0) & (c1 & Hl & Hc1)).
  rewrite normalize_fmap.
  assert (Forall (λ c, is_namechar c = true ∧ in_range 65 90 c = false
                       ∧ c ≠ 95%N) (norm_char <$> m)) as Hname.
  { apply Forall_fmap. eapply Forall_impl; [done|]. intros c Hc. simpl.
    auto using norm_char_namechar, norm_char_not_upper, norm_char_not_underscore. }
  split_and!.
  - destruct m; [done|]. by rewrite fmap_cons.
  - done.
  - unfold lower. rewrite <-(list_fmap_id (norm_char <$> m)) at 2.
    apply Forall_fmap_ext. eapply Forall_impl; [done|].
    intros c (_ & Hc & _). unfold lower_char. by rewrite Hc.
  - exists (norm_char c0). destruct m; simplify_eq/=.
    split; [done|by apply norm_char_alnum].
  - exists (norm_char c1). rewrite fmap_last, Hl.
    split; [done|by apply norm_char_alnum].
  - apply find_version_nonspace.
  - destruct (find_version rest) as [v|] eqn:Hv; simpl; [|by left].
    apply find_version_Some in Hv as (pre & c & s' & _ & _ & Hc & ->).
    right. by eauto.
Qed.

(** C5.  Two spellings of a package name that differ only in letter case
    and in the choice of [_] or [-] are given the same normalized name,
    which is [normalize] of either (lowercase, [_] mapped to [-]), also
    when the same remainder follows both; [normalize] is idempotent and
    takes "Foo_Bar" to "foo-bar". *)
Theorem normalized_name_collapses :
  (∀ n1 n2 rest,
     is_package_name n1 → is_package_name n2 →
     Forall2 spelling_variant n1 n2 → requirement_tail rest →
     (parse_requirement (n1 ++ rest)).1 = Some (normalize n1)
     ∧ (parse_requirement (n2 ++ rest)).1 = Some (normalize n1)
     ∧ parse_requirement (n1 ++ rest) = parse_requirement (n2 ++ rest))
  ∧ (∀ x, normalize (normalize x) = normalize x)
  ∧ normalize (u "Foo_Bar") = u "foo-bar".
Proof.
  split_and!; [|apply normalize_idem|by vm_compute].
  intros n1 n2 rest H1 H2 Hv Hrest.
  rewrite !parse_requirement_name_tail by done.
  by rewrite (variant_normalize n1 n2).
Qed.

Lemma normalized_name_collapses_witness :
  (parse_requirement (u "Foo_Bar" ++ u "==1.0")).1 = Some (normalize (u "Foo_Bar"))
  ∧ (parse_requirement (u "foo-bar" ++ u "==1.0")).1 = Some (normalize (u "Foo_Bar"))
  ∧ parse_requirement (u "Foo_Bar" ++ u "==1.0")
    = parse_requirement (u "foo-bar" ++ u "==1.0").
Proof.
  apply (proj1 normalized_name_collapses).
  - vm_compute. reflexivity.
  - vm_compute. reflexivity.
  - change (u "Foo_Bar") with [70; 111; 111; 95; 66; 97; 114]%N.
    change (u "foo-bar") with [102; 111; 111; 45; 98; 97; 114]%N.
    apply List.Forall2_cons; [exact (variant_lower 70 eq_refl)|].
    apply List.Forall2_cons; [apply variant_same|].
    apply List.Forall2_cons; [apply variant_same|].
    apply List.Forall2_cons.
    { apply variant_separator; apply list_elem_of_In; simpl; auto. }
    apply List.Forall2_cons; [exact (variant_lower 66 eq_refl)|].
    apply List.Forall2_cons; [apply variant_same|].
    apply List.Forall2_cons; [apply variant_same|].
    apply List.Forall2_nil.
  - change (u "==1.0") with [61; 61; 49; 46; 48]%N.
    split_and!; [|reflexivity|discriminate|discriminate|reflexivity].
    rewrite list_elem_of_In. simpl. intros H.
    repeat (destruct H as [H|H]; [discriminate H|]). exact H.
Defined.

(** ** Programs that only emit events

    Every part of the run but the summarization step ignores the state
    it starts from: it performs a list of events and returns. *)

Lemma apply_events_app evs1 evs2 st :
  apply_events (evs1 ++ evs2) st = apply_events evs2 (apply_events evs1 st).
Proof. apply foldl_app. Qed.

Lemma trace_apply_events evs st : trace (apply_events evs st) = trace st ++ evs.
Proof.
  revert st. induction evs as [|ev evs IH]; intros st; simpl.
  - by rewrite app_nil_r.
  - rewrite IH. simpl. by rewrite <-app_assoc.
Qed.

Lemma performs_ret {A} (a : A) : performs (mret a) [] (inr a).
Proof. done. Qed.

Lemma performs_raise {A} (e : exn) : performs (raise (A:=A) e) [] (inl e).
Proof. done. Qed.

Lemma performs_emit ev : performs (emit ev) [ev] (inr ()).
Proof. done. Qed.

Lemma performs_print text : performs (print text) [EvPrint text] (inr ()).
Proof. done. Qed.

Lemma performs_bind {A B} (m : IO A) (f : A → IO B) evs a evs' r :
  performs m evs (inr a) → performs (f a) evs' r →
  performs (m ≫= f) (evs ++ evs') r.
Proof.
  intros Hm Hf st. unfold mbind, IO_bind. by rewrite Hm, Hf, apply_events_app.
Qed.

Lemma performs_bind_raise {A B} (m : IO A) (f : A → IO B) evs e :
  performs m evs (inl e) → performs (m ≫= f) evs (inl e).
Proof. intros Hm st. unfold mbind, IO_bind. by rewrite Hm. Qed.

Lemma performs_with_open path body evs r :
  performs (body (λ chunk, emit (EvWrite path chunk))) evs r →
  performs (with_open path body) (EvOpen path :: evs ++ [EvClose path]) r.
Proof.
  intros Hb st. unfold with_open. rewrite Hb. simpl.
  by rewrite apply_events_app.
Qed.

Lemma performs_for_each {A} (body : A → IO unit) (ev : A → event) l :
  (∀ x, performs (body x) [ev x] (inr ())) →
  performs (for_each body l) (ev <$> l) (inr ()).
Proof.
  intros Hb. induction l as [|x l IH]; simpl; [done|].
  apply (performs_bind _ _ [ev x] () _ _ (Hb x) IH).
Qed.

(** *** The loops over the files *)

Lemma performs_for_files {S} (read : S → list str → S) files (s : S) :
  performs (for_files read files s) (omap warning files)
    (inr (aggregate read files s)).
Proof.
  revert s. induction files as [|f files IH]; intros s; simpl; [done|].
  unfold warning at 1. destruct (read_error f) as [e|]; simpl.
  - apply (performs_bind _ _ [_] () _ _ (performs_print _) (IH _)).
  - apply (performs_bind _ _ [] () _ _ (performs_ret _) (IH _)).
Qed.

(** *** Counting a key once per file *)

Lemma add_full_spec_count_once acc line :
  add_full_spec acc line = count_once full_spec_of acc line.
Proof.
  unfold add_full_spec, count_once, full_spec_of. destruct acc as [pv seen].
  destruct (parse_requirement line) as [[[|c n]|] [[|c' v]|]]; simpl; done.
Qed.

Lemma count_package_count_once acc line :
  count_package acc line = count_once name_of acc line.
Proof.
  unfold count_package, count_once, name_of. destruct acc as [pc seen].
  destruct (parse_requirement line) as [[[|c n]|] ?]; simpl; done.
Qed.

Lemma foldl_count_once key_of file_lines counts seen :
  (foldl (count_once key_of) (counts, seen) file_lines).2
    = seen ∪ list_to_set (omap key_of file_lines)
  ∧ ∀ k, (foldl (count_once key_of) (counts, seen) file_lines).1 !! k
         = if decide (k ∈ omap key_of file_lines ∧ k ∉ seen)
           then Some (default 0 (counts !! k) + 1) else counts !! k.
Proof.
  revert counts seen.
  induction file_lines as [|line ls IH]; intros counts seen.
  - cbn [foldl fst snd]. split; [set_solver|]. intros k.
    rewrite decide_False; [done|]. intros [H _]. by apply elem_of_nil in H.
  - assert (omap key_of (line :: ls)
            = match key_of line with
              | Some y => y :: omap key_of ls
              | None => omap key_of ls
              end) as -> by done.
    cbn [foldl]. unfold count_once at 2 4.
    destruct (key_of line) as [k0|] eqn:Hk0; [|apply IH].
    cbn [fst snd]. case_bool_decide as Hseen.
    + destruct (IH (<[k0:=default 0 (counts !! k0) + 1]> counts) ({[k0]} ∪ seen))
        as [IH1 IH2].
      split; [rewrite IH1; set_solver|].
      intros k. rewrite IH2. destruct (decide (k = k0)) as [->|Hne].
      * rewrite decide_False by set_solver.
        rewrite decide_True by set_solver. by rewrite lookup_insert_eq.
      * rewrite lookup_insert_ne by done.
        apply decide_ext. set_solver.
    + destruct (IH counts seen) as [IH1 IH2].
      split; [rewrite IH1; set_solver|].
      intros k. rewrite IH2. apply decide_ext. set_solver.
Qed.

Lemma per_file_count_once key_of counts file_lines k :
  per_file (count_once key_of) counts file_lines !! k
  = if decide (k ∈ omap key_of file_lines)
    then Some (default 0 (counts !! k) + 1) else counts !! k.
Proof.
  unfold per_file. rewrite (proj2 (foldl_count_once _ _ _ _)).
  apply decide_ext. set_solver.
Qed.

Lemma per_file_ext {V} (body body' : gmap str V * gset str → str → gmap str V * gset str)
    counts file_lines :
  (∀ acc line, body acc line = body' acc line) →
  per_file body counts file_lines = per_file body' counts file_lines.
Proof.
  intros Hb. unfold per_file. f_equal. generalize (counts, (∅ : gset str)).
  induction file_lines as [|l ls IH]; intros acc; simpl; [done|].
  by rewrite Hb, IH.
Qed.

Lemma aggregate_ext {S} (read read' : S → list str → S) files s :
  (∀ s ls, read s ls = read' s ls) →
  aggregate read files s = aggregate read' files s.
Proof.
  intros Hr. revert s. induction files as [|f fs IH]; intros s; simpl; [done|].
  by rewrite Hr, IH.
Qed.

Lemma aggregate_cons {S} (read : S → list str → S) f files s :
  aggregate read (f :: files) s = aggregate read files (read s (lines f)).
Proof. done. Qed.

Lemma aggregate_app {S} (read : S → list str → S) files1 files2 s :
  aggregate read (files1 ++ files2) s
  = aggregate read files2 (aggregate read files1 s).
Proof. apply foldl_app. Qed.

Lemma file_count_cons key_of f files k :
  file_count key_of (f :: files) k
  = (if decide (k ∈ omap key_of (lines f)) then 1 else 0) + file_count key_of files k.
Proof. unfold file_count. rewrite filter_cons. by case_decide. Qed.

Lemma file_count_app key_of files1 files2 k :
  file_count key_of (files1 ++ files2) k
  = file_count key_of files1 k + file_count key_of files2 k.
Proof. unfold file_count. by rewrite filter_app, length_app. Qed.

Lemma file_count_perm key_of files files' k :
  files ≡ₚ files' → file_count key_of files k = file_count key_of files' k.
Proof. intros Hp. unfold file_count. by rewrite Hp. Qed.

Lemma aggregate_count_once key_of files counts k :
  aggregate (per_file (count_once key_of)) files counts !! k
  = if decide (file_count key_of files k = 0) then counts !! k
    else Some (default 0 (counts !! k) + file_count key_of files k).
Proof.
  revert counts. induction files as [|f files IH]; intros counts; [done|].
  rewrite aggregate_cons, IH, file_count_cons, per_file_count_once.
  destruct (decide (k ∈ omap key_of (lines f))).
  - rewrite (decide_False (P := 1 + _ = 0)) by lia.
    case_decide as H0; simpl; f_equal; lia.
  - done.
Qed.

Lemma aggregate_count_once_empty key_of files k :
  default 0 (aggregate (per_file (count_once key_of)) files ∅ !! k)
  = file_count key_of files k.
Proof.
  rewrite aggregate_count_once, lookup_empty. by case_decide as H; [rewrite H|].
Qed.

Lemma aggregate_count_once_perm key_of files files' :
  files ≡ₚ files' →
  aggregate (per_file (count_once key_of)) files ∅
  = aggregate (per_file (count_once key_of)) files' ∅.
Proof.
  intros Hp. apply map_eq. intros k.
  by rewrite !aggregate_count_once, (file_count_perm _ _ _ _ Hp).
Qed.

Lemma extract_packages_with_versions_performs files :
  performs (extract_packages_with_versions files) (omap warning files)
    (inr (aggregate (per_file (count_once full_spec_of)) files ∅)).
Proof.
  unfold extract_packages_with_versions.
  rewrite <-(aggregate_ext (per_file add_full_spec)); [apply performs_for_files|].
  intros s ls. apply per_file_ext, add_full_spec_count_once.
Qed.

Lemma count_packages_performs files :
  performs (count_packages files) (omap warning files)
    (inr (aggregate (per_file (count_once name_of)) files ∅)).
Proof.
  unfold count_packages.
  rewrite <-(aggregate_ext (per_file count_package)); [apply performs_for_files|].
  intros s ls. apply per_file_ext, count_package_count_once.
Qed.

Lemma file_count_remove key_of before f after k :
  file_count key_of (before ++ f :: after) k
  ≤ file_count key_of (before ++ after) k + 1.
Proof.
  rewrite !file_count_app, file_count_cons. case_decide; lia.
Qed.

(** C2.  A manifest file adds at most 1 to the count of any full spec
    and at most 1 to the frequency of any name, however many of its lines
    declare it: in the aggregates of a scan (with the file or without
    it), and at the step of the loop that reads the file.  A file with
    pkg==1.0 on two lines counts 1 for the full spec and 1 for the name. *)
Theorem per_file_contribution_at_most_one :
  (∀ before req_file after k st,
     ∃ with_file without_file,
       (extract_packages_with_versions (before ++ req_file :: after) st).2
         = inr with_file
       ∧ (extract_packages_with_versions (before ++ after) st).2 = inr without_file
       ∧ default 0 (with_file !! k) ≤ default 0 (without_file !! k) + 1)
  ∧ (∀ before req_file after k st,
       ∃ with_file without_file,
         (count_packages (before ++ req_file :: after) st).2 = inr with_file
         ∧ (count_packages (before ++ after) st).2 = inr without_file
         ∧ default 0 (with_file !! k) ≤ default 0 (without_file !! k) + 1)
  ∧ (∀ package_versions file_lines k,
       default 0 (per_file add_full_spec package_versions file_lines !! k)
       ≤ default 0 (package_versions !! k) + 1)
  ∧ (∀ package_counts file_lines k,
       default 0 (per_file count_package package_counts file_lines !! k)
       ≤ default 0 (package_counts !! k) + 1)
  ∧ (∀ p st,
       let req_file := Manifest p [u "pkg==1.0" ++ nl; u "pkg==1.0" ++ nl] None in
       (∃ package_versions,
          (extract_packages_with_versions [req_file] st).2 = inr package_versions
          ∧ package_versions !! u "pkg==1.0" = Some 1)
       ∧ (∃ package_counts,
            (count_packages [req_file] st).2 = inr package_counts
            ∧ package_counts !! u "pkg" = Some 1)).
Proof.
  split_and!.
  - intros before f after k st. eexists _, _.
    rewrite !extract_packages_with_versions_performs. split_and!; [done..|].
    rewrite !aggregate_count_once_empty. apply file_count_remove.
  - intros before f after k st. eexists _, _.
    rewrite !count_packages_performs. split_and!; [done..|].
    rewrite !aggregate_count_once_empty. apply file_count_remove.
  - intros pv ls k.
    rewrite (per_file_ext _ _ _ _ add_full_spec_count_once), per_file_count_once.
    case_decide; simpl; lia.
  - intros pc ls k.
    rewrite (per_file_ext _ _ _ _ count_package_count_once), per_file_count_once.
    case_decide; simpl; lia.
  - intros p st req_file. split.
    + eexists. rewrite extract_packages_with_versions_performs.
      split; [done|]. by vm_compute.
    + eexists. rewrite count_packages_performs.
      split; [done|]. by vm_compute.
Qed.

(** ** Extras *)

Lemma op_not_namechar c : is_op c = true → is_namechar c = false.
Proof.
  intros Hc. destruct (is_namechar c) eqn:Hn; [|done].
  apply namechar_not_op in Hn. congruence.
Qed.

Lemma version_clause_tail (v : str) : version_clause v → requirement_tail v.
Proof.
  intros ((c & v' & -> & Hc) & Hv). split_and!.
  - intros Hin. rewrite Forall_forall in Hv. by destruct (Hv _ Hin).
  - by apply op_not_namechar.
  - by intros ->.
  - by intros ->.
  - destruct (last (c :: v')) as [c1|] eqn:Hl; [|done].
    apply last_Some_elem_of in Hl. rewrite Forall_forall in Hv.
    by destruct (Hv _ Hl).
Qed.

Lemma find_version_clause (v : str) :
  version_clause v → find_version v = Some v.
Proof.
  intros ((c & v' & -> & Hc) & Hv). simpl. rewrite Hc. do 2 f_equal.
  rewrite <-(app_nil_r v') at 1. apply take_nonspace_app; [|done].
  inv Hv. eapply Forall_impl; [done|]. by intros ? [].
Qed.

Lemma extras_tail (e v : str) :
  extras_text e → v = [] ∨ version_clause v →
  requirement_tail (u "[" ++ e ++ u "]" ++ v)
  ∧ find_version (u "[" ++ e ++ u "]" ++ v) = find_version v.
Proof.
  unfold extras_text. intros He Hv. split.
  - split_and!.
    + change (u "[") with [91%N]. change (u "]") with [93%N].
      rewrite !elem_of_app, !elem_of_cons, !elem_of_nil.
      intros [[|[]]|[Hin|[[|[]]|Hin]]]; try done.
      * rewrite Forall_forall in He. by destruct (He _ Hin).
      * destruct Hv as [->|[_ Hv]]; [by apply elem_of_nil in Hin|].
        rewrite Forall_forall in Hv. by destruct (Hv _ Hin).
    + done.
    + change (u "[") with [91%N]. change (u "]") with [93%N].
      destruct Hv as [->|[_ Hv]].
      * rewrite app_nil_r, !app_assoc, last_snoc. done.
      * destruct (last _) as [c1|] eqn:Hl; [|done].
        destruct v as [|c v _] using rev_ind.
        { rewrite app_nil_r, !app_assoc, last_snoc in Hl. by simplify_eq. }
        rewrite !app_assoc, last_snoc in Hl. simplify_eq.
        apply Forall_app in Hv as [_ Hv]. inv Hv. tauto.
  - change (u "[") with [91%N]. change (u "]") with [93%N].
    rewrite !app_assoc. apply find_version_app.
    apply Forall_app. split; [|by repeat constructor].
    apply Forall_app. split; [by repeat constructor|].
    eapply Forall_impl; [done|]. by intros ? [].
Qed.

Lemma full_spec_of_parse line name ver :
  parse_requirement line = (Some name, Some ver) → name ≠ [] →
  full_spec_of line = Some (name ++ ver).
Proof.
  unfold full_spec_of. intros -> Hne. destruct name as [|c name]; [done|].
  destruct ver; [by rewrite app_nil_r|done].
Qed.

Lemma name_of_parse line name ver :
  parse_requirement line = (Some name, ver) → name ≠ [] →
  name_of line = Some name.
Proof. unfold name_of. intros -> Hne. by destruct name. Qed.

Lemma package_name_nonempty n : is_package_name n → normalize n ≠ [].
Proof.
  unfold is_package_name. rewrite re_match_name_re, normalize_fmap.
  by destruct n.
Qed.

(** C10.  The bracketed extras of a requirement line are dropped: the
    line parses to the same name and version_spec as the line without
    them, so both give one full-spec key and one name, and a file that
    has both lines counts once for either.  "package[extra]>=1.0" parses
    to "package" with ">=1.0". *)
Theorem extras_are_dropped :
  (∀ n e v,
     is_package_name n → extras_text e → v = [] ∨ version_clause v →
     parse_requirement (n ++ u "[" ++ e ++ u "]" ++ v) = (Some (normalize n), Some v)
     ∧ parse_requirement (n ++ v) = (Some (normalize n), Some v)
     ∧ (∀ file_lines package_versions,
          n ++ u "[" ++ e ++ u "]" ++ v ∈ file_lines → n ++ v ∈ file_lines →
          per_file add_full_spec package_versions file_lines !! (normalize n ++ v)
          = Some (default 0 (package_versions !! (normalize n ++ v)) + 1))
     ∧ (∀ file_lines package_counts,
          n ++ u "[" ++ e ++ u "]" ++ v ∈ file_lines → n ++ v ∈ file_lines →
          per_file count_package package_counts file_lines !! normalize n
          = Some (default 0 (package_counts !! normalize n) + 1)))
  ∧ parse_requirement (u "package[extra]>=1.0")
    = (Some (u "package"), Some (u ">=1.0")).
Proof.
  split; [|by vm_compute].
  intros n e v Hn He Hv.
  destruct (extras_tail e v He Hv) as [Htail Hfind].
  assert (default [] (find_version v) = v) as Hdv.
  { destruct Hv as [->|Hv]; [done|]. by rewrite find_version_clause. }
  assert (requirement_tail v) as Htv.
  { destruct Hv as [->|Hv]; [|by apply version_clause_tail].
    split_and!; [apply not_elem_of_nil|done..]. }
  assert (parse_requirement (n ++ u "[" ++ e ++ u "]" ++ v)
          = (Some (normalize n), Some v)) as Hwith.
  { rewrite parse_requirement_name_tail by done. by rewrite Hfind, Hdv. }
  assert (parse_requirement (n ++ v) = (Some (normalize n), Some v)) as Hwithout.
  { rewrite parse_requirement_name_tail by done. by rewrite Hdv. }
  pose proof (package_name_nonempty n Hn) as Hne.
  split_and!; [done|done| |].
  - intros ls pv Hin _.
    rewrite (per_file_ext _ _ _ _ add_full_spec_count_once), per_file_count_once.
    rewrite decide_True; [done|].
    apply list_elem_of_omap. eexists. split; [done|].
    by apply full_spec_of_parse.
  - intros ls pc Hin _.
    rewrite (per_file_ext _ _ _ _ count_package_count_once), per_file_count_once.
    rewrite decide_True; [done|].
    apply list_elem_of_omap. eexists. split; [done|].
    by eapply name_of_parse.
Qed.

Lemma extras_are_dropped_witness :
  parse_requirement (u "package" ++ u "[" ++ u "extra" ++ u "]" ++ u ">=1.0")
  = (Some (normalize (u "package")), Some (u ">=1.0"))
  ∧ parse_requirement (u "package" ++ u ">=1.0")
    = (Some (normalize (u "package")), Some (u ">=1.0"))
  ∧ (∀ file_lines package_versions,
       u "package" ++ u "[" ++ u "extra" ++ u "]" ++ u ">=1.0" ∈ file_lines →
       u "package" ++ u ">=1.0" ∈ file_lines →
       per_file add_full_spec package_versions file_lines
         !! (normalize (u "package") ++ u ">=1.0")
       = Some (default 0 (package_versions !! (normalize (u "package") ++ u ">=1.0")) + 1))
  ∧ (∀ file_lines package_counts,
       u "package" ++ u "[" ++ u "extra" ++ u "]" ++ u ">=1.0" ∈ file_lines →
       u "package" ++ u ">=1.0" ∈ file_lines →
       per_file count_package package_counts file_lines !! normalize (u "package")
       = Some (default 0 (package_counts !! normalize (u "package")) + 1)).
Proof.
  apply (proj1 extras_are_dropped (u "package") (u "extra") (u ">=1.0")).
  - vm_compute. reflexivity.
  - change (u "extra") with [101; 120; 116; 114; 97]%N.
    repeat (apply List.Forall_cons; [split; [reflexivity|discriminate]|]).
    apply List.Forall_nil.
  - right. change (u ">=1.0") with [62; 61; 49; 46; 48]%N. split.
    + exists 62%N, [61; 49; 46; 48]%N. split; reflexivity.
    + repeat (apply List.Forall_cons; [split; [reflexivity|discriminate]|]).
      apply List.Forall_nil.
Defined.

(** ** [sorted] *)

Lemma str_ltb_lexico (a b : str) : str_ltb a b = true ↔ lexico a b.
Proof.
  revert b. induction a as [|x a IH]; intros [|y b]; simpl; try done.
  rewrite orb_true_iff, andb_true_iff, N.ltb_lt, N.eqb_eq, IH.
  done.
Qed.

Lemma tuple_ltb_lexico (a b : Z * str) : tuple_ltb a b = true ↔ lexico a b.
Proof.
  unfold tuple_ltb, lexico, prod_lexico.
  by rewrite orb_true_iff, andb_true_iff, Z.ltb_lt, Z.eqb_eq, str_ltb_lexico.
Qed.

Section sorted_correct.
Context {A K : Type} (ltb : K → K → bool) (key : A → K) (lt : relation K).
Context `{!StrictOrder lt, !Trichotomy lt}.
Hypothesis ltb_lt : ∀ x y, ltb x y = true ↔ lt x y.

Lemma key_le_alt x y : (key_le ltb key) x y ↔ key x = key y ∨ lt (key x) (key y).
Proof.
  unfold key_le. rewrite <-not_true_iff_false, ltb_lt. split.
  - intros Hn. destruct (trichotomy lt (key x) (key y)) as [?|[?|?]]; by auto.
  - intros [Heq|Hlt] Hyx.
    + rewrite Heq in Hyx. by apply (irreflexivity lt) in Hyx.
    + apply (irreflexivity lt (key x)). by trans (key y).
Qed.

#[local] Instance key_le_trans : Transitive (key_le ltb key).
Proof.
  intros x y z. rewrite !key_le_alt.
  intros [Hxy|Hxy] [Hyz|Hyz].
  - left. congruence.
  - right. by rewrite Hxy.
  - right. by rewrite <-Hyz.
  - right. by trans (key y).
Qed.

Lemma key_le_antisym x y : (key_le ltb key) x y → (key_le ltb key) y x → key x = key y.
Proof.
  rewrite !key_le_alt. intros [?|Hxy] [?|Hyx]; auto.
  exfalso. apply (irreflexivity lt (key x)). by trans (key y).
Qed.

Lemma key_le_total x y : (key_le ltb key) x y ∨ (key_le ltb key) y x.
Proof.
  rewrite !key_le_alt.
  destruct (trichotomy lt (key x) (key y)) as [?|[?|?]]; by auto.
Qed.

Lemma insort_perm x l : insort ltb key x l ≡ₚ x :: l.
Proof.
  induction l as [|y l IH]; simpl; [done|].
  destruct (ltb (key y) (key x)); [|done].
  by rewrite IH, Permutation_swap.
Qed.

Lemma sorted_perm l : sorted ltb key l ≡ₚ l.
Proof.
  induction l as [|x l IH]; simpl; [done|].
  fold (sorted ltb key l). by rewrite insort_perm, IH.
Qed.

Lemma insort_Sorted x l :
  Sorted (key_le ltb key) l → Sorted (key_le ltb key) (insort ltb key x l).
Proof.
  induction 1 as [|y l Hl IH Hy]; simpl; [by repeat constructor|].
  destruct (ltb (key y) (key x)) eqn:Hyx.
  - constructor; [done|]. destruct Hy as [|z l Hz]; simpl.
    + constructor. destruct (key_le_total y x) as [?|Hxy]; [done|].
      unfold key_le in Hxy. congruence.
    + destruct (ltb (key z) (key x)); constructor; [done|].
      destruct (key_le_total y x) as [?|Hxy]; [done|].
      unfold key_le in Hxy. congruence.
  - constructor; [by constructor|]. by constructor.
Qed.

Lemma sorted_Sorted l : Sorted (key_le ltb key) (sorted ltb key l).
Proof.
  induction l as [|x l IH]; simpl; [constructor|].
  by apply insort_Sorted.
Qed.

Lemma fmap_inj_on (l : list A) x y :
  NoDup (key <$> l) → x ∈ l → y ∈ l → key x = key y → x = y.
Proof.
  induction l as [|z l IH]; [by intros _ ?%elem_of_nil|].
  rewrite fmap_cons, NoDup_cons, !elem_of_cons.
  intros [Hz Hl] [->|Hx] [->|Hy] Hk; auto.
  - destruct Hz. rewrite Hk. by apply list_elem_of_fmap_2.
  - destruct Hz. rewrite <-Hk. by apply list_elem_of_fmap_2.
Qed.

(** With distinct keys, the result of [sorted] does not depend on the
    order of its argument. *)
Lemma sorted_unique l l' :
  NoDup (key <$> l) → l ≡ₚ l' → sorted ltb key l = sorted ltb key l'.
Proof.
  intros Hnd Hp. apply (Sorted_unique_strong (key_le ltb key)).
  - intros x1 x2 H1 H2 H12 H21.
    apply (fmap_inj_on l); [done| | |by apply key_le_antisym].
    + by rewrite <-(sorted_perm l).
    + by rewrite Hp, <-(sorted_perm l').
  - apply sorted_Sorted.
  - apply sorted_Sorted.
  - by rewrite !sorted_perm.
Qed.

(** With distinct keys, the keys of the result strictly increase. *)
Lemma sorted_StronglySorted l :
  NoDup (key <$> l) → StronglySorted (key_lt ltb key) (sorted ltb key l).
Proof.
  intros Hnd.
  assert (NoDup (key <$> sorted ltb key l)) as Hnd'.
  { by rewrite sorted_perm. }
  pose proof (Sorted_StronglySorted _ _ (sorted_Sorted l)) as Hs.
  induction Hs as [|x s Hs IH Hx]; [constructor|].
  rewrite fmap_cons, NoDup_cons in Hnd'. destruct Hnd' as [Hx' Hnd'].
  constructor; [by apply IH|].
  rewrite Forall_forall in Hx |- *. intros y Hy.
  pose proof (Hx y Hy) as Hxy. apply key_le_alt in Hxy.
  destruct Hxy as [Heq|Hlt].
  - destruct Hx'. rewrite Heq. by apply list_elem_of_fmap_2.
  - by apply ltb_lt.
Qed.
End sorted_correct.

(** *** The two instances: names, and [(-count, name)] tuples *)

#[local] Instance frequency_key_inj : Inj (=) (=) frequency_key.
Proof.
  intros [k1 c1] [k2 c2]. unfold frequency_key. simpl.
  intros [= ? ->]. f_equal. lia.
Qed.

Lemma NoDup_frequency_keys (d : gmap str nat) :
  NoDup (frequency_key <$> map_to_list d).
Proof. apply (NoDup_fmap_2 _), NoDup_map_to_list. Qed.

Lemma elem_of_keys {V} (d : gmap str V) k :
  k ∈ (map_to_list d).*1 ↔ is_Some (d !! k).
Proof.
  rewrite list_elem_of_fmap. split.
  - intros ([k' v] & -> & Hin). apply elem_of_map_to_list in Hin. by eexists.
  - intros [v Hv]. exists (k, v). split; [done|]. by apply elem_of_map_to_list.
Qed.

Lemma sorted_keys_perm {V} (d : gmap str V) : sorted_keys d ≡ₚ (map_to_list d).*1.
Proof. apply sorted_perm. Qed.

Lemma sorted_keys_length {V} (d : gmap str V) : length (sorted_keys d) = size d.
Proof. by rewrite sorted_keys_perm, length_fmap, length_map_to_list. Qed.

(** The sorted keys depend on the set of keys only. *)
Lemma sorted_keys_dom {V : Type} {W : Type} (d : gmap str V) (d' : gmap str W) :
  (∀ k, is_Some (d !! k) ↔ is_Some (d' !! k)) → sorted_keys d = sorted_keys d'.
Proof.
  intros Hdom. unfold sorted_keys.
  apply (sorted_unique str_ltb id lexico str_ltb_lexico).
  - rewrite list_fmap_id. apply NoDup_fst_map_to_list.
  - apply NoDup_Permutation; [apply NoDup_fst_map_to_list..|].
    intros k. by rewrite !elem_of_keys.
Qed.

Lemma sorted_keys_strict {V} (d : gmap str V) :
  StronglySorted (λ a b, str_ltb a b = true) (sorted_keys d).
Proof.
  apply (sorted_StronglySorted str_ltb id lexico str_ltb_lexico).
  rewrite list_fmap_id. apply NoDup_fst_map_to_list.
Qed.

Lemma sorted_by_frequency_perm (d : gmap str nat) :
  sorted_by_frequency d ≡ₚ map_to_list d.
Proof. apply sorted_perm. Qed.

Lemma frequency_before_key x y :
  tuple_ltb (frequency_key x) (frequency_key y) = true ↔ frequency_before x y.
Proof.
  unfold tuple_ltb, frequency_key, frequency_before. simpl.
  rewrite orb_true_iff, andb_true_iff, Z.ltb_lt, Z.eqb_eq.
  split; (intros [?|[? ?]]; [left; lia|right; split; [lia|done]]).
Qed.

Lemma StronglySorted_mono {A} (R R' : relation A) l :
  (∀ x y, R x y → R' x y) → StronglySorted R l → StronglySorted R' l.
Proof.
  intros HR. induction 1 as [|x l _ IH Hx]; constructor; [done|].
  eapply Forall_impl; [done|]. auto.
Qed.

Lemma sorted_by_frequency_strict (d : gmap str nat) :
  StronglySorted frequency_before (sorted_by_frequency d).
Proof.
  eapply StronglySorted_mono;
    [|apply (sorted_StronglySorted tuple_ltb frequency_key lexico
               tuple_ltb_lexico), NoDup_frequency_keys].
  intros x y. apply frequency_before_key.
Qed.

(** The rows depend on the dictionary only, whatever the order in which
    it lists its items. *)
Lemma sorted_by_frequency_unique (d : gmap str nat) (items : list (str * nat)) :
  items ≡ₚ map_to_list d →
  sorted tuple_ltb frequency_key items = sorted_by_frequency d.
Proof.
  intros Hp. symmetry.
  apply (sorted_unique tuple_ltb frequency_key lexico tuple_ltb_lexico);
    [apply NoDup_frequency_keys|done].
Qed.

(** ** What the report generators write *)

Lemma performs_eq {A} (m : IO A) evs evs' r :
  performs m evs r → evs = evs' → performs m evs' r.
Proof. by intros ? <-. Qed.

Lemma performs_for_each_Forall {A} (body : A → IO unit) (ev : A → event) l :
  Forall (λ x, performs (body x) [ev x] (inr ())) l →
  performs (for_each body l) (ev <$> l) (inr ()).
Proof.
  induction 1 as [|x l Hx _ IH]; simpl; [done|].
  apply (performs_bind _ _ [ev x] () _ _ Hx IH).
Qed.

Lemma generate_unique_packages_report_performs packages output_file :
  performs (generate_unique_packages_report packages output_file)
    (report_events output_file (unique_packages_chunks packages)
       (check_mark ++ u " Unique packages report saved to: " ++ output_file))
    (inr ()).
Proof.
  unfold generate_unique_packages_report. eapply performs_eq.
  - eapply performs_bind; [|apply performs_print].
    apply performs_with_open.
    eapply performs_bind; [apply performs_emit|].
    eapply performs_bind; [apply performs_emit|].
    apply (performs_for_each _ (λ package, EvWrite output_file (package ++ nl))).
    intros x. apply performs_emit.
  - unfold report_events, unique_packages_chunks.
    fold (sorted_keys packages). rewrite sorted_keys_length.
    simpl. by rewrite <-app_assoc, <-list_fmap_compose.
Qed.

Lemma generate_unique_packages_with_versions_report_performs pv output_file :
  performs (generate_unique_packages_with_versions_report pv output_file)
    (report_events output_file (unique_packages_with_versions_chunks pv)
       (check_mark ++ u " Unique packages with versions report saved to: "
        ++ output_file))
    (inr ()).
Proof.
  unfold generate_unique_packages_with_versions_report. eapply performs_eq.
  - eapply performs_bind; [|apply performs_print].
    apply performs_with_open.
    eapply performs_bind; [apply performs_emit|].
    eapply performs_bind; [apply performs_emit|].
    apply (performs_for_each _ (λ package, EvWrite output_file (package ++ nl))).
    intros x. apply performs_emit.
  - unfold report_events, unique_packages_with_versions_chunks.
    fold (sorted_keys pv). rewrite sorted_keys_length.
    simpl. by rewrite <-app_assoc, <-list_fmap_compose.
Qed.

Lemma generate_frequency_with_versions_report_performs pv files output_file :
  performs (generate_frequency_with_versions_report pv files output_file)
    (report_events output_file (frequency_with_versions_chunks pv (length files))
       (check_mark ++ u " Frequency with versions report saved to: "
        ++ output_file))
    (inr ()).
Proof.
  unfold generate_frequency_with_versions_report. eapply performs_eq.
  - eapply performs_bind; [|apply performs_print].
    apply performs_with_open.
    do 5 (eapply performs_bind; [apply performs_emit|]).
    apply (performs_for_each _
             (λ row, EvWrite output_file (frequency_with_versions_line row))).
    intros [k c]. apply performs_emit.
  - unfold report_events, frequency_with_versions_chunks.
    fold (sorted_by_frequency pv).
    simpl. by rewrite <-app_assoc, <-list_fmap_compose.
Qed.

Lemma generate_frequency_report_performs packages files output_file :
  let package_counts := aggregate (per_file (count_once name_of)) files ∅ in
  (∀ k, is_Some (package_counts !! k) → is_Some (packages !! k)) →
  performs (generate_frequency_report packages files output_file)
    (omap warning files
     ++ report_events output_file
          (frequency_chunks packages package_counts (length files))
          (check_mark ++ u " Frequency report saved to: " ++ output_file))
    (inr ()).
Proof.
  intros package_counts Hdom. unfold generate_frequency_report.
  eapply performs_bind; [apply count_packages_performs|].
  fold package_counts. eapply performs_eq.
  - eapply performs_bind; [|apply performs_print].
    apply performs_with_open.
    do 5 (eapply performs_bind; [apply performs_emit|]).
    apply (performs_for_each_Forall _
             (λ row, EvWrite output_file (frequency_line packages row))).
    apply Forall_forall. intros [k c] Hin.
    fold (sorted_by_frequency package_counts) in Hin.
    rewrite sorted_by_frequency_perm in Hin.
    apply elem_of_map_to_list in Hin.
    destruct (Hdom k) as [l Hl]; [by eexists|].
    rewrite Hl. unfold frequency_line. cbn [fst snd].
    rewrite (lookup_total_correct _ _ _ Hl).
    eapply performs_eq; [apply performs_emit|]. by destruct l.
  - unfold report_events, frequency_chunks.
    fold (sorted_by_frequency package_counts).
    simpl. by rewrite <-app_assoc, <-list_fmap_compose.
Qed.
(** ** [extract_packages] *)

Lemma name_of_decl_of line : name_of line = fst <$> decl_of line.
Proof.
  unfold name_of, decl_of.
  destruct (parse_requirement_cases line) as [->|(n & v & ->)]; [done|].
  by destruct n.
Qed.

Lemma omap_name_of ls : omap name_of ls = (omap decl_of ls).*1.
Proof.
  induction ls as [|l ls IH]; [done|].
  assert (∀ {A B} (f : A → option B) x xs,
            omap f (x :: xs) = match f x with
                               | Some y => y :: omap f xs
                               | None => omap f xs
                               end) as Hcons by done.
  rewrite !Hcons, name_of_decl_of, IH. by destruct (decl_of l).
Qed.

Lemma alter_as_insert {V} (f : V → V) (m : gmap str V) k x :
  m !! k = Some x → alter f k m = <[k := f x]> m.
Proof.
  intros Hk. apply map_eq. intros j. destruct (decide (j = k)) as [->|].
  - by rewrite lookup_alter_eq, lookup_insert_eq, Hk.
  - by rewrite lookup_alter_ne, lookup_insert_ne.
Qed.

Lemma add_package_add_decl packages line :
  add_package packages line
  = match decl_of line with
    | Some (n, v) => add_decl n v packages
    | None => packages
    end.
Proof.
  unfold add_package, decl_of, add_decl.
  destruct (parse_requirement line) as [[[|c n]|] [v|]]; try done.
  cbn [truthy].
  destruct (packages !! (c :: n)) as [vs|] eqn:Hn.
  - rewrite (bool_decide_eq_true_2 (c :: n ∈ dom packages))
      by (apply elem_of_dom; by eexists).
    rewrite (lookup_total_correct _ _ _ Hn). cbn [default from_option id].
    destruct v as [|c' v]; cbn [andb]; repeat case_bool_decide;
      try (by rewrite insert_id); try (exfalso; intuition congruence).
    exact (alter_as_insert _ _ _ _ Hn).
  - rewrite (bool_decide_eq_false_2 (c :: n ∈ dom packages))
      by (rewrite elem_of_dom, Hn; by intros [? ?]).
    rewrite lookup_total_insert_eq. cbn [default from_option id].
    destruct v as [|c' v]; cbn [andb]; repeat case_bool_decide;
      try done; try (exfalso; intuition congruence).
    + rewrite (alter_as_insert _ _ _ []) by apply lookup_insert_eq.
      by rewrite insert_insert_eq.
Qed.

Lemma packages_of_add_decl packages decls n v :
  packages_of packages decls →
  packages_of (add_decl n v packages) (decls ++ [(n, v)]).
Proof.
  intros Hinv k. unfold add_decl.
  destruct (decide (k = n)) as [->|Hne].
  - rewrite lookup_insert_eq. specialize (Hinv n).
    assert (NoDup (default [] (packages !! n))
            ∧ ∀ v', v' ∈ default [] (packages !! n) ↔ v' ≠ [] ∧ (n, v') ∈ decls)
      as [Hnd Hvs].
    { destruct (packages !! n) as [vs|]; simpl; [by destruct Hinv as (_ & ? & ?)|].
      split; [constructor|]. intros v'. split; [by intros ?%elem_of_nil|].
      intros [_ Hin]. destruct Hinv. apply list_elem_of_fmap. by exists (n, v'). }
    split_and!.
    + rewrite fmap_app, elem_of_app. right. simpl. by left.
    + case_bool_decide as Hv; [|done].
      apply NoDup_app. split_and!; [done| |apply NoDup_singleton].
      intros x Hx ->%list_elem_of_singleton. by destruct Hv.
    + intros v'. rewrite elem_of_app, list_elem_of_singleton.
      case_bool_decide as Hv.
      * rewrite elem_of_app, list_elem_of_singleton, Hvs.
        split; [intros [[? ?]| ->]|intros [? [?|[= ->]]]]; try by auto.
        destruct Hv. auto.
      * rewrite Hvs. split; [by intros [? ?]; auto|].
        intros [Hv' [?|[= ->]]]; [done|].
        destruct (decide (v ∈ default [] (packages !! n))) as [Hin|Hnin].
        -- by apply Hvs.
        -- destruct Hv. done.
  - rewrite lookup_insert_ne by done. specialize (Hinv k).
    assert (k ∈ (decls ++ [(n, v)]).*1 ↔ k ∈ decls.*1) as Hk.
    { rewrite fmap_app, elem_of_app. simpl. rewrite list_elem_of_singleton.
      naive_solver. }
    destruct (packages !! k) as [vs|]; [|by rewrite Hk].
    destruct Hinv as (? & ? & Hvs). split_and!; [by apply Hk|done|].
    intros v'. rewrite Hvs, elem_of_app, list_elem_of_singleton. naive_solver.
Qed.

Lemma packages_of_foldl packages decls ls :
  packages_of packages decls →
  packages_of (foldl add_package packages ls) (decls ++ omap decl_of ls).
Proof.
  revert packages decls. induction ls as [|l ls IH]; intros packages decls Hinv.
  - simpl. by rewrite app_nil_r.
  - assert (omap decl_of (l :: ls)
            = match decl_of l with
              | Some y => y :: omap decl_of ls
              | None => omap decl_of ls
              end) as -> by done.
    cbn [foldl]. rewrite add_package_add_decl.
    destruct (decl_of l) as [[n v]|]; [|by apply IH].
    rewrite cons_middle, app_assoc. by apply IH, packages_of_add_decl.
Qed.

Lemma aggregate_foldl {S} (body : S → str → S) files s :
  aggregate (foldl body) files s = foldl body s (all_lines files).
Proof.
  revert s. induction files as [|f files IH]; intros s; [done|].
  unfold all_lines. rewrite fmap_cons, aggregate_cons, IH. simpl.
  by rewrite foldl_app.
Qed.

Lemma extract_packages_performs files :
  performs (extract_packages files) (omap warning files)
    (inr (aggregate (foldl add_package) files ∅)).
Proof. apply performs_for_files. Qed.

Lemma packages_of_extract files :
  packages_of (aggregate (foldl add_package) files ∅) (declarations files).
Proof.
  rewrite aggregate_foldl. apply (packages_of_foldl ∅ []).
  intros k. rewrite lookup_empty. apply not_elem_of_nil.
Qed.

Lemma all_lines_perm files files' :
  files ≡ₚ files' → all_lines files ≡ₚ all_lines files'.
Proof.
  unfold all_lines. induction 1 as [|f l l' _ IH|f g l|l1 l2 l3 _ IH1 _ IH2]; simpl.
  - done.
  - by rewrite IH.
  - by rewrite !app_assoc, (Permutation_app_comm (lines g)).
  - by rewrite IH1.
Qed.

Lemma declarations_perm files files' :
  files ≡ₚ files' → declarations files ≡ₚ declarations files'.
Proof.
  intros Hp. unfold declarations. by rewrite (all_lines_perm _ _ Hp).
Qed.

Lemma file_count_pos key_of files k :
  file_count key_of files k ≠ 0 ↔ k ∈ omap key_of (all_lines files).
Proof.
  unfold all_lines. induction files as [|f files IH].
  - simpl. split; [done|]. by intros ?%elem_of_nil.
  - rewrite file_count_cons, fmap_cons. simpl. rewrite omap_app, elem_of_app, <-IH.
    case_decide; [split; [by auto|lia]|]. simpl. tauto.
Qed.

Lemma counted_is_extracted files k :
  is_Some (aggregate (per_file (count_once name_of)) files ∅ !! k) →
  is_Some (aggregate (foldl add_package) files ∅ !! k).
Proof.
  rewrite aggregate_count_once, lookup_empty.
  case_decide as Hc; [by intros [? ?]|]. intros _.
  apply file_count_pos in Hc. rewrite omap_name_of in Hc.
  pose proof (packages_of_extract files k) as Hk.
  destruct (_ !! k); [by eexists|]. by destruct Hk.
Qed.

Lemma writes_to_app p t1 t2 : writes_to p (t1 ++ t2) = writes_to p t1 ++ writes_to p t2.
Proof. apply omap_app. Qed.

Lemma omap_cons {A B} (f : A → option B) x xs :
  omap f (x :: xs) = match f x with
                     | Some y => y :: omap f xs
                     | None => omap f xs
                     end.
Proof. done. Qed.

Lemma writes_to_warnings p files : writes_to p (omap warning files) = [].
Proof.
  induction files as [|f files IH]; [done|].
  rewrite omap_cons. unfold warning at 1.
  destruct (read_error f); simpl; [|done]. apply IH.
Qed.

Lemma writes_to_writes p chunks : writes_to p (EvWrite p <$> chunks) = chunks.
Proof.
  induction chunks as [|c cs IH]; [done|].
  unfold writes_to in *. rewrite fmap_cons. cbn [omap list_omap].
  rewrite bool_decide_eq_true_2 by done. f_equal. apply IH.
Qed.

Lemma writes_to_report p chunks saved :
  writes_to p (report_events p chunks saved) = chunks.
Proof.
  unfold report_events.
  change (EvOpen p :: ?l) with ([EvOpen p] ++ l).
  rewrite !writes_to_app, writes_to_writes. simpl. apply app_nil_r.
Qed.

(** The trace of a program that only emits events, run from the start. *)
Lemma performs_trace {A} (m : IO A) evs r fs0 :
  performs m evs r → trace (m (State fs0 [])).1 = evs.
Proof. intros ->. simpl. by rewrite trace_apply_events. Qed.

Lemma performs_value {A} (m : IO A) evs r st : performs m evs r → (m st).2 = r.
Proof. by intros ->. Qed.

(** ** The order of the frequency reports *)

(** C6.  The rows of the names-by-frequency report and of the
    full-specs-by-frequency report (what is written after the five
    header lines) are the items of the counts, each once, every row
    before every later row in the order: greater count first, and for
    equal counts the smaller key first.  The counts a:3, b:3, c:5 are
    listed as c, a, b. *)
Theorem frequency_reports_order :
  (∀ files output_file fs0,
     ∃ packages package_counts rows,
       (extract_packages files (State fs0 [])).2 = inr packages
       ∧ (count_packages files (State fs0 [])).2 = inr package_counts
       ∧ rows ≡ₚ map_to_list package_counts
       ∧ StronglySorted frequency_before rows
       ∧ drop 5 (writes_to output_file
                   (trace (generate_frequency_report packages files output_file
                             (State fs0 [])).1))
         = frequency_line packages <$> rows)
  ∧ (∀ package_versions files output_file fs0,
       ∃ rows,
         rows ≡ₚ map_to_list package_versions
         ∧ StronglySorted frequency_before rows
         ∧ drop 5 (writes_to output_file
                     (trace (generate_frequency_with_versions_report
                               package_versions files output_file
                               (State fs0 [])).1))
           = frequency_with_versions_line <$> rows)
  ∧ (sorted tuple_ltb frequency_key
       (map_to_list ({[u "a" := 3; u "b" := 3; u "c" := 5]} : gmap str nat))).*1
    = [u "c"; u "a"; u "b"]
  ∧ drop 5 (writes_to (u "out")
              (trace (generate_frequency_with_versions_report
                        {[u "a" := 3; u "b" := 3; u "c" := 5]} [] (u "out")
                        (State ∅ [])).1))
    = frequency_with_versions_line <$> [(u "c", 5); (u "a", 3); (u "b", 3)].
Proof.
  split_and!.
  - intros files p fs0. eexists _, _, _.
    rewrite (performs_value _ _ _ _ (extract_packages_performs files)).
    rewrite (performs_value _ _ _ _ (count_packages_performs files)).
    split_and!; [done|done|apply sorted_by_frequency_perm
                |apply sorted_by_frequency_strict|].
    erewrite performs_trace
      by (apply generate_frequency_report_performs, counted_is_extracted).
    by rewrite writes_to_app, writes_to_warnings, writes_to_report.
  - intros pv files p fs0. eexists.
    split_and!; [apply sorted_by_frequency_perm|apply sorted_by_frequency_strict|].
    erewrite performs_trace
      by apply generate_frequency_with_versions_report_performs.
    by rewrite writes_to_report.
  - by vm_compute.
  - by vm_compute.
Qed.
(** ** The content of the files *)

Lemma apply_events_cons ev evs st :
  apply_events (ev :: evs) st = apply_events evs (apply_event ev st).
Proof. done. Qed.

Lemma buffers_app t1 t2 :
  buffers (t1 ++ t2) = foldl (λ pending ev, buffer_event ev pending) (buffers t1) t2.
Proof. apply foldl_app. Qed.

Lemma buffers_snoc t ev : buffers (t ++ [ev]) = buffer_event ev (buffers t).
Proof. by rewrite buffers_app. Qed.

(** What is on the disk and in the buffer of an open file after some
    writes: together, what was there and the chunks, in order. *)
Lemma apply_writes p chunks st on_disk text :
  fs st !! p = Some on_disk →
  buffers (trace st) !! p = Some text →
  ∃ on_disk' text',
    fs (apply_events (EvWrite p <$> chunks) st) = <[p := on_disk']> (fs st)
    ∧ buffers (trace (apply_events (EvWrite p <$> chunks) st)) !! p = Some text'
    ∧ on_disk' ++ text' = on_disk ++ text ++ concat chunks.
Proof.
  revert st on_disk text.
  induction chunks as [|c cs IH]; intros st d b Hd Hb.
  { exists d, b. split_and!; [by rewrite insert_id|done|by rewrite !app_nil_r]. }
  rewrite fmap_cons, apply_events_cons.
  set (st1 := apply_event (EvWrite p c) st).
  assert (∃ d1 b1, fs st1 = <[p := d1]> (fs st)
                   ∧ buffers (trace st1) !! p = Some b1
                   ∧ d1 ++ b1 = d ++ b ++ c) as (d1 & b1 & Hfs1 & Hb1 & Heq).
  { unfold st1. cbn [apply_event fs trace]. rewrite buffers_snoc.
    cbn [buffer_event]. rewrite lookup_alter_eq, Hb.
    cbn [fmap option_fmap option_map]. destruct (fills_buffer b c).
    - exists (d ++ b ++ c), []. split_and!; [|done|by rewrite app_nil_r].
      by rewrite (alter_as_insert _ _ _ d).
    - exists d, (b ++ c). by rewrite insert_id. }
  destruct (IH st1 d1 b1) as (d' & b' & Hfs' & Hb' & Heq');
    [by rewrite Hfs1, lookup_insert_eq|done|].
  exists d', b'. split_and!; [by rewrite Hfs', Hfs1, insert_insert_eq|done|].
  rewrite Heq', app_assoc, Heq. cbn [concat]. by rewrite <-!app_assoc.
Qed.

Lemma apply_open_writes p chunks st :
  ∃ on_disk text,
    fs (apply_events ([EvOpen p] ++ (EvWrite p <$> chunks)) st)
    = <[p := on_disk]> (fs st)
    ∧ buffers (trace (apply_events ([EvOpen p] ++ (EvWrite p <$> chunks)) st)) !! p
      = Some text
    ∧ on_disk ++ text = concat chunks.
Proof.
  rewrite apply_events_app.
  destruct (apply_writes p chunks (apply_events [EvOpen p] st) [] [])
    as (d & b & Hfs & Hb & Heq).
  - apply lookup_insert_eq.
  - cbn [apply_events foldl apply_event trace]. rewrite buffers_snoc.
    apply lookup_insert_eq.
  - exists d, b. split_and!; [|done..].
    rewrite Hfs. cbn [apply_events foldl apply_event fs].
    by rewrite insert_insert_eq.
Qed.

Lemma fs_apply_warnings files st : fs (apply_events (omap warning files) st) = fs st.
Proof.
  revert st. induction files as [|f files IH]; intros st; [done|].
  rewrite omap_cons. unfold warning at 1.
  destruct (read_error f); simpl; [|apply IH]. by rewrite IH.
Qed.

(** After the open and any of the writes the disk holds a prefix of
    what has been written. *)
Lemma fs_report_prefix p chunks st :
  ∃ text,
    fs (apply_events ([EvOpen p] ++ (EvWrite p <$> chunks)) st) !! p = Some text
    ∧ text `prefix_of` concat chunks.
Proof.
  destruct (apply_open_writes p chunks st) as (d & b & Hfs & _ & Heq).
  exists d. split; [by rewrite Hfs, lookup_insert_eq|by exists b].
Qed.

(** After the report the file holds all the chunks. *)
Lemma fs_report p chunks saved st :
  fs (apply_events (report_events p chunks saved) st)
  = <[p := concat chunks]> (fs st).
Proof.
  unfold report_events.
  change (EvOpen p :: (EvWrite p <$> chunks) ++ [EvClose p; EvPrint saved])
    with (([EvOpen p] ++ (EvWrite p <$> chunks)) ++ [EvClose p; EvPrint saved]).
  rewrite apply_events_app.
  destruct (apply_open_writes p chunks st) as (d & b & Hfs & Hbuf & Heq).
  set (st1 := apply_events ([EvOpen p] ++ (EvWrite p <$> chunks)) st) in *.
  cbn [apply_events foldl apply_event fs]. rewrite Hbuf, Hfs.
  rewrite (alter_as_insert _ _ _ d) by apply lookup_insert_eq.
  by rewrite insert_insert_eq, Heq.
Qed.

(** ** How a report reaches its file *)

Lemma written_in_chunks_report p fs0 files chunks saved :
  written_in_chunks p fs0 (omap warning files ++ report_events p chunks saved)
    (length chunks).
Proof.
  exists (omap warning files), chunks, [EvPrint saved]. split_and!.
  - done.
  - done.
  - by rewrite writes_to_app, writes_to_warnings, writes_to_report.
  - rewrite apply_events_app. simpl. apply lookup_insert_eq.
  - intros k _. rewrite apply_events_app. apply fs_report_prefix.
  - by rewrite apply_events_app, fs_report, lookup_insert_eq.
Qed.

Lemma unique_packages_chunks_length packages :
  length (unique_packages_chunks packages) = 2 + size packages.
Proof.
  unfold unique_packages_chunks.
  by rewrite length_app, length_fmap, sorted_keys_length.
Qed.

Lemma unique_packages_with_versions_chunks_length pv :
  length (unique_packages_with_versions_chunks pv) = 2 + size pv.
Proof.
  unfold unique_packages_with_versions_chunks.
  by rewrite length_app, length_fmap, sorted_keys_length.
Qed.

Lemma sorted_by_frequency_length d : length (sorted_by_frequency d) = size d.
Proof. by rewrite sorted_by_frequency_perm, length_map_to_list. Qed.

Lemma frequency_with_versions_chunks_length pv n :
  length (frequency_with_versions_chunks pv n) = 5 + size pv.
Proof.
  unfold frequency_with_versions_chunks.
  by rewrite length_app, length_fmap, sorted_by_frequency_length.
Qed.

Lemma frequency_chunks_length packages counts n :
  length (frequency_chunks packages counts n) = 5 + size counts.
Proof.
  unfold frequency_chunks.
  by rewrite length_app, length_fmap, sorted_by_frequency_length.
Qed.

(** C7, as the code has it.  Each report is written through a file
    opened for writing, by one call of [write] for each header line and
    one for each entry (2 + n calls for the two unique reports, 5 + n
    for the two frequency reports); the code makes no single write of
    the whole report.  Opening the file empties it; while the chunks are
    written the disk holds a prefix of what has been written (how much
    of it depends on the buffer of the file); when the generator returns
    the file is closed and holds the whole report. *)
Theorem reports_written_chunk_by_chunk :
  (∀ packages p fs0,
     written_in_chunks p fs0
       (trace (generate_unique_packages_report packages p (State fs0 [])).1)
       (2 + size packages))
  ∧ (∀ files p fs0,
       ∃ packages package_counts,
         (extract_packages files (State fs0 [])).2 = inr packages
         ∧ (count_packages files (State fs0 [])).2 = inr package_counts
         ∧ written_in_chunks p fs0
             (trace (generate_frequency_report packages files p (State fs0 [])).1)
             (5 + size package_counts))
  ∧ (∀ package_versions p fs0,
       written_in_chunks p fs0
         (trace (generate_unique_packages_with_versions_report package_versions p
                   (State fs0 [])).1)
         (2 + size package_versions))
  ∧ (∀ package_versions files p fs0,
       written_in_chunks p fs0
         (trace (generate_frequency_with_versions_report package_versions files p
                   (State fs0 [])).1)
         (5 + size package_versions)).
Proof.
  split_and!.
  - intros packages p fs0.
    erewrite performs_trace by apply generate_unique_packages_report_performs.
    rewrite <-unique_packages_chunks_length.
    apply (written_in_chunks_report p fs0 []).
  - intros files p fs0. eexists _, _.
    rewrite (performs_value _ _ _ _ (extract_packages_performs files)).
    rewrite (performs_value _ _ _ _ (count_packages_performs files)).
    split_and!; [done..|].
    erewrite performs_trace
      by (apply generate_frequency_report_performs, counted_is_extracted).
    erewrite <-frequency_chunks_length. apply written_in_chunks_report.
  - intros pv p fs0.
    erewrite performs_trace
      by apply generate_unique_packages_with_versions_report_performs.
    rewrite <-unique_packages_with_versions_chunks_length.
    apply (written_in_chunks_report p fs0 []).
  - intros pv files p fs0.
    erewrite performs_trace
      by apply generate_frequency_with_versions_report_performs.
    erewrite <-frequency_with_versions_chunks_length.
    apply (written_in_chunks_report p fs0 []).
Qed.

(** C7, as the specification has it, fails: the report of the empty
    dictionary is not written in one call of [write], and the write is
    not atomic: a file that held an earlier report is empty once it is
    opened, and still so after the first call of [write], whose chunk
    waits in the buffer; the disk holds neither what it held nor the new
    report until the file is closed. *)
Lemma report_not_one_write :
  let st := State {[u "out" := u "an earlier report"]} [] in
  let t := trace (generate_unique_packages_report ∅ (u "out") st).1 in
  ¬ (∃ chunk, writes_to (u "out") t = [chunk])
  ∧ take 2 t = [EvOpen (u "out");
                EvWrite (u "out") (u "# Unique Packages (Alphabetically Sorted)" ++ nl)]
  ∧ fs (apply_events (take 1 t) st) !! u "out" = Some []
  ∧ fs (apply_events (take 2 t) st) !! u "out" = Some []
  ∧ fs (apply_events t st) !! u "out"
    = Some (u "# Unique Packages (Alphabetically Sorted)" ++ nl
            ++ u "# Total unique packages: 0" ++ nl ++ nl).
Proof.
  split_and!.
  - intros [chunk H]. vm_compute in H. discriminate H.
  - by vm_compute.
  - by vm_compute.
  - by vm_compute.
  - by vm_compute.
Qed.

(** ** The order of the files *)

Lemma packages_perm files files' k :
  files ≡ₚ files' →
  option_Forall2 (≡ₚ) (aggregate (foldl add_package) files ∅ !! k)
                      (aggregate (foldl add_package) files' ∅ !! k).
Proof.
  intros Hp. apply declarations_perm in Hp.
  pose proof (packages_of_extract files k) as H1.
  pose proof (packages_of_extract files' k) as H2.
  destruct (aggregate _ files ∅ !! k) as [vs|],
           (aggregate _ files' ∅ !! k) as [vs'|].
  - constructor. destruct H1 as (_ & Hnd & Hvs), H2 as (_ & Hnd' & Hvs').
    apply NoDup_Permutation; [done..|].
    intros v. rewrite Hvs, Hvs'. by rewrite Hp.
  - destruct H1 as (Hk & _). destruct H2. by rewrite <-Hp.
  - destruct H2 as (Hk & _). destruct H1. by rewrite Hp.
  - constructor.
Qed.

Lemma packages_perm_keys files files' k :
  files ≡ₚ files' →
  is_Some (aggregate (foldl add_package) files ∅ !! k)
  ↔ is_Some (aggregate (foldl add_package) files' ∅ !! k).
Proof.
  intros Hp. pose proof (packages_perm files files' k Hp) as H.
  inv H; split; intros [? ?]; by eauto.
Qed.

Lemma unique_packages_chunks_keys (packages packages' : gmap str (list str)) :
  (∀ k, is_Some (packages !! k) ↔ is_Some (packages' !! k)) →
  unique_packages_chunks packages = unique_packages_chunks packages'.
Proof.
  intros Hk. unfold unique_packages_chunks.
  by rewrite <-!sorted_keys_length, (sorted_keys_dom packages packages').
Qed.

(** C3, as the code has it.  Scanning a permutation of the files gives
    the same full-spec counts and the same name counts, the same names
    with, for each, the same version specs up to their order, and so the
    same unique-names, unique-full-specs and full-specs-by-frequency
    reports; the names-by-frequency report has the same header and the
    same rows in the same order, each formatted with the version list of
    its own scan. *)
Theorem scan_of_permuted_files (files files' : list ManifestFile) (p : str)
    (st : state) :
  files ≡ₚ files' →
  ∃ packages packages' package_versions package_counts,
    (extract_packages files st).2 = inr packages
    ∧ (extract_packages files' st).2 = inr packages'
    ∧ (extract_packages_with_versions files st).2 = inr package_versions
    ∧ (extract_packages_with_versions files' st).2 = inr package_versions
    ∧ (count_packages files st).2 = inr package_counts
    ∧ (count_packages files' st).2 = inr package_counts
    ∧ (∀ k, option_Forall2 (≡ₚ) (packages !! k) (packages' !! k))
    ∧ generate_unique_packages_report packages p st
      = generate_unique_packages_report packages' p st
    ∧ generate_frequency_with_versions_report package_versions files p st
      = generate_frequency_with_versions_report package_versions files' p st
    ∧ ∃ header rows,
        writes_to p (trace (generate_frequency_report packages files p
                              (State (fs st) [])).1)
        = header ++ (frequency_line packages <$> rows)
        ∧ writes_to p (trace (generate_frequency_report packages' files' p
                                (State (fs st) [])).1)
          = header ++ (frequency_line packages' <$> rows).
Proof.
  intros Hp. eexists _, _, _, _.
  rewrite !(performs_value _ _ _ _ (extract_packages_performs _)).
  rewrite !(performs_value _ _ _ _ (extract_packages_with_versions_performs _)).
  rewrite !(performs_value _ _ _ _ (count_packages_performs _)).
  split_and!; [done|done|done| | done| | | | |].
  - by rewrite (aggregate_count_once_perm _ _ _ Hp).
  - by rewrite (aggregate_count_once_perm _ _ _ Hp).
  - intros k. by apply packages_perm.
  - rewrite !generate_unique_packages_report_performs.
    rewrite (unique_packages_chunks_keys _ (aggregate (foldl add_package) files' ∅));
      [done|].
    intros k. by apply packages_perm_keys.
  - rewrite !generate_frequency_with_versions_report_performs.
    by rewrite (Permutation_length Hp).
  - eexists _, _.
    erewrite !performs_trace
      by (apply generate_frequency_report_performs, counted_is_extracted).
    rewrite !writes_to_app, !writes_to_warnings, !writes_to_report.
    unfold frequency_chunks.
    rewrite <-(aggregate_count_once_perm _ _ _ Hp), <-(Permutation_length Hp).
    split; reflexivity.
Qed.

Lemma scan_of_permuted_files_witness :
  let a := Manifest (u "a/requirements.txt") [u "pkg==1.0" ++ nl] None in
  let b := Manifest (u "b/requirements.txt") [u "pkg==2.0" ++ nl] None in
  ∃ packages packages' package_versions package_counts,
    (extract_packages [a; b] (State ∅ [])).2 = inr packages
    ∧ (extract_packages [b; a] (State ∅ [])).2 = inr packages'
    ∧ (extract_packages_with_versions [a; b] (State ∅ [])).2 = inr package_versions
    ∧ (extract_packages_with_versions [b; a] (State ∅ [])).2 = inr package_versions
    ∧ (count_packages [a; b] (State ∅ [])).2 = inr package_counts
    ∧ (count_packages [b; a] (State ∅ [])).2 = inr package_counts
    ∧ (∀ k, option_Forall2 (≡ₚ) (packages !! k) (packages' !! k))
    ∧ generate_unique_packages_report packages (u "out") (State ∅ [])
      = generate_unique_packages_report packages' (u "out") (State ∅ [])
    ∧ generate_frequency_with_versions_report package_versions [a; b] (u "out")
        (State ∅ [])
      = generate_frequency_with_versions_report package_versions [b; a] (u "out")
          (State ∅ [])
    ∧ ∃ header rows,
        writes_to (u "out")
          (trace (generate_frequency_report packages [a; b] (u "out")
                    (State ∅ [])).1)
        = header ++ (frequency_line packages <$> rows)
        ∧ writes_to (u "out")
            (trace (generate_frequency_report packages' [b; a] (u "out")
                      (State ∅ [])).1)
          = header ++ (frequency_line packages' <$> rows).
Proof.
  intros a b.
  apply (scan_of_permuted_files [a; b] [b; a] (u "out") (State ∅ [])).
  apply Permutation_swap.
Defined.

(** C3, as the specification has it, fails: with pkg==1.0 in one file
    and pkg==2.0 in another, the names-by-frequency report lists the
    versions in the order of the files. *)
Lemma permuted_files_change_frequency_report :
  let a := Manifest (u "a/requirements.txt") [u "pkg==1.0" ++ nl] None in
  let b := Manifest (u "b/requirements.txt") [u "pkg==2.0" ++ nl] None in
  let report files :=
    fs ((packages ← extract_packages files;
         generate_frequency_report packages files (u "out")) (State ∅ [])).1
      !! u "out" in
  [a; b] ≡ₚ [b; a] ∧ report [a; b] ≠ report [b; a].
Proof.
  intros a b report. split; [apply Permutation_swap|].
  intros H. vm_compute in H. discriminate H.
Qed.

(** ** [main] *)






Lemma read_report_fs w analysis_dir filename st :
  ∃ text st',
    read_report w analysis_dir filename st = (st', inr text) ∧ fs st' = fs st
    ∧ (default [] (fs st !! path_join analysis_dir filename) = [] → text = []).
Proof.
  unfold read_report.
  destruct (fs st !! _) as [text|]; [destruct (report_read_error w _)|];
    eexists _, _; (split_and!; [reflexivity|done|]); [done| |done].
  cbn [default from_option id]. by intros ->.
Qed.

(** Reading the reports changes no file and does not raise; the frequency
    data is empty when the frequency report is not there or is empty. *)
Lemma read_analysis_files_fs w analysis_dir st :
  ∃ data st',
    read_analysis_files w analysis_dir st = (st', inr data) ∧ fs st' = fs st
    ∧ (default [] (fs st !! path_join analysis_dir (u "packages_by_frequency.txt"))
       = [] → data !! u "frequency" = Some []).
Proof.
  unfold read_analysis_files, mbind, IO_bind.
  destruct (read_report_fs w analysis_dir (u "unique_packages.txt") st)
    as (t1 & st1 & -> & H1 & _).
  destruct (read_report_fs w analysis_dir (u "packages_by_frequency.txt") st1)
    as (t2 & st2 & -> & H2 & Hfreq).
  destruct (read_report_fs w analysis_dir (u "unique_packages_with_versions.txt")
              st2) as (t3 & st3 & -> & H3 & _).
  destruct (read_report_fs w analysis_dir
              (u "packages_by_frequency_with_versions.txt") st3)
    as (t4 & st4 & -> & H4 & _).
  eexists _, _. split_and!; [reflexivity|by rewrite H4, H3, H2|].
  rewrite H1 in Hfreq. intros ->%Hfreq.
  cbn [list_to_map foldr uncurry fst snd].
  rewrite lookup_insert_ne by done. by rewrite lookup_insert_eq.
Qed.



Lemma manifests_in_nil root files :
  existsb (λ f, bool_decide (f.1 = u "requirements.txt")) files = false →
  manifests_in root files = [].
Proof.
  induction files as [|[file [ls err]] files IH]; [done|].
  cbn [existsb manifests_in fst]. intros [Hf Hfs]%orb_false_iff.
  rewrite Hf. by apply IH.
Qed.

Lemma scan_without_manifest tree root :
  contains_manifest tree = false → scan_requirements_files root tree = [].
Proof.
  revert tree root. fix IH 1. intros [files dirs] root.
  cbn [contains_manifest scan_requirements_files].
  intros [Hfiles Hdirs]%orb_false_iff.
  rewrite (manifests_in_nil _ _ Hfiles). cbn [app].
  induction dirs as [|[d sub] dirs IHd]; [done|].
  apply orb_false_iff in Hdirs as [Hsub Hdirs].
  rewrite (IH sub _ Hsub), (IHd Hdirs). by case_bool_decide.
Qed.

(** C1, as the code has it.  When the base directory has no file named
    requirements.txt (or the scan finds none) and the output directory
    is there or can be created, the run creates the output directory,
    prints that no file was found and exits with status 0; it computes
    no aggregate and writes no report.  When the output directory cannot
    be created, [mkdir] raises before the scan and the run ends with
    status 1, nothing printed. *)
Theorem empty_scan_exits_without_reports (w : World) (tree : dirtree) :
  truthy (repo_base w) = true →
  base_path w = Some (Some tree) →
  contains_manifest tree = false ∨ scanned_files w tree = [] →
  scanned_files w tree = []
  ∧ match mkdir_error w with
    | None =>
        exit_code (run w) = 0%Z
        ∧ fs (run w).1 = files_before w
        ∧ trace (run w).1
          = [EvMkdir (resolved_output_dir w);
             EvPrint (u "Scanning repository base: " ++ resolved_repo_base w);
             EvPrint (nl ++ u "Searching for requirements.txt files...");
             EvPrint (u "No requirements.txt files found.")]
    | Some e =>
        run w = (State (files_before w) [], inl (OSError e))
        ∧ exit_code (run w) = 1%Z
    end.
Proof.
  intros Hrepo Hbase Hscan.
  assert (scanned_files w tree = []) as Hnil.
  { destruct Hscan as [Hno|?]; [by apply scan_without_manifest|done]. }
  split; [done|].
  unfold run, main, mkdir. rewrite Hrepo, Hbase. cbn [negb].
  destruct (mkdir_error w) as [e|]; [done|].
  unfold mbind, IO_bind, emit, print, emit. cbv beta iota.
  fold (scanned_files w tree). rewrite Hnil.
  by rewrite bool_decide_eq_true_2.
Qed.

Lemma empty_scan_exits_without_reports_witness :
  let tree := Dir [] [(u "docs", Dir [(u "README.md", ([], None))] [])] in
  let w := example_world tree ∅ in
  scanned_files w tree = []
  ∧ match mkdir_error w with
    | None =>
        exit_code (run w) = 0%Z
        ∧ fs (run w).1 = files_before w
        ∧ trace (run w).1
          = [EvMkdir (resolved_output_dir w);
             EvPrint (u "Scanning repository base: " ++ resolved_repo_base w);
             EvPrint (nl ++ u "Searching for requirements.txt files...");
             EvPrint (u "No requirements.txt files found.")]
    | Some e =>
        run w = (State (files_before w) [], inl (OSError e))
        ∧ exit_code (run w) = 1%Z
    end.
Proof.
  intros tree w. apply empty_scan_exits_without_reports.
  - reflexivity.
  - reflexivity.
  - left. vm_compute. reflexivity.
Defined.

(** C1, as the specification has it, fails: on an empty base directory
    the run exits with status 0 and none of the four reports exists. *)
Lemma empty_scan_writes_no_report :
  let w := example_world (Dir [] []) ∅ in
  exit_code (run w) = 0%Z
  ∧ scanned_files w (Dir [] []) = []
  ∧ fs (run w).1 !! unique_path w = None
  ∧ fs (run w).1 !! frequency_path w = None
  ∧ fs (run w).1 !! unique_with_versions_path w = None
  ∧ fs (run w).1 !! frequency_with_versions_path w = None.
Proof. by vm_compute. Qed.




Example missing_credential_run :
  let w := example_world example_tree ∅ in
  exit_code (run w) = 0%Z
  ∧ last (prints (trace (run w).1)) = Some (u "Continuing with basic reports only...")
  ∧ is_Some (fs (run w).1 !! unique_path w)
  ∧ is_Some (fs (run w).1 !! frequency_path w)
  ∧ is_Some (fs (run w).1 !! unique_with_versions_path w)
  ∧ is_Some (fs (run w).1 !! frequency_with_versions_path w).
Proof. vm_compute. split_and!; by eauto. Qed.

Example remote_error_run :
  let w := example_world example_tree {[u "ANTHROPIC_API_KEY" := u "sk-test"]} in
  exit_code (run w) = 0%Z
  ∧ reverse (prints (trace (run w).1)) !! 1
    = Some (nl ++ warning_sign
            ++ u "  AI analysis failed: Error calling Anthropic API: connection refused")
  ∧ fs (run w).1 !! path_join (resolved_output_dir w) (u "ai_recommendations.txt") = None
  ∧ is_Some (fs (run w).1 !! frequency_path w).
Proof.
  vm_compute. split_and!; [done|done|done|by eauto].
Qed.

(** * Further properties of the code *)

(** ** More on strings *)

Lemma split_head_app_sep (sep : char) (s t : str) :
  split_head sep (s ++ sep :: t) = split_head sep s.
Proof.
  induction s as [|c s IH]; simpl.
  - by rewrite N.eqb_refl.
  - destruct (c =? sep)%N; [done|]. by rewrite IH.
Qed.

Lemma split_head_app (sep : char) (s t : str) :
  sep ∉ s → split_head sep (s ++ t) = s ++ split_head sep t.
Proof.
  induction s as [|c s IH]; simpl; [done|].
  intros Hs. apply not_elem_of_cons in Hs as [Hc Hs].
  destruct (N.eqb_spec c sep); [done|]. by rewrite IH.
Qed.

Lemma split_head_sublist (sep : char) (s : str) (c : char) :
  c ∈ split_head sep s → c ∈ s ∧ c ≠ sep.
Proof.
  induction s as [|d s IH]; simpl; [by intros ?%elem_of_nil|].
  destruct (N.eqb_spec d sep) as [->|Hd]; [by intros ?%elem_of_nil|].
  intros [->|Hc]%elem_of_cons.
  - split; [left|done].
  - destruct (IH Hc). split; [by right|done].
Qed.

Lemma lstrip_space_app (ws s : str) :
  Forall (λ c, isspace c = true) ws → lstrip (ws ++ s) = lstrip s.
Proof. induction 1 as [|c ws Hc _ IH]; simpl; [done|]. by rewrite Hc. Qed.

Lemma rstrip_app_space (s ws : str) :
  Forall (λ c, isspace c = true) ws → rstrip (s ++ ws) = rstrip s.
Proof.
  intros Hws. unfold rstrip. rewrite reverse_app, lstrip_space_app; [done|].
  by apply Forall_reverse.
Qed.

Lemma strip_spaces (ws1 s ws2 : str) :
  Forall (λ c, isspace c = true) ws1 → Forall (λ c, isspace c = true) ws2 →
  strip (ws1 ++ s ++ ws2) = strip s.
Proof.
  intros H1 H2. unfold strip. rewrite lstrip_space_app by done.
  induction s as [|c s IH]; simpl.
  - rewrite <-(app_nil_r ws2), lstrip_space_app by done. done.
  - destruct (isspace c); [done|].
    by rewrite app_comm_cons, rstrip_app_space.
Qed.

Lemma lstrip_suffix (s : str) : lstrip s `suffix_of` s.
Proof.
  induction s as [|c s IH]; simpl; [done|].
  destruct (isspace c); [by apply suffix_cons_r|done].
Qed.

Lemma strip_elem (s : str) (c : char) : c ∈ strip s → c ∈ s.
Proof.
  unfold strip, rstrip. rewrite elem_of_reverse. intros Hc.
  eapply elem_of_suffix in Hc; [|apply lstrip_suffix].
  rewrite elem_of_reverse in Hc.
  eapply elem_of_suffix; [done|apply lstrip_suffix].
Qed.

Lemma no_comment_left (line : str) : 35%N ∉ strip (split_head 35 line).
Proof. by intros [_ ?]%strip_elem%split_head_sublist. Qed.

(** ** More on the matched name *)

Lemma match_name_None (s : str) :
  match_name s = None ↔
  s = [] ∨ ∃ c, head s = Some c ∧ is_alnum c = false.
Proof.
  destruct s as [|c s]; simpl; [by split; [left|]|].
  destruct (is_alnum c) eqn:Hc.
  - split.
    + by destruct (name_tail s) as [[??]|].
    + intros [?|(c' & [= <-] & ?)]; congruence.
  - split; [|done]. right. by exists c.
Qed.

Lemma name_tail_full (t : str) :
  Forall (λ c, is_namechar c = true) t →
  (∃ c, last t = Some c ∧ is_alnum c = true) →
  name_tail t = Some (t, []).
Proof.
  induction 1 as [|c t Hc _ IH]; simpl; [naive_solver|].
  intros (d & Hd & Hal). rewrite Hc.
  destruct t as [|c' t].
  - simpl in *. simplify_eq. by rewrite Hal.
  - rewrite IH; [done|]. exists d. by rewrite <-Hd.
Qed.

Lemma package_name_iff (n : str) :
  is_package_name n ↔
  Forall (λ c, is_namechar c = true) n
  ∧ (∃ c, head n = Some c ∧ is_alnum c = true)
  ∧ (∃ c, last n = Some c ∧ is_alnum c = true).
Proof.
  unfold is_package_name. rewrite re_match_name_re. split.
  - intros Hn. apply match_name_Some in Hn. naive_solver.
  - intros (Hn & (c & Hhd & Hc) & Hl).
    destruct n as [|c' n]; simplify_eq/=. rewrite Hc.
    apply Forall_cons in Hn as [_ Hn].
    destruct n as [|c' n]; [done|].
    rewrite name_tail_full; [done..|].
    destruct Hl as (d & Hd & ?). exists d. by rewrite <-Hd.
Qed.

Lemma match_name_package_name (s m r : str) :
  match_name s = Some (m, r) → is_package_name m.
Proof. intros Hm. apply package_name_iff. apply match_name_Some in Hm. naive_solver. Qed.

Lemma normalize_package_name (n : str) :
  is_package_name n → is_package_name (normalize n).
Proof.
  rewrite !package_name_iff, normalize_fmap.
  intros (Hn & (c & Hhd & Hc) & (d & Hl & Hd)). split_and!.
  - apply Forall_fmap. eapply Forall_impl; [done|].
    intros ?. apply norm_char_namechar.
  - exists (norm_char c). destruct n; simplify_eq/=.
    split; [done|by apply norm_char_alnum].
  - exists (norm_char d). rewrite fmap_last, Hl.
    split; [done|by apply norm_char_alnum].
Qed.

Lemma name_tail_longest (s t : str) :
  t `prefix_of` s → t ≠ [] →
  Forall (λ c, is_namechar c = true) t →
  (∃ c, last t = Some c ∧ is_alnum c = true) →
  ∃ m r, name_tail s = Some (m, r) ∧ length t ≤ length m.
Proof.
  revert t. induction s as [|c s IH]; intros t [q Hq] Ht Hn Hl.
  { by destruct t. }
  destruct t as [|c' t]; [done|]. simplify_eq/=.
  apply Forall_cons in Hn as [Hc Hn]. rewrite Hc.
  destruct t as [|c'' t].
  - destruct Hl as (d & [= <-] & Hd). simpl. rewrite Hd.
    destruct (name_tail q) as [[m r]|]; eexists _, _; (split; [done|simpl; lia]).
  - destruct (IH (c'' :: t)) as (m & r & -> & Hlen); [by eexists|done|done|done|].
    eexists _, _. split; [done|]. simpl in *. lia.
Qed.

Lemma match_name_longest (s m r p : str) :
  match_name s = Some (m, r) → p `prefix_of` s → is_package_name p →
  length p ≤ length m.
Proof.
  intros Hm [q ->] (Hn & (c & Hhd & Hc) & Hl)%package_name_iff.
  destruct p as [|c' p]; [done|]. injection Hhd as ->.
  change ((c :: p) ++ q) with (c :: (p ++ q)) in Hm.
  cbn [match_name] in Hm. rewrite Hc in Hm.
  apply Forall_cons in Hn as [_ Hn].
  destruct (decide (p = [])) as [->|Hp].
  { destruct (name_tail _) as [[??]|]; simplify_eq/=; lia. }
  destruct (name_tail_longest (p ++ q) p) as (m' & r' & Hm' & Hlen);
    [by eexists|done|done| |].
  { destruct Hl as (d & Hd & ?). exists d. by destruct p. }
  rewrite Hm' in Hm. simplify_eq/=. lia.
Qed.

(** ** The parser: lines that declare nothing, and what a line may carry
    around its requirement *)

(** X1.  [parse_requirement] returns [(None, None)] exactly for the
    lines that, once the comment and the surrounding whitespace are
    removed, are empty, begin with one of the prefixes "http://",
    "https://", "git+" and "-e ", or do not begin with an ASCII letter or
    digit. *)
Theorem parse_requirement_none (line : str) :
  parse_requirement line = (None, None) ↔
  strip (split_head 35 line) = []
  ∨ (∃ p, p ∈ skipped_prefixes ∧ p `prefix_of` strip (split_head 35 line))
  ∨ (∃ c, head (strip (split_head 35 line)) = Some c ∧ is_alnum c = false).
Proof.
  rewrite parse_requirement_eq. cbv zeta.
  case_bool_decide as Hempty; [by split; [left|]|].
  destruct (existsb _ _) eqn:Hskip.
  - split; [|done]. intros _. right; left.
    apply existsb_exists in Hskip as (p & Hp & Hpre).
    exists p. split; [by apply list_elem_of_In|].
    by apply bool_decide_eq_true in Hpre.
  - destruct (match_name _) as [[m rest]|] eqn:Hm.
    + split; [done|]. intros [?|[(p & Hp & Hpre)|Hhd]]; [done| |].
      * apply not_true_iff_false in Hskip. destruct Hskip.
        apply existsb_exists. exists p. split; [by apply list_elem_of_In|].
        by apply bool_decide_eq_true.
      * assert (match_name (strip (split_head 35 line)) = None) as Hn
          by (apply match_name_None; by right).
        congruence.
    + split; [|done]. intros _.
      apply match_name_None in Hm as [?|?]; [done|by right; right].
Qed.

(** X2.  The name that [parse_requirement] returns is [normalize] of the
    longest prefix of the stripped line that is a package name: no longer
    prefix of the line matches the name pattern. *)
Theorem parse_requirement_longest_name (line name ver : str) :
  parse_requirement line = (Some name, Some ver) →
  ∃ m rest,
    strip (split_head 35 line) = m ++ rest
    ∧ name = normalize m
    ∧ is_package_name m
    ∧ ∀ p, p `prefix_of` strip (split_head 35 line) → is_package_name p →
           length p ≤ length m.
Proof.
  rewrite parse_requirement_eq. cbv zeta.
  destruct (bool_decide _); [done|]. destruct (existsb _ _); [done|].
  destruct (match_name _) as [[m rest]|] eqn:Hm; [|done].
  intros [= <- <-]. exists m, rest. split_and!.
  - by apply match_name_Some in Hm as [? _].
  - done.
  - by eapply match_name_package_name.
  - intros p. by eapply match_name_longest.
Qed.

Lemma parse_requirement_longest_name_witness :
  ∃ m rest,
    strip (split_head 35 (u "Flask_SQLAlchemy-.==2.5  # orm")) = m ++ rest
    ∧ u "flask-sqlalchemy" = normalize m
    ∧ is_package_name m
    ∧ ∀ p, p `prefix_of` strip (split_head 35 (u "Flask_SQLAlchemy-.==2.5  # orm")) →
           is_package_name p → length p ≤ length m.
Proof.
  apply (parse_requirement_longest_name (u "Flask_SQLAlchemy-.==2.5  # orm")
           (u "flask-sqlalchemy") (u "==2.5")).
  vm_compute. reflexivity.
Defined.

(** X3.  Whitespace around a requirement and a comment after it do not
    change what [parse_requirement] returns: the text from the first [#]
    on is dropped whatever it holds, and so is the whitespace on both
    sides of what is left. *)
Theorem parse_requirement_ignores_comment_and_space
    (ws1 line ws2 comment : str) :
  Forall (λ c, isspace c = true) ws1 →
  Forall (λ c, isspace c = true) ws2 →
  parse_requirement (ws1 ++ line ++ ws2) = parse_requirement line
  ∧ parse_requirement (ws1 ++ line ++ ws2 ++ 35%N :: comment)
    = parse_requirement line.
Proof.
  intros H1 H2.
  assert (35%N ∉ ws1) as Hn1.
  { intros Hin. by eapply Forall_forall in Hin; [|exact H1]. }
  assert (35%N ∉ ws2) as Hn2.
  { intros Hin. by eapply Forall_forall in Hin; [|exact H2]. }
  assert (∀ tail, strip (split_head 35 (ws1 ++ line ++ ws2 ++ tail))
                  = strip (split_head 35 (line ++ ws2 ++ tail))) as Hl.
  { intros tail. rewrite split_head_app by done.
    rewrite <-(app_nil_r (split_head 35 (line ++ _))) at 1.
    by rewrite strip_spaces. }
  assert (∀ tail, tail = [] ∨ (∃ t, tail = 35%N :: t) →
            strip (split_head 35 (line ++ ws2 ++ tail))
            = strip (split_head 35 line)) as Hr.
  { intros tail Htail. destruct (decide (35%N ∈ line)) as [Hin|Hnin].
    - apply list_elem_of_split in Hin as (l1 & l2 & ->).
      rewrite <-app_assoc. rewrite <-app_comm_cons.
      by rewrite !split_head_app_sep.
    - rewrite split_head_app by done. rewrite (split_head_id _ line) by done.
      assert (split_head 35 (ws2 ++ tail) = ws2) as ->.
      { destruct Htail as [->|[t ->]].
        - rewrite app_nil_r. by apply split_head_id.
        - rewrite split_head_app by done. simpl. by rewrite app_nil_r. }
      apply (strip_spaces [] line ws2); [by apply Forall_nil|done]. }
  split.
  - rewrite !parse_requirement_eq. cbv zeta.
    specialize (Hl []). specialize (Hr [] (or_introl eq_refl)).
    rewrite !app_nil_r in Hl, Hr. by rewrite Hl, Hr.
  - rewrite !parse_requirement_eq. cbv zeta.
    rewrite Hl, Hr; [done|]. right. by eexists.
Qed.

Lemma parse_requirement_ignores_comment_and_space_witness :
  parse_requirement (u "  " ++ u "Django>=4.0" ++ [9; 32]%N)
  = parse_requirement (u "Django>=4.0")
  ∧ parse_requirement (u "  " ++ u "Django>=4.0" ++ [9; 32]%N
                       ++ 35%N :: u " web ==9")
    = parse_requirement (u "Django>=4.0").
Proof.
  apply (parse_requirement_ignores_comment_and_space
           (u "  ") (u "Django>=4.0") [9; 32]%N (u " web ==9")).
  - repeat (apply List.Forall_cons; [reflexivity|]). apply List.Forall_nil.
  - repeat (apply List.Forall_cons; [reflexivity|]). apply List.Forall_nil.
Defined.

(** X4.  The version_spec stops at the first whitespace after the
    operator: when a version clause [v] is followed by whitespace, what
    comes after it (a second constraint, a version written after a space)
    is not returned, and text without an operator between the name and
    the clause is passed over.  "package >= 1.0" gives ">=". *)
Theorem version_spec_stops_at_whitespace (n pre v tail : str) (c : char) :
  is_package_name n →
  requirement_tail (pre ++ v ++ c :: tail) →
  Forall (λ c, is_op c = false) pre →
  version_clause v →
  isspace c = true →
  parse_requirement (n ++ pre ++ v ++ c :: tail) = (Some (normalize n), Some v).
Proof.
  intros Hn Htail Hpre [(c0 & v' & -> & Hc0) Hv] Hc.
  rewrite parse_requirement_name_tail by done.
  rewrite find_version_app by done. cbn [app find_version]. rewrite Hc0.
  cbn [default from_option id]. rewrite take_nonspace_app; [done| |by simpl].
  apply Forall_cons in Hv as [_ Hv]. eapply Forall_impl; [done|]. by intros ? [? _].
Qed.

Lemma version_spec_stops_at_whitespace_witness :
  parse_requirement (u "package" ++ u " " ++ u ">=" ++ 32%N :: u "1.0")
  = (Some (normalize (u "package")), Some (u ">=")).
Proof.
  apply (version_spec_stops_at_whitespace (u "package") (u " ") (u ">=") (u "1.0")).
  - vm_compute. reflexivity.
  - change (u " " ++ u ">=" ++ 32%N :: u "1.0") with [32; 62; 61; 32; 49; 46; 48]%N.
    split_and!; [|reflexivity|discriminate|discriminate|reflexivity].
    rewrite list_elem_of_In. simpl. intros H.
    repeat (destruct H as [H|H]; [discriminate H|]). exact H.
  - apply List.Forall_cons; [reflexivity|apply List.Forall_nil].
  - change (u ">=") with [62; 61]%N. split.
    + exists 62%N, [61%N]. split; reflexivity.
    + apply List.Forall_cons; [split; [reflexivity|discriminate]|].
      apply List.Forall_cons; [split; [reflexivity|discriminate]|].
      apply List.Forall_nil.
  - reflexivity.
Defined.

Lemma take_nonspace_prefix (s : str) : take_nonspace s `prefix_of` s.
Proof.
  induction s as [|c s IH]; simpl; [done|].
  destruct (isspace c); [apply prefix_nil|by apply prefix_cons].
Qed.

Lemma find_version_elem (s v : str) (x : char) :
  find_version s = Some v → x ∈ v → x ∈ s.
Proof.
  intros (pre & c & s' & -> & _ & _ & ->)%find_version_Some Hx.
  apply elem_of_app. right.
  apply elem_of_cons in Hx as [->|Hx]; [by left|right].
  eapply elem_of_prefix; [done|apply take_nonspace_prefix].
Qed.

Lemma parsed_version_tail (line name ver : str) :
  parse_requirement line = (Some name, Some ver) →
  is_package_name name ∧ normalize name = name ∧ requirement_tail ver
  ∧ default [] (find_version ver) = ver.
Proof.
  rewrite parse_requirement_eq. cbv zeta.
  destruct (bool_decide _); [done|]. destruct (existsb _ _); [done|].
  destruct (match_name _) as [[m rest]|] eqn:Hm; [|done].
  intros [= <- <-]. split_and!.
  - eapply normalize_package_name, match_name_package_name, Hm.
  - apply normalize_idem.
  - apply match_name_Some in Hm as [Hl _].
    pose proof (find_version_nonspace rest) as Hsp.
    destruct (find_version rest) as [v|] eqn:Hv; cbn [default from_option id] in *;
      [|by split_and!; [apply not_elem_of_nil|..]].
    split_and!.
    + intros Hin. eapply find_version_elem in Hin; [|done].
      apply (no_comment_left line). rewrite Hl. apply elem_of_app. by right.
    + apply find_version_Some in Hv as (pre & c & s' & _ & _ & Hc & ->).
      split_and!; [by apply op_not_namechar|intros ->; done..].
    + destruct (last v) as [c|] eqn:Hlast; [|done].
      by eapply Forall_forall in Hsp; [|by eapply last_Some_elem_of].
  - destruct (find_version rest) as [v|] eqn:Hv; cbn [default from_option id]; [|done].
    apply find_version_Some in Hv as (pre & c & s' & _ & _ & Hc & ->).
    cbn [find_version]. rewrite Hc. cbn [default from_option id]. f_equal.
    rewrite <-(app_nil_r (take_nonspace s')) at 1.
    apply take_nonspace_app; [apply take_nonspace_nonspace|done].
Qed.

(** X5.  What [parse_requirement] returns reads back as itself: for a
    returned name and version_spec, the line [name ++ version_spec] (a
    line of the version-aware reports) parses to the same pair, and the
    name alone (a line of the names report) parses to the name with the
    empty version_spec. *)
Theorem parse_requirement_round_trip (line name ver : str) :
  parse_requirement line = (Some name, Some ver) →
  parse_requirement (name ++ ver) = (Some name, Some ver)
  ∧ parse_requirement name = (Some name, Some []).
Proof.
  intros (Hn & Hnorm & Htail & Hver)%parsed_version_tail. split.
  - rewrite parse_requirement_name_tail by done. by rewrite Hnorm, Hver.
  - rewrite <-(app_nil_r name) at 1.
    rewrite parse_requirement_name_tail; [by rewrite Hnorm|done|].
    by split_and!; [apply not_elem_of_nil|..].
Qed.

Lemma parse_requirement_round_trip_witness :
  parse_requirement (u "flask-sqlalchemy" ++ u ">=2.5,<3")
  = (Some (u "flask-sqlalchemy"), Some (u ">=2.5,<3"))
  ∧ parse_requirement (u "flask-sqlalchemy")
    = (Some (u "flask-sqlalchemy"), Some []).
Proof.
  apply (parse_requirement_round_trip (u "  Flask_SQLAlchemy >=2.5,<3 # orm")).
  vm_compute. reflexivity.
Defined.

(** ** The scan *)

Lemma scan_requirements_files_eq (root : str) files dirs :
  scan_requirements_files root (Dir files dirs)
  = manifests_in root files ++ scan_dirs root dirs.
Proof.
  cbn [scan_requirements_files]. f_equal. unfold scan_dirs.
  induction dirs as [|[d sub] dirs IH]; [done|].
  rewrite fmap_cons. cbn [concat fst snd]. by rewrite IH.
Qed.

Lemma elem_of_manifests_in (root : str) files f :
  f ∈ manifests_in root files ↔
  ∃ file_lines err,
    (u "requirements.txt", (file_lines, err)) ∈ files
    ∧ f = Manifest (path_join root (u "requirements.txt")) file_lines err.
Proof.
  induction files as [|[file [ls err]] files IH]; cbn [manifests_in].
  { split; [by intros ?%elem_of_nil|]. by intros (? & ? & ?%elem_of_nil & _). }
  case_bool_decide as Hfile.
  - subst file. rewrite elem_of_cons, IH. split.
    + intros [->|(ls' & err' & Hin & ->)]; eexists _, _; (split; [|done]).
      * by left.
      * by right.
    + intros (ls' & err' & [[= <- <-]|Hin]%elem_of_cons & ->); [by left|right].
      by eexists _, _.
  - rewrite IH. split.
    + intros (ls' & err' & Hin & ->). eexists _, _. split; [by right|done].
    + intros (ls' & err' & [[= ? ? ?]|Hin]%elem_of_cons & ->); [done|].
      by eexists _, _.
Qed.

Lemma elem_of_scan_dirs (root : str) dirs f :
  f ∈ scan_dirs root dirs ↔
  ∃ d sub, (d, sub) ∈ dirs ∧ d ∉ skipped_dirs
           ∧ f ∈ scan_requirements_files (walk_join root d) sub.
Proof.
  unfold scan_dirs. induction dirs as [|[d sub] dirs IH].
  { split; [by intros ?%elem_of_nil|]. by intros (? & ? & ?%elem_of_nil & _). }
  rewrite fmap_cons. cbn [concat fst snd]. rewrite elem_of_app, IH. split.
  - intros [Hf|(d' & sub' & Hin & Hd & Hf)].
    + case_bool_decide; [by apply elem_of_nil in Hf|].
      exists d, sub. split; [by left|done].
    + exists d', sub'. split; [by right|done].
  - intros (d' & sub' & [[= -> ->]|Hin]%elem_of_cons & Hd & Hf).
    + left. by rewrite bool_decide_eq_false_2.
    + right. by exists d', sub'.
Qed.

Lemma walk_join_prefix (top name : str) : top `prefix_of` walk_join top name.
Proof. unfold walk_join. case_bool_decide; by eexists. Qed.

Lemma dirtree_induction (P : dirtree → Prop) :
  (∀ files dirs, Forall (λ d, P d.2) dirs → P (Dir files dirs)) →
  ∀ tree, P tree.
Proof.
  intros HP. fix IH 1. intros [files dirs]. apply HP.
  induction dirs as [|[d sub] dirs IHd]; [by apply Forall_nil|].
  apply Forall_cons. split; [apply IH|apply IHd].
Qed.

(** X6.  The scan returns exactly the reachable manifests: the files
    named requirements.txt (the name compared as it is, case included) in
    the base directory and in every directory reached through
    sub-directories none of which is named .git, __pycache__,
    node_modules, .venv, venv or env. *)
Theorem scan_finds_reachable_manifests (root : str) (tree : dirtree)
    (f : ManifestFile) :
  f ∈ scan_requirements_files root tree ↔ reachable root tree f.
Proof.
  split.
  - revert root. induction tree as [files dirs IH] using dirtree_induction.
    intros root. rewrite scan_requirements_files_eq, elem_of_app.
    intros [Hf|Hf].
    + apply elem_of_manifests_in in Hf as (ls & err & Hin & ->).
      by apply reachable_here.
    + apply elem_of_scan_dirs in Hf as (d & sub & Hin & Hd & Hf).
      eapply reachable_below; [done..|].
      rewrite Forall_forall in IH. by apply (IH _ Hin).
  - induction 1 as [root files dirs ls err Hin|root files dirs d sub f Hin Hd _ IH];
      rewrite scan_requirements_files_eq, elem_of_app.
    + left. apply elem_of_manifests_in. by eexists _, _.
    + right. apply elem_of_scan_dirs. by exists d, sub.
Qed.

(** X7.  Every path that the scan returns lies below the base directory
    and ends in the file name requirements.txt. *)
Theorem scan_paths_below_root (root : str) (tree : dirtree) :
  Forall (λ f, ∃ dir, root `prefix_of` dir
                      ∧ path f = path_join dir (u "requirements.txt"))
         (scan_requirements_files root tree).
Proof.
  revert root. induction tree as [files dirs IH] using dirtree_induction.
  intros root. rewrite scan_requirements_files_eq. apply Forall_app. split.
  - apply Forall_forall. intros f (ls & err & _ & ->)%elem_of_manifests_in.
    by exists root.
  - apply Forall_forall. intros f (d & sub & Hin & _ & Hf)%elem_of_scan_dirs.
    rewrite Forall_forall in IH. specialize (IH _ Hin (walk_join root d)).
    rewrite Forall_forall in IH. destruct (IH _ Hf) as (dir & Hpre & Hpath).
    exists dir. split; [|done].
    etrans; [apply walk_join_prefix|done].
Qed.

(** X8.  A sub-directory with a skipped name is not entered, whatever
    it holds: the scan of a directory is the same with it and without
    it.  The files of a directory that are not named requirements.txt do
    not matter either. *)
Theorem scan_prunes_skipped_directories (root : str) files dirs1 d sub dirs2 :
  d ∈ skipped_dirs →
  scan_requirements_files root (Dir files (dirs1 ++ (d, sub) :: dirs2))
  = scan_requirements_files root (Dir files (dirs1 ++ dirs2))
  ∧ scan_requirements_files root (Dir files (dirs1 ++ (d, sub) :: dirs2))
    = scan_requirements_files root
        (Dir (filter (λ f, f.1 = u "requirements.txt") files) (dirs1 ++ dirs2)).
Proof.
  intros Hd.
  assert (scan_dirs root (dirs1 ++ (d, sub) :: dirs2) = scan_dirs root (dirs1 ++ dirs2))
    as Hdirs.
  { unfold scan_dirs. rewrite !fmap_app, fmap_cons, !concat_app. cbn [concat fst].
    by rewrite bool_decide_eq_true_2. }
  assert (manifests_in root (filter (λ f, f.1 = u "requirements.txt") files)
          = manifests_in root files) as Hfiles.
  { induction files as [|[file [ls err]] files IH]; [done|].
    rewrite filter_cons. cbn [fst manifests_in]. case_decide as Hfile.
    - cbn [manifests_in]. by rewrite IH.
    - by rewrite bool_decide_eq_false_2. }
  by rewrite !scan_requirements_files_eq, Hdirs, Hfiles.
Qed.

Lemma scan_prunes_skipped_directories_witness :
  let sub := Dir [(u "requirements.txt", ([u "six"], None))] [] in
  scan_requirements_files (u "/r")
    (Dir [(u "setup.py", ([], None))] ([] ++ (u "venv", sub) :: [(u "app", sub)]))
  = scan_requirements_files (u "/r")
      (Dir [(u "setup.py", ([], None))] ([] ++ [(u "app", sub)]))
  ∧ scan_requirements_files (u "/r")
      (Dir [(u "setup.py", ([], None))] ([] ++ (u "venv", sub) :: [(u "app", sub)]))
    = scan_requirements_files (u "/r")
        (Dir (filter (λ f, f.1 = u "requirements.txt") [(u "setup.py", ([], None))])
             ([] ++ [(u "app", sub)])).
Proof.
  intros sub.
  apply (scan_prunes_skipped_directories (u "/r") [(u "setup.py", ([], None))]
           [] (u "venv") sub [(u "app", sub)]).
  vm_compute. do 4 right. left.
Defined.

(** ** The aggregates of a scan *)

Lemma parsed_name_nonempty (line name : str) (ver : option str) :
  parse_requirement line = (Some name, ver) → name ≠ [].
Proof.
  destruct (parse_requirement_cases line) as [->|(n & v & Hp)]; [done|].
  rewrite Hp. intros [= -> <-].
  apply parsed_version_tail in Hp as (Hn & _).
  apply package_name_iff in Hn as (_ & (c & Hc & _) & _). by destruct name.
Qed.

Lemma decl_of_Some (line n v : str) :
  decl_of line = Some (n, v) ↔ parse_requirement line = (Some n, Some v).
Proof.
  unfold decl_of. split.
  - destruct (parse_requirement line) as [[[|c name]|] [ver|]]; naive_solver.
  - intros Hp. pose proof (parsed_name_nonempty _ _ _ Hp). rewrite Hp.
    by destruct n.
Qed.

Lemma elem_of_declarations (files : list ManifestFile) (n v : str) :
  (n, v) ∈ declarations files ↔
  ∃ line, line ∈ all_lines files ∧ parse_requirement line = (Some n, Some v).
Proof.
  unfold declarations. rewrite list_elem_of_omap.
  by setoid_rewrite decl_of_Some.
Qed.

Lemma elem_of_declared_names (files : list ManifestFile) (n : str) :
  n ∈ (declarations files).*1 ↔
  ∃ line v, line ∈ all_lines files ∧ parse_requirement line = (Some n, Some v).
Proof.
  rewrite list_elem_of_fmap. split.
  - intros ([n' v] & -> & (line & ? & ?)%elem_of_declarations). by exists line, v.
  - intros (line & v & Hin & Hp). exists (n, v). split; [done|].
    apply elem_of_declarations. by exists line.
Qed.

(** X9.  The dictionary of [extract_packages]: its keys are the names
    that some line of some file declares, and the list of a name holds,
    each once, the non-empty version specs that the lines declare for
    that name, whichever file they are in. *)
Theorem extract_packages_content (files : list ManifestFile) (st : state) :
  ∃ packages,
    (extract_packages files st).2 = inr packages
    ∧ (∀ k, is_Some (packages !! k) ↔
            ∃ line ver, line ∈ all_lines files
                        ∧ parse_requirement line = (Some k, Some ver))
    ∧ (∀ k vs, packages !! k = Some vs →
         NoDup vs
         ∧ ∀ v, v ∈ vs ↔
                v ≠ [] ∧ ∃ line, line ∈ all_lines files
                                 ∧ parse_requirement line = (Some k, Some v)).
Proof.
  eexists. split; [apply (performs_value _ _ _ _ (extract_packages_performs files))|].
  pose proof (packages_of_extract files) as Hp. split.
  - intros k. specialize (Hp k). rewrite <-elem_of_declared_names.
    destruct (_ !! k) as [vs|].
    + split; [by intros _; apply Hp|by eexists].
    + split; [by intros [? ?]|done].
  - intros k vs Hk. specialize (Hp k). rewrite Hk in Hp.
    destruct Hp as (_ & Hnd & Hvs). split; [done|].
    intros v. by rewrite Hvs, elem_of_declarations.
Qed.

Lemma file_count_le (key_of : str → option str) files k :
  file_count key_of files k ≤ length files.
Proof. apply length_filter. Qed.

(** X10.  The two counting loops count files: the count of a full spec
    in [extract_packages_with_versions], and of a name in the first loop
    of [generate_frequency_report], is the number of files that have a
    line declaring it; a key that no file declares is absent, so a count
    that is present is at least 1 and at most the number of files. *)
Theorem counts_are_numbers_of_files (files : list ManifestFile) (st : state) :
  ∃ package_versions package_counts,
    (extract_packages_with_versions files st).2 = inr package_versions
    ∧ (count_packages files st).2 = inr package_counts
    ∧ (∀ k, package_versions !! k
            = if decide (file_count full_spec_of files k = 0) then None
              else Some (file_count full_spec_of files k))
    ∧ (∀ k, package_counts !! k
            = if decide (file_count name_of files k = 0) then None
              else Some (file_count name_of files k))
    ∧ (∀ k c, package_versions !! k = Some c ∨ package_counts !! k = Some c →
              1 ≤ c ≤ length files).
Proof.
  eexists _, _.
  split; [apply (performs_value _ _ _ _ (extract_packages_with_versions_performs files))|].
  split; [apply (performs_value _ _ _ _ (count_packages_performs files))|].
  assert (∀ key_of k,
            aggregate (per_file (count_once key_of)) files ∅ !! k
            = if decide (file_count key_of files k = 0) then None
              else Some (file_count key_of files k)) as Hc.
  { intros key_of k. rewrite aggregate_count_once, lookup_empty. by case_decide. }
  split_and!; [by apply Hc..|].
  intros k c. rewrite !Hc.
  pose proof (file_count_le full_spec_of files k).
  pose proof (file_count_le name_of files k).
  intros [Hk|Hk]; case_decide; simplify_eq; lia.
Qed.

Lemma name_spec_split (n1 v1 n2 v2 : str) :
  Forall (λ c, is_namechar c = true) n1 →
  Forall (λ c, is_namechar c = true) n2 →
  match v1 with c :: _ => is_namechar c = false | [] => True end →
  match v2 with c :: _ => is_namechar c = false | [] => True end →
  n1 ++ v1 = n2 ++ v2 → n1 = n2.
Proof.
  intros H1. revert n2. induction H1 as [|c n1 Hc _ IH]; intros n2 H2 Hv1 Hv2 Heq.
  - destruct H2 as [|c n2 Hc _]; [done|]. simpl in Heq. subst v1. congruence.
  - destruct H2 as [|c' n2 Hc' H2]; simpl in Heq.
    + subst v2. congruence.
    + injection Heq as -> Heq. f_equal. by apply IH.
Qed.

Lemma full_spec_of_Some (line k : str) :
  full_spec_of line = Some k ↔
  ∃ n v, parse_requirement line = (Some n, Some v) ∧ k = n ++ v.
Proof.
  unfold full_spec_of. split.
  - destruct (parse_requirement line) as [[[|c name]|] [[|c' ver]|]] eqn:Hp;
      intros [= <-]; eexists _, _; (split; [done|]); by rewrite ?app_nil_r.
  - intros (n & v & Hp & ->). pose proof (parsed_name_nonempty _ _ _ Hp).
    rewrite Hp. destruct n as [|c n]; [done|]. destruct v; by rewrite ?app_nil_r.
Qed.

Lemma name_of_Some (line n : str) :
  name_of line = Some n ↔ ∃ v, parse_requirement line = (Some n, Some v).
Proof.
  rewrite name_of_decl_of. destruct (decl_of line) as [[n' v]|] eqn:Hd; simpl.
  - apply decl_of_Some in Hd. split.
    + intros [= <-]. by exists v.
    + intros (v' & Hp). congruence.
  - split; [done|]. intros (v & Hp%decl_of_Some). congruence.
Qed.

Lemma parsed_spec_split (line n v : str) :
  parse_requirement line = (Some n, Some v) →
  Forall (λ c, is_namechar c = true) n
  ∧ match v with c :: _ => is_namechar c = false | [] => True end.
Proof.
  intros (Hn & _ & (_ & Hv & _) & _)%parsed_version_tail.
  apply package_name_iff in Hn as (Hn & _). split; [done|].
  destruct v; [done|]. by destruct Hv.
Qed.

Lemma filter_length_mono {A} (P Q : A → Prop) `{!∀ x, Decision (P x)}
    `{!∀ x, Decision (Q x)} (l : list A) :
  (∀ x, P x → Q x) → length (filter P l) ≤ length (filter Q l).
Proof.
  intros HPQ. induction l as [|x l IH]; [done|].
  rewrite !filter_cons. destruct (decide (P x)) as [HP|HP].
  - rewrite decide_True by auto. simpl. lia.
  - case_decide; simpl; lia.
Qed.

(** X11.  A name is counted in at least as many files as any of its
    full specs: for a declaration that some line makes, the count of the
    full spec in the version-aware reports does not exceed the frequency
    of the name in the names report. *)
Theorem full_spec_count_at_most_name_count (files : list ManifestFile)
    (st : state) (line name ver : str) :
  parse_requirement line = (Some name, Some ver) →
  ∃ package_versions package_counts,
    (extract_packages_with_versions files st).2 = inr package_versions
    ∧ (count_packages files st).2 = inr package_counts
    ∧ default 0 (package_versions !! (name ++ ver))
      ≤ default 0 (package_counts !! name).
Proof.
  intros Hp. eexists _, _.
  split; [apply (performs_value _ _ _ _ (extract_packages_with_versions_performs files))|].
  split; [apply (performs_value _ _ _ _ (count_packages_performs files))|].
  rewrite !aggregate_count_once_empty. unfold file_count.
  apply filter_length_mono. intros f.
  rewrite !list_elem_of_omap. intros (l & Hl & Hk). exists l. split; [done|].
  apply full_spec_of_Some in Hk as (n & v & Hp' & Heq).
  apply name_of_Some. exists v.
  destruct (parsed_spec_split _ _ _ Hp), (parsed_spec_split _ _ _ Hp').
  by rewrite (name_spec_split name ver n v).
Qed.

Lemma full_spec_count_at_most_name_count_witness :
  ∃ package_versions package_counts,
    (extract_packages_with_versions
       [Manifest (u "a") [u "six==1.0"; u "six>=1.0"] None;
        Manifest (u "b") [u "Six==1.0"] None] (State ∅ [])).2 = inr package_versions
    ∧ (count_packages
         [Manifest (u "a") [u "six==1.0"; u "six>=1.0"] None;
          Manifest (u "b") [u "Six==1.0"] None] (State ∅ [])).2 = inr package_counts
    ∧ default 0 (package_versions !! (u "six" ++ u "==1.0"))
      ≤ default 0 (package_counts !! u "six").
Proof.
  apply (full_spec_count_at_most_name_count _ _ (u "six==1.0")).
  vm_compute. reflexivity.
Defined.

(** X12.  The names report and the frequency report list the same
    names: the dictionary of [extract_packages] and the counts of
    [generate_frequency_report] have the same keys when they are computed
    from the same files, so the lookup [packages[package]] of the
    frequency report finds every name and the report is written to its
    end. *)
Theorem frequency_report_finds_every_name (files : list ManifestFile)
    (st : state) :
  ∃ packages package_counts,
    (extract_packages files st).2 = inr packages
    ∧ (count_packages files st).2 = inr package_counts
    ∧ (∀ k, is_Some (packages !! k) ↔ is_Some (package_counts !! k))
    ∧ size packages = size package_counts
    ∧ ∀ output_file st',
        (generate_frequency_report packages files output_file st').2 = inr ().
Proof.
  eexists _, _.
  split; [apply (performs_value _ _ _ _ (extract_packages_performs files))|].
  split; [apply (performs_value _ _ _ _ (count_packages_performs files))|].
  assert (∀ k, is_Some (aggregate (foldl add_package) files ∅ !! k)
               ↔ is_Some (aggregate (per_file (count_once name_of)) files ∅ !! k))
    as Hdom.
  { intros k. split; [|apply counted_is_extracted].
    intros Hk. rewrite aggregate_count_once, lookup_empty.
    case_decide as Hc; [|by eexists]. exfalso.
    pose proof (packages_of_extract files k) as Hp. destruct Hk as [vs Hk].
    rewrite Hk in Hp. destruct Hp as (Hin & _).
    unfold declarations in Hin. rewrite <-omap_name_of in Hin.
    by apply file_count_pos in Hin. }
  split_and!; [done| |].
  - by rewrite <-!sorted_keys_length, (sorted_keys_dom _ _ Hdom).
  - intros p st'. eapply performs_value.
    apply generate_frequency_report_performs. intros k. apply Hdom.
Qed.

(** ** The reports *)

(** X13.  The two alphabetical reports: after the two header lines the
    file holds the keys of the dictionary, one per line, each once, in
    strictly ascending order of their code points; the number in the
    header is the number of these lines; and the file holds nothing
    else, whatever it held before. *)
Theorem unique_reports_order :
  (∀ (packages : gmap str (list str)) output_file fs0,
     ∃ names,
       names ≡ₚ (map_to_list packages).*1
       ∧ StronglySorted (λ a b, str_ltb a b = true) names
       ∧ fs (generate_unique_packages_report packages output_file
               (State fs0 [])).1 !! output_file
         = Some (concat
             ([u "# Unique Packages (Alphabetically Sorted)" ++ nl;
               u "# Total unique packages: " ++ str_of_nat (length names)
                 ++ nl ++ nl]
              ++ ((λ name, name ++ nl) <$> names))))
  ∧ (∀ (package_versions : gmap str nat) output_file fs0,
       ∃ specs,
         specs ≡ₚ (map_to_list package_versions).*1
         ∧ StronglySorted (λ a b, str_ltb a b = true) specs
         ∧ fs (generate_unique_packages_with_versions_report package_versions
                 output_file (State fs0 [])).1 !! output_file
           = Some (concat
               ([u "# Unique Packages with Versions (Alphabetically Sorted)" ++ nl;
                 u "# Total unique package+version combinations: "
                   ++ str_of_nat (length specs) ++ nl ++ nl]
                ++ ((λ spec, spec ++ nl) <$> specs)))).
Proof.
  split.
  - intros packages p fs0. exists (sorted_keys packages).
    split_and!; [apply sorted_keys_perm|apply sorted_keys_strict|].
    rewrite (generate_unique_packages_report_performs packages p).
    cbn [fst]. rewrite fs_report, lookup_insert_eq.
    by rewrite sorted_keys_length.
  - intros pv p fs0. exists (sorted_keys pv).
    split_and!; [apply sorted_keys_perm|apply sorted_keys_strict|].
    rewrite (generate_unique_packages_with_versions_report_performs pv p).
    cbn [fst]. rewrite fs_report, lookup_insert_eq.
    by rewrite sorted_keys_length.
Qed.

Lemma performs_for_each_raise {A} (body : A → IO unit) (ev : A → event)
    (l1 : list A) (x : A) (l2 : list A) (e : exn) :
  Forall (λ y, performs (body y) [ev y] (inr ())) l1 →
  performs (body x) [] (inl e) →
  performs (for_each body (l1 ++ x :: l2)) (ev <$> l1) (inl e).
Proof.
  intros Hl1 Hx. induction Hl1 as [|y l1 Hy _ IH]; simpl.
  - by apply performs_bind_raise.
  - apply (performs_bind _ _ [ev y] () _ _ Hy IH).
Qed.

(** X14.  [generate_frequency_report] looks every counted name up in
    the dictionary it is given.  With a dictionary that lacks a counted
    name the report is not completed: the header and the rows before the
    first such name are written, the file is closed, [KeyError] leaves
    the function and the confirmation is not printed. *)
Theorem frequency_report_missing_name (packages : gmap str (list str))
    (files : list ManifestFile) (output_file : str)
    (rows1 : list (str * nat)) (k : str) (c : nat) (rows2 : list (str * nat)) :
  sorted tuple_ltb frequency_key
    (map_to_list (aggregate (per_file (count_once name_of)) files ∅))
  = rows1 ++ (k, c) :: rows2 →
  Forall (λ row, is_Some (packages !! row.1)) rows1 →
  packages !! k = None →
  performs (generate_frequency_report packages files output_file)
    (omap warning files
     ++ EvOpen output_file
        :: (EvWrite output_file
              <$> (take 5 (frequency_chunks packages
                             (aggregate (per_file (count_once name_of)) files ∅)
                             (length files))
                   ++ (frequency_line packages <$> rows1)))
        ++ [EvClose output_file])
    (inl (KeyError k)).
Proof.
  intros Hrows Hrows1 Hk. unfold generate_frequency_report.
  eapply performs_bind; [apply count_packages_performs|].
  apply performs_bind_raise. apply performs_with_open.
  rewrite Hrows. eapply performs_eq.
  - do 5 (eapply performs_bind; [apply performs_emit|]).
    apply (performs_for_each_raise _
             (λ row, EvWrite output_file (frequency_line packages row))).
    + eapply Forall_impl; [exact Hrows1|]. intros [k' c'] [l Hl]. cbn [fst] in Hl.
      rewrite Hl. unfold frequency_line. cbn [fst snd].
      rewrite (lookup_total_correct _ _ _ Hl).
      eapply performs_eq; [apply performs_emit|]. by destruct l.
    + rewrite Hk. apply performs_raise.
  - simpl. by rewrite <-list_fmap_compose.
Qed.

Lemma frequency_report_missing_name_witness :
  performs (generate_frequency_report ∅ [Manifest (u "r") [u "six"] None] (u "out"))
    (omap warning [Manifest (u "r") [u "six"] None]
     ++ EvOpen (u "out")
        :: (EvWrite (u "out")
              <$> (take 5 (frequency_chunks ∅
                             (aggregate (per_file (count_once name_of))
                                [Manifest (u "r") [u "six"] None] ∅)
                             (length [Manifest (u "r") [u "six"] None]))
                   ++ (frequency_line ∅ <$> [])))
        ++ [EvClose (u "out")])
    (inl (KeyError (u "six"))).
Proof.
  apply (frequency_report_missing_name ∅ [Manifest (u "r") [u "six"] None] (u "out")
           [] (u "six") 1 []).
  - vm_compute. reflexivity.
  - apply List.Forall_nil.
  - reflexivity.
Defined.

Lemma aggregate_lines {S} (read : S → list str → S) files files' (s : S) :
  lines <$> files = lines <$> files' →
  aggregate read files s = aggregate read files' s.
Proof.
  revert files' s. induction files as [|f files IH]; intros [|f' files'] s Heq;
    try done.
  rewrite !fmap_cons in Heq. injection Heq as Hf Hfiles.
  rewrite !aggregate_cons, Hf. by apply IH.
Qed.

Lemma prints_warnings (files : list ManifestFile) :
  prints (omap warning files)
  = omap (λ f, (λ e, u "Warning: Could not read " ++ path f ++ u ": " ++ e)
                 <$> read_error f) files.
Proof.
  induction files as [|f files IH]; [done|].
  rewrite !omap_cons. unfold warning at 1.
  destruct (read_error f) as [e|]; cbn [fmap option_fmap option_map]; [|done].
  unfold prints. rewrite omap_cons. fold (prints (omap warning files)).
  by rewrite IH.
Qed.

(** X15.  A manifest that cannot be read does not stop a loop over the
    files: the three loops return normally, print one warning for each
    file whose reading failed, in the order of the files, change no
    file, and compute what they would compute from the lines that were
    read had no reading failed. *)
Theorem read_errors_only_warn (files : list ManifestFile) (st : state) :
  ∃ packages package_versions package_counts,
    extract_packages files st
    = (apply_events (omap warning files) st, inr packages)
    ∧ extract_packages_with_versions files st
      = (apply_events (omap warning files) st, inr package_versions)
    ∧ count_packages files st
      = (apply_events (omap warning files) st, inr package_counts)
    ∧ extract_packages ((λ f, Manifest (path f) (lines f) None) <$> files) st
      = (st, inr packages)
    ∧ extract_packages_with_versions
        ((λ f, Manifest (path f) (lines f) None) <$> files) st
      = (st, inr package_versions)
    ∧ count_packages ((λ f, Manifest (path f) (lines f) None) <$> files) st
      = (st, inr package_counts)
    ∧ fs (apply_events (omap warning files) st) = fs st
    ∧ prints (omap warning files)
      = omap (λ f, (λ e, u "Warning: Could not read " ++ path f ++ u ": " ++ e)
                     <$> read_error f) files.
Proof.
  set (readable := (λ f, Manifest (path f) (lines f) None) <$> files).
  assert (omap warning readable = []) as Hw.
  { unfold readable. induction files as [|f files IH]; [done|].
    by rewrite fmap_cons, omap_cons. }
  assert (lines <$> readable = lines <$> files) as Hl.
  { unfold readable. rewrite <-list_fmap_compose. by apply list_fmap_ext. }
  eexists _, _, _. split_and!.
  - apply extract_packages_performs.
  - apply extract_packages_with_versions_performs.
  - apply count_packages_performs.
  - rewrite (extract_packages_performs readable), Hw.
    by rewrite (aggregate_lines _ _ _ _ Hl).
  - rewrite (extract_packages_with_versions_performs readable), Hw.
    by rewrite (aggregate_lines _ _ _ _ Hl).
  - rewrite (count_packages_performs readable), Hw.
    by rewrite (aggregate_lines _ _ _ _ Hl).
  - apply fs_apply_warnings.
  - apply prints_warnings.
Qed.

(** ** [main]: the base directory *)

(** X16.  Without a base path (no argument and no REPO_BASE, or an
    empty one), with a base path that does not exist, or with one that
    is not a directory, the run prints the error (with the resolved
    path in the last two cases), exits with status 1 and does nothing
    else: no directory is made, no file is written and nothing is read
    from the input. *)
Theorem invalid_base_exits_with_1 (w : World) :
  truthy (repo_base w) = false ∨ base_path w = None ∨ base_path w = Some None →
  exit_code (run w) = 1%Z
  ∧ fs (run w).1 = files_before w
  ∧ trace (run w).1
    = if truthy (repo_base w) then
        [EvPrint (u "Error: Repository base path "
                  ++ match base_path w with
                     | None => u "does not exist: "
                     | Some _ => u "is not a directory: "
                     end ++ resolved_repo_base w)]
      else
        [EvPrint (u "Error: No repository base path provided.");
         EvPrint (u "Either provide a path as an argument or set REPO_BASE in .env file.")].
Proof.
  unfold run, main. destruct (truthy (repo_base w)) eqn:Hbase; cbn [negb].
  - intros [?|[Hp|Hp]]; [done|rewrite Hp..]; done.
  - done.
Qed.

Lemma invalid_base_exits_with_1_witness :
  let w := with_repo_base (example_world (Dir [] []) ∅) (Some []) in
  exit_code (run w) = 1%Z
  ∧ fs (run w).1 = files_before w
  ∧ trace (run w).1
    = if truthy (repo_base w) then
        [EvPrint (u "Error: Repository base path "
                  ++ match base_path w with
                     | None => u "does not exist: "
                     | Some _ => u "is not a directory: "
                     end ++ resolved_repo_base w)]
      else
        [EvPrint (u "Error: No repository base path provided.");
         EvPrint (u "Either provide a path as an argument or set REPO_BASE in .env file.")].
Proof.
  intros w. apply (invalid_base_exits_with_1 w). left. reflexivity.
Defined.

(** ** Paths *)






(** ** The summarization step *)

Lemma universal_newlines_nil (s : str) : universal_newlines s = [] → s = [].
Proof.
  destruct s as [|c s]; [done|]. cbn [universal_newlines].
  by repeat case_match.
Qed.

Lemma read_analysis_files_eq (w : World) (analysis_dir : str) (st : state) :
  (∀ p, report_read_error w p = None) →
  read_analysis_files w analysis_dir st = (st, inr (reports_read analysis_dir (fs st))).
Proof.
  intros Hok. unfold read_analysis_files, read_report, mbind, IO_bind.
  rewrite !Hok. unfold reports_read.
  by repeat destruct (fs st !! _).
Qed.

Lemma reports_read_frequency (analysis_dir : str) (files : gmap str (list N)) :
  reports_read analysis_dir files !! u "frequency"
  = Some (universal_newlines
            (default [] (files !! path_join analysis_dir
                                    (u "packages_by_frequency.txt")))).
Proof.
  unfold reports_read. cbn [list_to_map foldr uncurry fst snd].
  rewrite lookup_insert_ne by done. by rewrite lookup_insert_eq.
Qed.

Lemma analyze_without_frequency_report (w : World) (provider : Provider)
    (api_key analysis_dir : str) (output_file : option str) (st : state) :
  (∀ p, report_read_error w p = None) →
  default [] (fs st !! path_join analysis_dir (u "packages_by_frequency.txt")) = [] →
  analyze w (provider, api_key) analysis_dir output_file st
  = (apply_event (EvPrint (analyzing_message provider)) st,
     inl (ValueError (u "Could not read frequency analysis file"))).
Proof.
  intros Hok Hfreq. unfold analyze, mbind, IO_bind, print, emit. cbv beta iota.
  fold (analyzing_message provider).
  rewrite read_analysis_files_eq, reports_read_frequency by done.
  cbn [apply_event fs]. by rewrite Hfreq.
Qed.

(** X17.  [analyze] needs the frequency report under its default name:
    when the analysis directory has no file packages_by_frequency.txt,
    or an empty one, it raises [ValueError], whatever the provider and
    the key; nothing is sent and nothing is written.  It does so right
    after its first message when no report is unreadable (an unreadable
    report is warned of first). *)
Theorem analyze_needs_frequency_report (w : World) (provider : Provider)
    (api_key analysis_dir : str) (output_file : option str) (st : state) :
  default [] (fs st !! path_join analysis_dir (u "packages_by_frequency.txt")) = [] →
  (analyze w (provider, api_key) analysis_dir output_file st).2
  = inl (ValueError (u "Could not read frequency analysis file"))
  ∧ fs (analyze w (provider, api_key) analysis_dir output_file st).1 = fs st
  ∧ ((∀ p, report_read_error w p = None) →
     analyze w (provider, api_key) analysis_dir output_file st
     = (apply_event (EvPrint (analyzing_message provider)) st,
        inl (ValueError (u "Could not read frequency analysis file")))).
Proof.
  intros Hfreq. split_and!; [..|by intros; apply analyze_without_frequency_report].
  all: unfold analyze, mbind, IO_bind, print, emit; cbv beta iota.
  all: fold (analyzing_message provider).
  all: destruct (read_analysis_files_fs w analysis_dir
                   (apply_event (EvPrint (analyzing_message provider)) st))
         as (data & st1 & -> & Hfs1 & Hdata).
  all: rewrite Hdata by done; done.
Qed.

Lemma analyze_needs_frequency_report_witness :
  let w := example_world (Dir [] []) ∅ in
  let st := State {[u "analysis/unique_packages.txt" := u "six"]} [] in
  (analyze w (openai, u "sk") (u "analysis") (Some (u "out")) st).2
  = inl (ValueError (u "Could not read frequency analysis file"))
  ∧ fs (analyze w (openai, u "sk") (u "analysis") (Some (u "out")) st).1 = fs st
  ∧ ((∀ p, report_read_error w p = None) →
     analyze w (openai, u "sk") (u "analysis") (Some (u "out")) st
     = (apply_event (EvPrint (analyzing_message openai)) st,
        inl (ValueError (u "Could not read frequency analysis file")))).
Proof.
  intros w st. apply (analyze_needs_frequency_report w openai).
  vm_compute. reflexivity.
Defined.

Lemma analyze_with_reply (w : World) (provider : Provider)
    (api_key analysis_dir : str) (output_file : option str) (st : state)
    (data : gmap str (list N)) (text : str) :
  (∀ p, report_read_error w p = None) →
  (read_analysis_files w analysis_dir st).2 = inr data →
  default [] (fs st !! path_join analysis_dir (u "packages_by_frequency.txt")) ≠ [] →
  sdk_installed w provider = true →
  remote_call w provider api_key (generate_prompt data) = inr text →
  ∃ st',
    analyze w (provider, api_key) analysis_dir output_file st = (st', inr text)
    ∧ match output_file, save_error w with
      | Some output_file, None =>
          fs st' = <[output_file := recommendations_header provider ++ text]> (fs st)
          ∧ trace st'
            = trace st
              ++ [EvPrint (analyzing_message provider);
                  EvOpen output_file;
                  EvWrite output_file (u "# AI-Generated Environment Recommendations"
                                       ++ nl ++ nl);
                  EvWrite output_file (u "Generated using: " ++ provider_upper provider
                                       ++ nl ++ nl);
                  EvWrite output_file (replicate 80 61%N ++ nl ++ nl);
                  EvWrite output_file text;
                  EvClose output_file;
                  EvPrint (nl ++ [226; 339; 8220]%N
                           ++ u " AI recommendations saved to: " ++ output_file)]
      | Some _, Some e =>
          fs st' = fs st
          ∧ trace st'
            = trace st
              ++ [EvPrint (analyzing_message provider);
                  EvPrint (u "Warning: Could not save recommendations to file: "
                           ++ e)]
      | None, _ =>
          fs st' = fs st
          ∧ trace st' = trace st ++ [EvPrint (analyzing_message provider)]
      end.
Proof.
  intros Hok Hread Hfreq Hsdk Hcall.
  rewrite read_analysis_files_eq in Hread by done. injection Hread as <-.
  unfold analyze, mbind, IO_bind, print, emit. cbv beta iota.
  fold (analyzing_message provider).
  rewrite read_analysis_files_eq, reports_read_frequency by done.
  cbn [apply_event fs].
  destruct (universal_newlines _) as [|c freq] eqn:Hd;
    [by apply universal_newlines_nil in Hd|].
  cbn [truthy negb]. unfold analyze_with. rewrite Hsdk, Hcall.
  unfold mret, IO_ret.
  destruct output_file as [output_file|]; [|by eexists].
  unfold try_except, open_to_save. destruct (save_error w) as [e|].
  { eexists. split; [reflexivity|]. cbn [apply_event fs trace exn_text].
    by rewrite <-app_assoc. }
  unfold with_open, mbind, IO_bind, emit. cbv beta iota.
  eexists. split_and!; [reflexivity| |].
  - change (fs (apply_events
                  (report_events output_file
                     [u "# AI-Generated Environment Recommendations" ++ nl ++ nl;
                      u "Generated using: " ++ provider_upper provider ++ nl ++ nl;
                      replicate 80 61%N ++ nl ++ nl; text]
                     (nl ++ [226; 339; 8220]%N ++ u " AI recommendations saved to: "
                      ++ output_file))
                  (apply_event (EvPrint (analyzing_message provider)) st))
            = <[output_file := recommendations_header provider ++ text]> (fs st)).
    rewrite fs_report. cbn [apply_event fs concat]. f_equal.
    unfold recommendations_header. by rewrite app_nil_r, <-!app_assoc.
  - cbn [apply_event trace]. by rewrite <-!app_assoc.
Qed.


(** X18.  A successful [analyze]: with reports that can be read, a
    frequency report that is not empty, an installed SDK and a provider
    that answers the prompt built from the reports as they are read, the
    answer is returned.  When an
    output file is given and can be opened, it is replaced by the header
    followed by the answer, written in four calls, and no other file
    changes; when it cannot be opened, [analyze] prints a warning,
    changes no file and returns the answer all the same; without an
    output file it only returns the answer. *)
Theorem analyze_saves_recommendations (w : World) (provider : Provider)
    (api_key analysis_dir : str) (output_file : option str) (st : state)
    (data : gmap str (list N)) (text : str) :
  (∀ p, report_read_error w p = None) →
  (read_analysis_files w analysis_dir st).2 = inr data →
  default [] (fs st !! path_join analysis_dir (u "packages_by_frequency.txt")) ≠ [] →
  sdk_installed w provider = true →
  remote_call w provider api_key (generate_prompt data) = inr text →
  ∃ st',
    analyze w (provider, api_key) analysis_dir output_file st = (st', inr text)
    ∧ match output_file, save_error w with
      | Some output_file, None =>
          fs st' = <[output_file := recommendations_header provider ++ text]> (fs st)
          ∧ trace st'
            = trace st
              ++ [EvPrint (analyzing_message provider);
                  EvOpen output_file;
                  EvWrite output_file (u "# AI-Generated Environment Recommendations"
                                       ++ nl ++ nl);
                  EvWrite output_file (u "Generated using: " ++ provider_upper provider
                                       ++ nl ++ nl);
                  EvWrite output_file (replicate 80 61%N ++ nl ++ nl);
                  EvWrite output_file text;
                  EvClose output_file;
                  EvPrint (nl ++ [226; 339; 8220]%N
                           ++ u " AI recommendations saved to: " ++ output_file)]
      | Some _, Some e =>
          fs st' = fs st
          ∧ trace st'
            = trace st
              ++ [EvPrint (analyzing_message provider);
                  EvPrint (u "Warning: Could not save recommendations to file: "
                           ++ e)]
      | None, _ =>
          fs st' = fs st
          ∧ trace st' = trace st ++ [EvPrint (analyzing_message provider)]
      end.
Proof. apply analyze_with_reply. Qed.

Lemma analyze_saves_recommendations_witness :
  let w := example_world_with (u "packages_by_frequency.txt")
             (inr (u "one environment")) (Dir [] []) in
  let st := State {[u "analysis/packages_by_frequency.txt" := u "six 1" ++ [13; 10]%N]}
              [] in
  let data : gmap str (list N) :=
    list_to_map [(u "unique_packages", []); (u "frequency", u "six 1" ++ nl);
                 (u "unique_with_versions", []); (u "frequency_with_versions", [])] in
  ∃ st',
    analyze w (anthropic, u "sk") (u "analysis") (Some (u "out")) st
    = (st', inr (u "one environment"))
    ∧ match Some (u "out"), save_error w with
      | Some output_file, None =>
          fs st' = <[output_file := recommendations_header anthropic
                                    ++ u "one environment"]> (fs st)
          ∧ trace st'
            = trace st
              ++ [EvPrint (analyzing_message anthropic);
                  EvOpen output_file;
                  EvWrite output_file (u "# AI-Generated Environment Recommendations"
                                       ++ nl ++ nl);
                  EvWrite output_file (u "Generated using: " ++ provider_upper anthropic
                                       ++ nl ++ nl);
                  EvWrite output_file (replicate 80 61%N ++ nl ++ nl);
                  EvWrite output_file (u "one environment");
                  EvClose output_file;
                  EvPrint (nl ++ [226; 339; 8220]%N
                           ++ u " AI recommendations saved to: " ++ output_file)]
      | Some _, Some e =>
          fs st' = fs st
          ∧ trace st'
            = trace st
              ++ [EvPrint (analyzing_message anthropic);
                  EvPrint (u "Warning: Could not save recommendations to file: "
                           ++ e)]
      | None, _ =>
          fs st' = fs st
          ∧ trace st' = trace st ++ [EvPrint (analyzing_message anthropic)]
      end.
Proof.
  intros w st data.
  apply (analyze_saves_recommendations w anthropic (u "sk") (u "analysis")
           (Some (u "out")) st data (u "one environment")).
  - intros p. reflexivity.
  - vm_compute. reflexivity.
  - vm_compute. discriminate.
  - reflexivity.
  - reflexivity.
Defined.

(** ** [main]: from the reports to the summarization step *)



















(** X21.  The question "Run AI analysis? [Y/n]" is asked only when
    neither [--skip-ai] nor [--ai-analysis] is given and the key of the
    provider is in the environment.  [--skip-ai] wins over
    [--ai-analysis]; without a flag and without a key the step is
    declined without a question.  Deciding only prints and asks this
    question, and changes no file; the only exception that can leave it
    is the end of the input at the question. *)
Theorem question_needs_key_and_no_flag (w : World) (st : state) :
  ∃ evs,
    (decide_ai_analysis w st).1 = apply_events evs st
    ∧ fs (decide_ai_analysis w st).1 = fs st
    ∧ Forall (λ ev, (∃ text, ev = EvPrint text)
                    ∨ ev = EvInput (nl ++ u "Run AI analysis? [Y/n]: ")) evs
    ∧ (EvInput (nl ++ u "Run AI analysis? [Y/n]: ") ∈ evs ↔
       skip_ai w = false ∧ ai_analysis w = false
       ∧ truthy (environ w !! (provider_upper (ai_provider w) ++ u "_API_KEY"))
         = true)
    ∧ (skip_ai w = true → (decide_ai_analysis w st).2 = inr false)
    ∧ (skip_ai w = false → ai_analysis w = true →
       (decide_ai_analysis w st).2 = inr true)
    ∧ (skip_ai w = false → ai_analysis w = false →
       truthy (environ w !! (provider_upper (ai_provider w) ++ u "_API_KEY"))
       = false →
       (decide_ai_analysis w st).2 = inr false)
    ∧ (∀ e, (decide_ai_analysis w st).2 = inl e → e = EOFError ∧ stdin w = None).
Proof.
  unfold decide_ai_analysis, input.
  destruct (skip_ai w); [|destruct (ai_analysis w);
    [|destruct (truthy _); [destruct (stdin w)|]]];
    (eexists; split; [unfold mbind, IO_bind, print, emit, mret, IO_ret, raise;
                      cbv beta iota; cbn [fst];
                      match goal with
                      | |- ?s = _ =>
                          let rec events t :=
                            lazymatch t with
                            | apply_event ?ev ?t' =>
                                let evs := events t' in constr:(evs ++ [ev])
                            | _ => constr:(@nil event)
                            end in
                          let evs := events s in
                          instantiate (1 := evs); reflexivity
                      end|]);
    (split; [reflexivity|]);
    (split; [repeat (apply Forall_app; split);
             repeat first [apply List.Forall_nil
                          |apply List.Forall_cons; [by eauto|]]|]);
    (split; [rewrite ?elem_of_app, ?elem_of_cons, ?elem_of_nil; naive_solver|]);
    cbn [snd]; naive_solver.
Qed.

(** ** [load_env_file] *)

Lemma lstrip_head (s : str) :
  match lstrip s with c :: _ => isspace c = false | [] => True end.
Proof.
  induction s as [|c s IH]; simpl; [done|].
  by destruct (isspace c) eqn:Hc.
Qed.

Lemma strip_last (s : str) :
  match last (strip s) with Some c => isspace c = false | None => True end.
Proof.
  unfold strip, rstrip. rewrite last_reverse.
  pose proof (lstrip_head (reverse (lstrip s))) as H.
  by destruct (lstrip (reverse (lstrip s))).
Qed.

Lemma rstrip_prefix (s : str) : rstrip s `prefix_of` s.
Proof.
  unfold rstrip. destruct (lstrip_suffix (reverse s)) as [k Hk].
  exists (reverse k). apply (inj reverse).
  by rewrite reverse_app, !reverse_involutive.
Qed.

Lemma strip_head (s : str) :
  match strip s with c :: _ => isspace c = false | [] => True end.
Proof.
  unfold strip. pose proof (lstrip_head s) as H.
  destruct (rstrip_prefix (lstrip s)) as [k Hk].
  destruct (rstrip (lstrip s)) as [|c t]; [done|].
  rewrite Hk in H. done.
Qed.


Lemma split_once_app (sep : char) (s t : str) :
  sep ∉ s → split_once sep (s ++ sep :: t) = Some (s, t).
Proof.
  induction s as [|c s IH]; simpl.
  - by rewrite N.eqb_refl.
  - intros [Hc Hs]%not_elem_of_cons.
    destruct (N.eqb_spec c sep); [done|]. by rewrite IH.
Qed.


Lemma split_once_None (sep : char) (s : str) :
  split_once sep s = None ↔ sep ∉ s.
Proof.
  induction s as [|c s IH]; simpl.
  - split; [intros _; apply not_elem_of_nil|done].
  - rewrite not_elem_of_cons. destruct (N.eqb_spec c sep) as [->|Hc].
    + split; [done|]. by intros [? _].
    + destruct (split_once sep s) as [[k v]|].
      * split; [done|]. intros [_ Hs]. by apply IH in Hs.
      * split; [|done]. intros _. split; [done|]. by apply IH.
Qed.

Lemma add_env_line_assignment (env_vars : gmap str (list N)) (line : str) :
  add_env_line env_vars line
  = match env_assignment line with
    | Some (key, value) => <[key := value]> env_vars
    | None => env_vars
    end.
Proof.
  unfold add_env_line, env_assignment.
  destruct (_ || _); [done|]. by destruct (split_once _ _) as [[??]|].
Qed.

Lemma foldl_add_env_line (env_vars : gmap str (list N)) (file_lines : list str)
    (key : str) :
  foldl add_env_line env_vars file_lines !! key
  = match env_value file_lines key with
    | Some value => Some value
    | None => env_vars !! key
    end.
Proof.
  unfold env_value. induction file_lines as [|line file_lines IH] using rev_ind.
  { done. }
  rewrite foldl_app. cbn [foldl]. rewrite add_env_line_assignment.
  rewrite omap_app, filter_app, omap_cons.
  destruct (env_assignment line) as [[k v]|].
  - rewrite filter_cons. cbn [fst].
    change (omap env_assignment []) with (@nil (list N * list N)).
    change (filter (λ kv : list N * list N, kv.1 = key) []) with (@nil (list N * list N)).
    destruct (decide (k = key)) as [->|Hk].
    + by rewrite last_snoc, lookup_insert_eq.
    + by rewrite app_nil_r, lookup_insert_ne.
  - change (omap env_assignment []) with (@nil (list N * list N)).
    change (filter (λ kv : list N * list N, kv.1 = key) []) with (@nil (list N * list N)).
    by rewrite app_nil_r.
Qed.

Lemma stripped_ends (s : str) :
  strip s = s →
  match s with c :: _ => isspace c = false | [] => True end
  ∧ match last s with Some c => isspace c = false | None => True end.
Proof. intros Hs. split; rewrite <-Hs; [apply strip_head|apply strip_last]. Qed.

Lemma env_assignment_key_value (ws1 key ws2 ws3 value ws4 : str) :
  Forall (λ c, isspace c = true) ws1 → Forall (λ c, isspace c = true) ws2 →
  Forall (λ c, isspace c = true) ws3 → Forall (λ c, isspace c = true) ws4 →
  key ≠ [] → strip key = key → 61%N ∉ key → head key ≠ Some 35%N →
  strip value = value →
  env_assignment (ws1 ++ key ++ ws2 ++ 61%N :: ws3 ++ value ++ ws4)
  = Some (key, value).
Proof.
  intros H1 H2 H3 H4 Hne Hkey Heq Hhash Hvalue.
  destruct (stripped_ends _ Hkey) as [Hkh Hkl].
  destruct (stripped_ends _ Hvalue) as [Hvh Hvl].
  destruct key as [|c key]; [done|]. clear Hne.
  assert (61%N ∉ (c :: key) ++ ws2) as Heq2.
  { rewrite not_elem_of_app. split; [done|].
    intros Hin. by eapply Forall_forall in Hin; [|exact H2]. }
  assert (∃ rest, strip (ws1 ++ (c :: key) ++ ws2 ++ 61%N :: ws3 ++ value ++ ws4)
                  = ((c :: key) ++ ws2) ++ 61%N :: rest
                  ∧ strip rest = value) as (rest & Hline & Hrest).
  { destruct (decide (value = [])) as [->|Hv].
    - exists []. split; [|done]. rewrite app_nil_l.
      replace (ws1 ++ (c :: key) ++ ws2 ++ 61%N :: ws3 ++ ws4)
        with (ws1 ++ (((c :: key) ++ ws2) ++ [61%N]) ++ (ws3 ++ ws4)).
      2:{ rewrite <-!app_assoc. done. }
      rewrite strip_spaces by (done || by apply Forall_app).
      apply strip_ends; [done|by rewrite last_snoc].
    - exists (ws3 ++ value). split.
      + replace (ws1 ++ (c :: key) ++ ws2 ++ 61%N :: ws3 ++ value ++ ws4)
          with (ws1 ++ (((c :: key) ++ ws2) ++ 61%N :: ws3 ++ value) ++ ws4).
        2:{ rewrite <-!app_assoc. cbn [app]. by rewrite <-!app_assoc. }
        rewrite strip_spaces by done. apply strip_ends; [done|].
        rewrite last_app, last_cons, last_app.
        destruct (last value) eqn:Hl; [done|].
        by apply last_None in Hl.
      + rewrite <-(app_nil_r (ws3 ++ value)), <-app_assoc.
        rewrite strip_spaces; [done..|apply List.Forall_nil]. }
  unfold env_assignment. cbv zeta. rewrite Hline.
  rewrite bool_decide_eq_false_2 by done.
  unfold startswith. rewrite bool_decide_eq_false_2.
  2:{ intros [k Hk]. cbn in Hk. injection Hk as -> _. done. }
  cbn [orb]. rewrite split_once_app by done. cbn [fmap option_fmap option_map fst snd].
  rewrite Hrest. do 2 f_equal.
  rewrite <-(app_nil_l ((c :: key) ++ ws2)).
  rewrite strip_spaces; [done|apply List.Forall_nil|done].
Qed.




(** X22.  [load_env_file] does not fail.  Without a .env file it
    returns the empty dictionary.  With one, the value of a key is the
    value that the last line assigning the key gives it, and a key that
    no line assigns is absent; when reading the file fails one warning is
    printed and the assignments read before the failure are kept. *)
Theorem env_file_last_assignment_wins :
  (∀ st, load_env_file None st = (st, inr ∅))
  ∧ (∀ file_lines err st,
       ∃ env_vars,
         load_env_file (Some (file_lines, err)) st
         = (match err with
            | Some e =>
                apply_event (EvPrint (u "Warning: Could not load .env file: " ++ e)) st
            | None => st
            end, inr env_vars)
         ∧ ∀ key, env_vars !! key = env_value file_lines key).
Proof.
  split; [done|]. intros file_lines err st. eexists. split.
  - unfold load_env_file. by destruct err.
  - intros key. rewrite foldl_add_env_line, lookup_empty.
    by destruct (env_value _ _).
Qed.

(** X23.  A line "KEY = VALUE" is read back as the pair of the key and
    the value, whatever whitespace surrounds the line, the key and the
    value, and it replaces what earlier lines gave the key: for a key
    that is not empty, has no [=], does not begin with [#] and has no
    whitespace at its ends, and a value without whitespace at its ends
    (the value may hold [=] and [#], and quotes are kept). *)
Theorem env_line_round_trip (before : list str) (err : option str) (st : state)
    (ws1 key ws2 ws3 value ws4 : str) :
  Forall (λ c, isspace c = true) ws1 → Forall (λ c, isspace c = true) ws2 →
  Forall (λ c, isspace c = true) ws3 → Forall (λ c, isspace c = true) ws4 →
  key ≠ [] → strip key = key → 61%N ∉ key → head key ≠ Some 35%N →
  strip value = value →
  ∃ earlier,
    (load_env_file (Some (before, err)) st).2 = inr earlier
    ∧ (load_env_file
         (Some (before ++ [ws1 ++ key ++ ws2 ++ 61%N :: ws3 ++ value ++ ws4], err))
         st).2
      = inr (<[key := value]> earlier).
Proof.
  intros. eexists. split.
  - unfold load_env_file. by destruct err.
  - unfold load_env_file. rewrite foldl_app. cbn [foldl].
    rewrite add_env_line_assignment, env_assignment_key_value by done.
    by destruct err.
Qed.

Lemma env_line_round_trip_witness :
  ∃ earlier,
    (load_env_file (Some ([u "REPO_BASE=/old"], None)) (State ∅ [])).2 = inr earlier
    ∧ (load_env_file
         (Some ([u "REPO_BASE=/old"]
                ++ [u "  " ++ u "REPO_BASE" ++ u " " ++ 61%N :: u " "
                    ++ u "~/repos=new #1" ++ [10%N]], None))
         (State ∅ [])).2
      = inr (<[u "REPO_BASE" := u "~/repos=new #1"]> earlier).
Proof.
  apply (env_line_round_trip [u "REPO_BASE=/old"] None (State ∅ [])
           (u "  ") (u "REPO_BASE") (u " ") (u " ") (u "~/repos=new #1") [10%N]).
  - repeat (apply List.Forall_cons; [reflexivity|]). apply List.Forall_nil.
  - repeat (apply List.Forall_cons; [reflexivity|]). apply List.Forall_nil.
  - repeat (apply List.Forall_cons; [reflexivity|]). apply List.Forall_nil.
  - repeat (apply List.Forall_cons; [reflexivity|]). apply List.Forall_nil.
  - discriminate.
  - vm_compute. reflexivity.
  - rewrite list_elem_of_In. vm_compute. intros H.
    repeat (destruct H as [H|H]; [discriminate H|]). exact H.
  - discriminate.
  - vm_compute. reflexivity.
Defined.



(** ** [main] with the .env file *)

(** X25.  Without the positional argument, a run that finds no .env
    file, or a .env file whose last assignment of REPO_BASE is missing or
    empty, prints (after the warning of a .env file that could not be
    read) that no base path was provided and exits with status 1; it
    writes nothing. *)
Theorem no_argument_and_no_repo_base
    (env_file : option (list str * option str)) (w : World) (st : state) :
  match env_file with
  | None => True
  | Some (file_lines, _) => default [] (env_value file_lines (u "REPO_BASE")) = []
  end →
  main_with_env_file env_file None w st
  = (apply_events
       (match env_file with
        | Some (_, Some e) => [EvPrint (u "Warning: Could not load .env file: " ++ e)]
        | _ => []
        end
        ++ [EvPrint (u "Error: No repository base path provided.");
            EvPrint (u "Either provide a path as an argument or set REPO_BASE in .env file.")])
       st, inr 1%Z)
  ∧ fs (main_with_env_file env_file None w st).1 = fs st.
Proof.
  intros Henv.
  assert (∀ (env_vars : gmap str (list N)) st',
            truthy (env_vars !! u "REPO_BASE") = false →
            main (with_repo_base w (env_vars !! u "REPO_BASE")) st'
            = (apply_events
                 [EvPrint (u "Error: No repository base path provided.");
                  EvPrint (u "Either provide a path as an argument or set REPO_BASE in .env file.")]
                 st', inr 1%Z)) as Hmain.
  { intros env_vars st' Hbase. unfold main. cbn [repo_base with_repo_base].
    by rewrite Hbase. }
  assert (main_with_env_file env_file None w st
          = (apply_events
               (match env_file with
                | Some (_, Some e) =>
                    [EvPrint (u "Warning: Could not load .env file: " ++ e)]
                | _ => []
                end
                ++ [EvPrint (u "Error: No repository base path provided.");
                    EvPrint (u "Either provide a path as an argument or set REPO_BASE in .env file.")])
               st, inr 1%Z)) as Hrun.
  { unfold main_with_env_file, load_env_file, mbind, IO_bind.
    destruct env_file as [[file_lines [e|]]|]; cbn [mret IO_ret print emit].
    - rewrite Hmain; [done|].
      rewrite foldl_add_env_line, lookup_empty.
      by destruct (env_value _ _) as [[|??]|].
    - rewrite Hmain; [done|].
      rewrite foldl_add_env_line, lookup_empty.
      by destruct (env_value _ _) as [[|??]|].
    - by rewrite Hmain. }
  split; [done|]. rewrite Hrun. cbn [fst].
  by destruct env_file as [[? [?|]]|].
Qed.

Lemma no_argument_and_no_repo_base_witness :
  let env_file := Some ([u "ANTHROPIC_API_KEY=sk"; u "REPO_BASE=/r"; u "REPO_BASE="],
                        Some (u "bad byte")) in
  let w := example_world example_tree ∅ in
  main_with_env_file env_file None w (State ∅ [])
  = (apply_events
       (match env_file with
        | Some (_, Some e) => [EvPrint (u "Warning: Could not load .env file: " ++ e)]
        | _ => []
        end
        ++ [EvPrint (u "Error: No repository base path provided.");
            EvPrint (u "Either provide a path as an argument or set REPO_BASE in .env file.")])
       (State ∅ []), inr 1%Z)
  ∧ fs (main_with_env_file env_file None w (State ∅ [])).1 = fs (State ∅ []).
Proof.
  intros env_file w. apply (no_argument_and_no_repo_base env_file w (State ∅ [])).
  vm_compute. reflexivity.
Defined.

(** X26.  The .env file reaches the run through REPO_BASE only, and
    only when there is no positional argument: two .env files that give
    REPO_BASE the same value (and are read with the same outcome) lead to
    the same run, whatever else they assign, so that a key such as
    ANTHROPIC_API_KEY in the .env file is not seen by the summarization
    step; with an argument even REPO_BASE is not looked at. *)
Theorem env_file_gives_repo_base_only (file_lines1 file_lines2 : list str)
    (err : option str) (argument : option str) (w : World) (st : state) :
  (argument = None →
   env_value file_lines1 (u "REPO_BASE") = env_value file_lines2 (u "REPO_BASE")) →
  main_with_env_file (Some (file_lines1, err)) argument w st
  = main_with_env_file (Some (file_lines2, err)) argument w st.
Proof.
  intros Hbase. unfold main_with_env_file, load_env_file, mbind, IO_bind.
  destruct argument as [base|].
  - by destruct err.
  - destruct err; unfold print, emit, mret, IO_ret; cbv beta iota;
      by rewrite !foldl_add_env_line, !lookup_empty, Hbase.
Qed.

Lemma env_file_gives_repo_base_only_witness :
  main_with_env_file
    (Some ([u "REPO_BASE=/repos"; u "ANTHROPIC_API_KEY=sk-test"], None)) None
    (example_world example_tree ∅) (State ∅ [])
  = main_with_env_file (Some ([u "REPO_BASE=/repos"], None)) None
      (example_world example_tree ∅) (State ∅ []).
Proof.
  apply (env_file_gives_repo_base_only
           [u "REPO_BASE=/repos"; u "ANTHROPIC_API_KEY=sk-test"]
           [u "REPO_BASE=/repos"] None None).
  intros _. vm_compute. reflexivity.
Defined.

(** ** The order of the version specs of a name *)

Lemma first_seen_snoc (l : list str) (v : str) :
  first_seen (l ++ [v]) = if decide (v ∈ l) then first_seen l else first_seen l ++ [v].
Proof.
  unfold first_seen. rewrite reverse_snoc. cbn [remove_dups].
  destruct (decide_rel elem_of v (reverse l)) as [Hin|Hin];
    rewrite elem_of_reverse in Hin.
  - by rewrite decide_True.
  - by rewrite decide_False, reverse_cons.
Qed.

Lemma elem_of_first_seen (l : list str) (v : str) : v ∈ first_seen l ↔ v ∈ l.
Proof. unfold first_seen. by rewrite elem_of_reverse, elem_of_remove_dups, elem_of_reverse. Qed.

Lemma specs_declared_snoc (decls : list (str * str)) (n v k : str) :
  specs_declared (decls ++ [(n, v)]) k
  = specs_declared decls k
    ++ (if decide (n = k ∧ v ≠ []) then [v] else []).
Proof.
  unfold specs_declared. rewrite filter_app, fmap_app, filter_app. f_equal.
  rewrite filter_cons. cbn [fst].
  destruct (decide (n = k)) as [->|Hn].
  - rewrite fmap_cons, filter_cons. cbn [snd].
    destruct (decide (v ≠ [])) as [Hv|Hv].
    + by rewrite decide_True.
    + rewrite decide_False; [done|]. by intros [_ ?].
  - rewrite decide_False; [done|]. by intros [? _].
Qed.

Lemma first_seen_add_decl (packages : gmap str (list str))
    (decls : list (str * str)) (n v : str) :
  (∀ k, default [] (packages !! k) = first_seen (specs_declared decls k)) →
  ∀ k, default [] (add_decl n v packages !! k)
       = first_seen (specs_declared (decls ++ [(n, v)]) k).
Proof.
  intros Hinv k. unfold add_decl. rewrite specs_declared_snoc.
  destruct (decide (k = n)) as [->|Hk].
  - rewrite lookup_insert_eq. cbn [default from_option id]. rewrite Hinv.
    case_bool_decide as Hv.
    + destruct Hv as [Hne Hnin]. rewrite decide_True by done.
      rewrite first_seen_snoc, decide_False; [done|].
      by rewrite <-elem_of_first_seen.
    + destruct (decide (n = n ∧ v ≠ [])) as [[_ Hne]|Hno].
      * rewrite first_seen_snoc, decide_True; [done|].
        rewrite <-elem_of_first_seen.
        destruct (decide (v ∈ first_seen (specs_declared decls n))); [done|].
        by destruct Hv.
      * by rewrite app_nil_r.
  - rewrite lookup_insert_ne by done. rewrite Hinv.
    rewrite decide_False; [|by intros [-> _]]. by rewrite app_nil_r.
Qed.

Lemma first_seen_foldl (packages : gmap str (list str))
    (decls : list (str * str)) (ls : list str) :
  (∀ k, default [] (packages !! k) = first_seen (specs_declared decls k)) →
  ∀ k, default [] (foldl add_package packages ls !! k)
       = first_seen (specs_declared (decls ++ omap decl_of ls) k).
Proof.
  revert packages decls. induction ls as [|l ls IH]; intros packages decls Hinv.
  - cbn [foldl omap list_omap]. by rewrite app_nil_r.
  - rewrite omap_cons. cbn [foldl]. rewrite add_package_add_decl.
    destruct (decl_of l) as [[n v]|]; [|by apply IH].
    rewrite cons_middle, app_assoc. by apply IH, first_seen_add_decl.
Qed.

(** X27.  The version specs of a name are kept in the order in which
    the scan first meets them: the list that [extract_packages] gives a
    name is the list of the non-empty version specs that the lines
    declare for it, file after file and line after line, without the
    repetitions.  This is the order of the "Versions Found" column of
    the frequency report. *)
Theorem versions_in_first_seen_order (files : list ManifestFile) (st : state) :
  ∃ packages,
    (extract_packages files st).2 = inr packages
    ∧ ∀ name versions,
        packages !! name = Some versions →
        versions = first_seen (specs_declared (declarations files) name).
Proof.
  eexists. split; [apply (performs_value _ _ _ _ (extract_packages_performs files))|].
  intros name versions Hname.
  pose proof (first_seen_foldl ∅ [] (all_lines files)) as Hinv.
  rewrite <-aggregate_foldl in Hinv. specialize (Hinv (λ k, eq_refl) name).
  by rewrite Hname in Hinv.
Qed.

(** ** A provider whose SDK is missing *)




(** ** The sizes of the two dictionaries *)

Lemma name_part_app (n v : str) :
  Forall (λ c, is_namechar c = true) n →
  match v with c :: _ => is_namechar c = false | [] => True end →
  name_part (n ++ v) = n.
Proof.
  intros Hn Hv. induction Hn as [|c n Hc _ IH]; simpl.
  - destruct v as [|c v]; [done|]. simpl. by rewrite Hv.
  - by rewrite Hc, IH.
Qed.

Lemma name_of_full_spec (line name : str) :
  name_of line = Some name ↔
  ∃ spec, full_spec_of line = Some spec ∧ name_part spec = name.
Proof.
  rewrite name_of_Some. split.
  - intros (v & Hp). exists (name ++ v). split.
    + apply full_spec_of_Some. by eexists _, _.
    + destruct (parsed_spec_split _ _ _ Hp). by apply name_part_app.
  - intros (spec & (n & v & Hp & ->)%full_spec_of_Some & <-).
    exists v. destruct (parsed_spec_split _ _ _ Hp).
    by rewrite name_part_app.
Qed.

(** X30.  The version-aware reports have at least as many entries as
    the names reports: every name that [extract_packages] records is the
    name at the start of a full spec that [extract_packages_with_versions]
    counts, so the dictionary of names is not larger than the dictionary
    of full specs. *)
Theorem names_at_most_full_specs (files : list ManifestFile) (st : state) :
  ∃ packages package_versions,
    (extract_packages files st).2 = inr packages
    ∧ (extract_packages_with_versions files st).2 = inr package_versions
    ∧ (∀ name, is_Some (packages !! name) ↔
               ∃ spec, is_Some (package_versions !! spec) ∧ name_part spec = name)
    ∧ size packages ≤ size package_versions.
Proof.
  eexists _, _.
  split; [apply (performs_value _ _ _ _ (extract_packages_performs files))|].
  split; [apply (performs_value _ _ _ _ (extract_packages_with_versions_performs files))|].
  set (packages := aggregate (foldl add_package) files ∅).
  set (pv := aggregate (per_file (count_once full_spec_of)) files ∅).
  assert (∀ spec, is_Some (pv !! spec) ↔ spec ∈ omap full_spec_of (all_lines files))
    as Hpv.
  { intros spec. unfold pv. rewrite aggregate_count_once, lookup_empty, <-file_count_pos.
    case_decide; [split; [by intros [? ?]|done]|]. split; [done|by eexists]. }
  assert (∀ name, is_Some (packages !! name) ↔ name ∈ omap name_of (all_lines files))
    as Hp.
  { intros name. pose proof (packages_of_extract files name) as Hk.
    fold packages in Hk. rewrite omap_name_of. fold (declarations files).
    destruct (packages !! name); [split; [by intros _; apply Hk|by eexists]|].
    split; [by intros [? ?]|done]. }
  assert (∀ name, is_Some (packages !! name) ↔
                  ∃ spec, is_Some (pv !! spec) ∧ name_part spec = name) as Hnames.
  { intros name. rewrite Hp, list_elem_of_omap. split.
    - intros (line & Hin & (spec & Hs & Hn)%name_of_full_spec).
      exists spec. split; [|done]. apply Hpv, list_elem_of_omap. by exists line.
    - intros (spec & (line & Hin & Hs)%Hpv%list_elem_of_omap & Hn).
      exists line. split; [done|]. apply name_of_full_spec. by exists spec. }
  split; [done|].
  rewrite <-(length_map_to_list packages), <-(length_map_to_list pv).
  rewrite <-(length_fmap fst (map_to_list packages)).
  rewrite <-(length_fmap fst (map_to_list pv)).
  rewrite <-(length_fmap name_part (map_to_list pv).*1).
  apply submseteq_length, NoDup_submseteq; [apply NoDup_fst_map_to_list|].
  intros name Hname. apply elem_of_keys, Hnames in Hname as (spec & Hspec & <-).
  apply list_elem_of_fmap_2. by apply elem_of_keys.
Qed.
